(** * Encounter-bot: table importer, exporter and roller

    A shallow embedding of [importer.py], [download.py], [roller.py] and
    the storage part of [delete_cmd.py], with the properties of the
    table-definition and roll engine proved about it.

    Layout: the Python run-time pieces the sources rely on ([Py]), the
    workbook model ([Xl]), the importer's parsing functions, the store and
    its transactions, the importer, the exporter, the roller, and then the
    theorems. *)

From Stdlib Require Import List ZArith NArith PArith Bool Arith Lia.
From Stdlib Require Import Ascii String.
From Stdlib Require Import QArith.
From Stdlib Require Import Floats.SpecFloat.
From Stdlib Require Import Permutation Sorted.
Import ListNotations.

Open Scope string_scope.
Open Scope Z_scope.
Open Scope list_scope.

Set Implicit Arguments.

(* ================================================================= *)
(** * Python run-time pieces *)

(** Text is a sequence of code points below 256, one [ascii] each.  The
    functions below are [str.strip], [str.lower], [str(int)], [float(str)],
    [float.is_integer], [int(float)] and [repr(float)] restricted to such
    text. *)
Module Py.

(** [str.isspace] on code points below 256. *)
Definition is_space (c : ascii) : bool :=
  let n := nat_of_ascii c in
  (((9 <=? n) && (n <=? 13)) || ((28 <=? n) && (n <=? 32))
   || (n =? 133) || (n =? 160))%nat.

Fixpoint lstrip (s : string) : string :=
  match s with
  | EmptyString => EmptyString
  | String c r => if is_space c then lstrip r else s
  end.

Fixpoint rstrip (s : string) : string :=
  match s with
  | EmptyString => EmptyString
  | String c r =>
      match rstrip r with
      | EmptyString => if is_space c then EmptyString else String c EmptyString
      | r' => String c r'
      end
  end.

Definition strip (s : string) : string := rstrip (lstrip s).

(** [str.lower] on code points below 256: A-Z and the Latin-1 capitals
    (192-222 but the multiplication sign 215) move up by 32. *)
Definition lower_char (c : ascii) : ascii :=
  let n := nat_of_ascii c in
  if (((65 <=? n) && (n <=? 90))
      || ((192 <=? n) && (n <=? 222) && negb (n =? 215)))%nat
  then ascii_of_nat (n + 32) else c.

Fixpoint lower (s : string) : string :=
  match s with
  | EmptyString => EmptyString
  | String c r => String (lower_char c) (lower r)
  end.

(** Decimal digits. *)
Definition is_digit (c : ascii) : bool :=
  let n := nat_of_ascii c in ((48 <=? n) && (n <=? 57))%nat.

Definition digit_val (c : ascii) : N := N.of_nat (nat_of_ascii c - 48).

Definition digit_char (d : N) : ascii := ascii_of_nat (48 + N.to_nat d).

(** [str(n)] for a natural number, most significant digit first. *)
Fixpoint N_digits (fuel : nat) (n : N) (acc : string) : string :=
  match fuel with
  | O => acc
  | S k =>
      let acc' := String (digit_char (n mod 10)%N) acc in
      if (n <? 10)%N then acc' else N_digits k (n / 10)%N acc'
  end.

Definition str_N (n : N) : string :=
  N_digits (S (N.to_nat (N.log2 n))) n EmptyString.

(** [str(z)] for a Python [int]. *)
Definition str_int (z : Z) : string :=
  match z with
  | Z0 => "0"
  | Zpos p => str_N (Npos p)
  | Zneg p => String "-" (str_N (Npos p))
  end.

(** The value of a run of decimal digits. *)
Fixpoint digits_val (s : string) (acc : N) : N :=
  match s with
  | EmptyString => acc
  | String c r => digits_val r (10 * acc + digit_val c)%N
  end.

(** ** Binary64 floats *)

Definition float := spec_float.

Definition prec : Z := 53.
Definition emax : Z := 1024.

(** The binary64 nearest (ties to even) to [(-1)^neg * m * 10^e]; the
    quotient for a negative [e] is rounded once, from the exact remainder. *)
Definition float_of_decimal (neg : bool) (m : N) (e : Z) : float :=
  match m with
  | N0 => S754_zero neg
  | Npos p =>
      if 0 <=? e then
        binary_normalize prec emax (cond_Zopp neg (Zpos p * 10 ^ e)) 0 neg
      else
        let '(q, e', l) :=
          SFdiv_core_binary prec emax (Zpos p) 0 (10 ^ (- e)) 0 in
        binary_round_aux prec emax neg q e' l
  end.

(** *** [float(s)] *)

Fixpoint span_digits (s : string) : string * string :=
  match s with
  | EmptyString => (EmptyString, EmptyString)
  | String c r =>
      if is_digit c then let '(d, t) := span_digits r in (String c d, t)
      else (EmptyString, s)
  end.

(** Underscores may only stand between two digits; they are dropped.
    [prev] is the character before [s], if any. *)
Fixpoint drop_underscores (prev : option ascii) (s : string) : option string :=
  match s with
  | EmptyString =>
      match prev with
      | Some "_"%char => None
      | _ => Some EmptyString
      end
  | String c r =>
      if Ascii.eqb c "_" then
        match prev with
        | Some p => if is_digit p then drop_underscores (Some c) r else None
        | None => None
        end
      else
        match prev with
        | Some "_"%char =>
            if is_digit c
            then option_map (String c) (drop_underscores (Some c) r)
            else None
        | _ => option_map (String c) (drop_underscores (Some c) r)
        end
  end.

Definition split_sign (s : string) : bool * string :=
  match s with
  | String "-" r => (true, r)
  | String "+" r => (false, r)
  | _ => (false, s)
  end.

(** The exponent part: empty, or [e]/[E], an optional sign and at least
    one digit, up to the end of the text. *)
Definition parse_exponent (s : string) : option Z :=
  match s with
  | EmptyString => Some 0
  | String c r =>
      if Ascii.eqb (lower_char c) "e" then
        let '(neg, r') := split_sign r in
        match span_digits r' with
        | (String _ _ as d, EmptyString) =>
            Some (cond_Zopp neg (Z.of_N (digits_val d 0)))
        | _ => None
        end
      else None
  end.

Definition parse_number (neg : bool) (s : string) : option float :=
  let '(ip, r1) := span_digits s in
  let '(fp, r2) :=
    match r1 with
    | String "." t => span_digits t
    | _ => (EmptyString, r1)
    end in
  match (ip ++ fp)%string with
  | EmptyString => None
  | ds =>
      match parse_exponent r2 with
      | Some e =>
          Some (float_of_decimal neg (digits_val ds 0)
                  (e - Z.of_nat (String.length fp)))
      | None => None
      end
  end.

(** [float(s)] for text [s]; [None] stands for [ValueError].  The callers
    pass stripped text; [float] strips again, which is kept. *)
Definition parse_float (s : string) : option float :=
  match drop_underscores None (strip s) with
  | None => None
  | Some t =>
      let '(neg, body) := split_sign t in
      let lb := lower body in
      if String.eqb lb "inf" || String.eqb lb "infinity"
      then Some (S754_infinity neg)
      else if String.eqb lb "nan" then Some S754_nan
      else parse_number neg body
  end.

(** *** [float.is_integer] and [int(float)] *)

Definition is_integer (f : float) : bool :=
  match f with
  | S754_zero _ => true
  | S754_finite _ m e =>
      if 0 <=? e then true else Zpos m mod 2 ^ (- e) =? 0
  | _ => false
  end.

(** [int(f)] truncates toward zero; on an infinity or a NaN Python raises,
    and the callers test [is_integer] first. *)
Definition int_of_float (f : float) : Z :=
  match f with
  | S754_finite s m e =>
      cond_Zopp s (if 0 <=? e then Zpos m * 2 ^ e else Zpos m / 2 ^ (- e))
  | _ => 0
  end.

(** The exact value of a finite float. *)
Definition float_value (f : float) : option Q :=
  match f with
  | S754_zero _ => Some 0%Q
  | S754_finite s m e =>
      Some (if 0 <=? e then inject_Z (cond_Zopp s (Zpos m * 2 ^ e))
            else Qmake (cond_Zopp s (Zpos m)) (Z.to_pos (2 ^ (- e))))
  | _ => None
  end.

(** *** [repr(float)]: the shortest digits that read back as the float *)

Definition float_eqb (a b : float) : bool :=
  match a, b with
  | S754_zero s, S754_zero t => Bool.eqb s t
  | S754_infinity s, S754_infinity t => Bool.eqb s t
  | S754_nan, S754_nan => true
  | S754_finite s m e, S754_finite t n g =>
      Bool.eqb s t && Pos.eqb m n && Z.eqb e g
  | _, _ => false
  end.

(** [ge_pow10 m e k]: [m * 2^e >= 10^k]. *)
Definition ge_pow10 (m : positive) (e k : Z) : bool :=
  let num := Zpos m * 2 ^ (Z.max e 0) * 10 ^ (Z.max (- k) 0) in
  let den := 2 ^ (Z.max (- e) 0) * 10 ^ (Z.max k 0) in
  den <=? num.

(** The largest [k] with [10^k <= m * 2^e]. *)
Definition decimal_exponent (m : positive) (e : Z) : Z :=
  let k0 := ((Zpos (digits2_pos m) + e - 1) * 30103) / 100000 in
  let k1 := if ge_pow10 m e (k0 + 1) then k0 + 1 else k0 in
  if ge_pow10 m e k1 then k1 else k1 - 1.

(** [floor] and remainder sign of [m * 2^e / 10^q]: the quotient and whether
    twice the remainder is below, at or above the divisor. *)
Definition scaled (m : positive) (e q : Z) : Z * comparison :=
  let num := Zpos m * 2 ^ (Z.max e 0) * 10 ^ (Z.max (- q) 0) in
  let den := 2 ^ (Z.max (- e) 0) * 10 ^ (Z.max q 0) in
  (num / den, (2 * (num mod den)) ?= den).

(** The [n]-digit candidate for [m * 2^e]: of the two neighbours, the
    nearer one that reads back. *)
Definition candidate (m : positive) (e k : Z) (n : Z) : option (Z * Z) :=
  let q := k - n + 1 in
  let '(lo, half) := scaled m e q in
  let ok c := float_eqb (float_of_decimal false (Z.to_N c) q)
                        (S754_finite false m e) in
  let pick c := if c =? 10 ^ n then (1, k + 2) else (c, k + 1) in
  let first := match half with Gt => lo + 1 | Lt => lo
                          | Eq => if Z.even lo then lo else lo + 1 end in
  let second := if first =? lo then lo + 1 else lo in
  if ok first then Some (pick first)
  else if ok second then Some (pick second)
  else None.

Fixpoint shortest (m : positive) (e k : Z) (n : Z) (fuel : nat) : Z * Z :=
  match fuel with
  | O => (fst (scaled m e (k - 16)), k + 1)
  | S f =>
      match candidate m e k n with
      | Some r => r
      | None => shortest m e k (n + 1) f
      end
  end.

Fixpoint strip_zeros_rev (s : list ascii) : list ascii :=
  match s with
  | "0"%char :: r => strip_zeros_rev r
  | _ => s
  end.

Definition rstrip_zeros (s : string) : string :=
  match string_of_list_ascii
          (rev (strip_zeros_rev (rev (list_ascii_of_string s)))) with
  | EmptyString => "0"
  | t => t
  end.

Fixpoint zeros (n : nat) : string :=
  match n with O => EmptyString | S k => String "0" (zeros k) end.

Definition repr_finite (m : positive) (e : Z) : string :=
  let k := decimal_exponent m e in
  let '(c, decpt) := shortest m e k 1 17 in
  let ds := rstrip_zeros (str_N (Z.to_N c)) in
  let nd := Z.of_nat (String.length ds) in
  if (decpt <=? -4) || (16 <? decpt) then
    let ex := decpt - 1 in
    let mant :=
      match ds with
      | String d (String _ _ as r) => String d (String "." r)
      | _ => ds
      end in
    let exs := str_N (Z.to_N (Z.abs ex)) in
    (mant ++ "e" ++ (if (ex <? 0)%Z then "-" else "+")
          ++ (if (String.length exs <? 2)%nat then "0" else "") ++ exs)%string
  else if decpt <=? 0 then
    ("0." ++ zeros (Z.to_nat (- decpt)) ++ ds)%string
  else if nd <=? decpt then
    (ds ++ zeros (Z.to_nat (decpt - nd)) ++ ".0")%string
  else
    (substring 0 (Z.to_nat decpt) ds ++ "."
       ++ substring (Z.to_nat decpt) (Z.to_nat (nd - decpt)) ds)%string.

(** [repr(f)], which is also [str(f)]. *)
Definition repr_float (f : float) : string :=
  match f with
  | S754_zero s => if s then "-0.0" else "0.0"
  | S754_infinity s => if s then "-inf" else "inf"
  | S754_nan => "nan"
  | S754_finite s m e =>
      ((if s then "-" else "") ++ repr_finite m e)%string
  end.

End Py.

(* ================================================================= *)
(** * Exceptions and results *)

(** The Python exceptions the modelled code can meet. *)
Inductive exn : Type :=
| KeyError (key : string)
| ValueError (msg : string)
| RuntimeError (msg : string)
| OverflowError (msg : string)
| DatabaseError (msg : string).

(** [str(e)]. *)
Definition exn_str (e : exn) : string :=
  match e with
  | KeyError k => ("'" ++ k ++ "'")%string
  | ValueError m | RuntimeError m | OverflowError m | DatabaseError m => m
  end.

(** A computation that returns a value or raises. *)
Inductive Res (A : Type) : Type :=
| Val (a : A)
| Exc (e : exn).

Arguments Val {A} a.
Arguments Exc {A} e.

Definition bindR {A B} (m : Res A) (k : A -> Res B) : Res B :=
  match m with
  | Val a => k a
  | Exc e => Exc e
  end.

Declare Scope res_scope.
Delimit Scope res_scope with res.
Notation "x <- m ;; k" := (bindR m (fun x => k))
  (at level 61, m at next level, right associativity) : res_scope.
Notation "' p <- m ;; k" := (bindR m (fun x => match x with p => k end))
  (at level 61, p pattern, m at next level, right associativity) : res_scope.

(** A [for] loop over [l] threading the loop's variables [s]; the body may
    raise, which ends the loop. *)
Fixpoint for_each {A S} (body : S -> A -> Res S) (l : list A) (s : S) : Res S :=
  match l with
  | [] => Val s
  | a :: t => bindR (body s a) (for_each body t)
  end.

(* ================================================================= *)
(** * Workbooks, as openpyxl presents them *)

(** A cell value read with [data_only=True]: empty, a number or text. *)
Inductive Cell : Type :=
| CNone
| CInt (z : Z)
| CFloat (f : Py.float)
| CStr (s : string).

Definition Row := list Cell.

Record Worksheet := { title : string; cells : list Row }.

(** The sheets in workbook order. *)
Definition Workbook := list Worksheet.

(** [str(v)] for a cell value other than [None]. *)
Definition py_str (v : Cell) : string :=
  match v with
  | CNone => "None"
  | CInt z => Py.str_int z
  | CFloat f => Py.repr_float f
  | CStr s => s
  end.

Module Xl.

Definition sheetnames (wb : Workbook) : list string := map title wb.

(** [tab in wb.sheetnames]. *)
Definition has_sheet (wb : Workbook) (tab : string) : bool :=
  existsb (String.eqb tab) (sheetnames wb).

(** [wb[tab]]: the first sheet with that title. *)
Definition get_sheet (wb : Workbook) (tab : string) : Res Worksheet :=
  match find (fun ws => String.eqb (title ws) tab) wb with
  | Some ws => Val ws
  | None => Exc (KeyError ("Worksheet " ++ tab ++ " does not exist."))
  end.

(** [ws.iter_rows(values_only=True)]: the rows from row 1 on.  openpyxl
    pads every row with [None] up to the sheet's width; [row_get] returns
    [CNone] past the end of a stored row, which is the same cell. *)
Definition iter_rows (ws : Worksheet) : list Row := cells ws.

Definition row_get (r : Row) (idx : nat) : Cell := nth idx r CNone.

(** *** Titles of new sheets

    [Workbook.create_sheet] hands the title to openpyxl's
    [avoid_duplicate_name]: when an existing title equals the new one up to
    case, it looks in the comma-joined titles for every occurrence of the
    new title (case ignored) followed by digits, and appends to the new
    title one more than the highest number found. *)

Fixpoint iprefix (v s : string) : bool :=
  match v, s with
  | EmptyString, _ => true
  | String a v', String b s' =>
      Ascii.eqb (Py.lower_char a) (Py.lower_char b) && iprefix v' s'
  | String _ _, EmptyString => false
  end.

Fixpoint drop (n : nat) (s : string) : string :=
  match n, s with
  | O, _ => s
  | S k, String _ r => drop k r
  | S _, EmptyString => EmptyString
  end.

(** The digit groups of the non-overlapping matches in [s] of [v] followed
    by any digits and an optional comma, scanning left to right; [skip]
    characters are still covered by the previous match. *)
Fixpoint match_counts (v : string) (skip : nat) (s : string) : list string :=
  match s with
  | EmptyString => []
  | String _ r =>
      match skip with
      | S k => match_counts v k r
      | O =>
          if iprefix v s then
            let after := drop (String.length v) s in
            let '(ds, rest) := Py.span_digits after in
            let comma := match rest with String "," _ => 1%nat | _ => 0%nat end in
            ds :: match_counts v
                    (String.length v + String.length ds + comma - 1) r
          else match_counts v 0 r
      end
  end.

Fixpoint join_comma (names : list string) : string :=
  match names with
  | [] => ""
  | [n] => n
  | n :: t => (n ++ "," ++ join_comma t)%string
  end.

Definition avoid_duplicate_name (names : list string) (value : string) : string :=
  if existsb (fun n => String.eqb (Py.lower n) (Py.lower value)) names then
    match match_counts value 0 (join_comma names) with
    | [] => value
    | ms =>
        let counts :=
          map (fun d => Py.digits_val d 0)
              (filter (fun d => negb (String.eqb d "")) ms) in
        let highest := fold_left N.max counts 0%N in
        (value ++ Py.str_N (highest + 1))%string
    end
  else value.

(** [ws = wb.create_sheet(title)] followed by [ws.append(r)] for each row
    of [rows]: the new sheet goes last, under the title openpyxl gives it. *)
Definition create_sheet (wb : Workbook) (t : string) (rows : list Row) : Workbook :=
  wb ++ [ {| title := avoid_duplicate_name (sheetnames wb) t; cells := rows |} ].

(** What [load_workbook] guarantees, every sheet having gone through
    [create_sheet]: no two titles are equal up to case. *)
Definition wf (wb : Workbook) : Prop :=
  NoDup (map Py.lower (sheetnames wb)).

End Xl.

(* ================================================================= *)
(** * importer.py: reading and validating sheets *)

Definition ROLL_UNIFORM : string := "uniform".
Definition ROLL_WEIGHT : string := "weight".
Definition ROLL_RANGE : string := "range".

Record ImportCounts := {
  encounter_types : nat;
  encounter_entries : nat;
  reward_types : nat;
  reward_entries : nat;
  regions : nat
}.

Record ImportError := {
  tab : string;
  row : option nat;
  message : string
}.

Definition _norm_header (v : Cell) : string :=
  match v with
  | CNone => ""
  | _ => Py.lower (Py.strip (py_str v))
  end.

Definition _cell_str (v : Cell) : string :=
  match v with
  | CNone => ""
  | _ => Py.strip (py_str v)
  end.

Definition _to_int (v : Cell) : option Z :=
  match v with
  | CNone => None
  | CInt z => Some z
  | CFloat f => if Py.is_integer f then Some (Py.int_of_float f) else None
  | CStr _ =>
      let s := Py.strip (py_str v) in
      if String.eqb s "" then None
      else
        match Py.parse_float s with
        | Some f => if Py.is_integer f then Some (Py.int_of_float f) else None
        | None => None
        end
  end.

(** ** Header maps: [Dict[str, int]] in insertion order *)

Definition HeaderMap := list (string * nat).

(** [key in header_map]. *)
Definition hm_mem (key : string) (hm : HeaderMap) : bool :=
  existsb (fun kv => String.eqb (fst kv) key) hm.

(** [header_map[key]]. *)
Definition hm_get (hm : HeaderMap) (key : string) : Res nat :=
  match find (fun kv => String.eqb (fst kv) key) hm with
  | Some kv => Val (snd kv)
  | None => Exc (KeyError key)
  end.

(** [row[header_map[key]]]. *)
Definition cell_at (hm : HeaderMap) (r : Row) (key : string) : Res Cell :=
  bindR (hm_get hm key) (fun idx => Val (Xl.row_get r idx)).

Fixpoint header_scan (idx : nat) (header : Row) (hm : HeaderMap) : HeaderMap :=
  match header with
  | [] => hm
  | h :: t =>
      let key := _norm_header h in
      header_scan (S idx) t
        (if negb (String.eqb key "") && negb (hm_mem key hm)
         then hm ++ [(key, idx)] else hm)
  end.

(** [c is None or str(c).strip() == ""]. *)
Definition blank_cell (c : Cell) : bool :=
  match c with
  | CNone => true
  | _ => String.eqb (Py.strip (py_str c)) ""
  end.

(** [enumerate(l, start)]. *)
Fixpoint enumerate {A} (start : nat) (l : list A) : list (nat * A) :=
  match l with
  | [] => []
  | a :: t => (start, a) :: enumerate (S start) t
  end.

Definition DataRows := list (nat * Row).

Definition _read_sheet_rows (ws : Worksheet) : HeaderMap * DataRows :=
  match Xl.iter_rows ws with
  | [] => ([], [])
  | header :: rest =>
      (header_scan 0 header [],
       filter (fun ir => negb (forallb blank_cell (snd ir))) (enumerate 2 rest))
  end.

Open Scope res_scope.

Definition _detect_mode (tab : string) (header_map : HeaderMap) (data : DataRows)
  : Res (string * list ImportError) :=
  let has_min := hm_mem "min" header_map in
  let has_max := hm_mem "max" header_map in
  let has_weight := hm_mem "weight" header_map in
  if has_min || has_max then
    if negb (has_min && has_max) then
      Val (ROLL_RANGE,
           [ {| tab := tab; row := None;
                message := "Range mode requires both 'min' and 'max' columns." |} ])
    else
      errors <- for_each (fun errors '(row_no, r) =>
          cmi <- cell_at header_map r "min" ;;
          cma <- cell_at header_map r "max" ;;
          match _to_int cmi, _to_int cma with
          | Some mi, Some ma =>
              if ma <? mi then
                Val (errors ++ [ {| tab := tab; row := Some row_no;
                       message := "Invalid range: min " ++ Py.str_int mi
                                  ++ " is greater than max " ++ Py.str_int ma ++ "." |} ])
              else Val errors
          | _, _ => Val errors
          end) data [] ;;
      Val (ROLL_RANGE, errors)
  else if has_weight then
    errors <- for_each (fun errors '(row_no, r) =>
        cw <- cell_at header_map r "weight" ;;
        match _to_int cw with
        | None => Val errors
        | Some w =>
            if w <=? 0 then
              Val (errors ++ [ {| tab := tab; row := Some row_no;
                     message := "Invalid weight " ++ Py.str_int w
                                ++ ". Must be a positive integer." |} ])
            else Val errors
        end) data [] ;;
    Val (ROLL_WEIGHT, errors)
  else Val (ROLL_UNIFORM, []).

(** ** [list.sort(key=...)]: a stable sort *)

Section StableSort.
Variable A : Type.
Variable leb : A -> A -> bool.

(** [x] goes before the first element it is not greater than, so it stays
    ahead of the equal elements that followed it. *)
Fixpoint insert_sorted (x : A) (l : list A) : list A :=
  match l with
  | [] => [x]
  | y :: t => if leb x y then x :: l else y :: insert_sorted x t
  end.

Fixpoint stable_sort (l : list A) : list A :=
  match l with
  | [] => []
  | x :: t => insert_sorted x (stable_sort t)
  end.
End StableSort.

(** The order of the keys [(x[0], x[1])]. *)
Definition range_key_leb (a b : Z * Z * nat) : bool :=
  let '(amin, amax, _) := a in
  let '(bmin, bmax, _) := b in
  (amin <? bmin) || ((amin =? bmin) && (amax <=? bmax)).

Definition overlap_error (tab : string) (prev cur : Z * Z * nat) : ImportError :=
  let '(prev_min, prev_max, prev_row) := prev in
  let '(cur_min, cur_max, cur_row) := cur in
  {| tab := tab; row := Some cur_row;
     message := "Overlapping ranges with row " ++ Py.str_int (Z.of_nat prev_row)
                ++ ": " ++ Py.str_int prev_min ++ "-" ++ Py.str_int prev_max
                ++ " overlaps " ++ Py.str_int cur_min ++ "-" ++ Py.str_int cur_max
                ++ "." |}.

(** The loop [for i in range(1, len(ranges))] over neighbours. *)
Fixpoint overlap_errors (tab : string) (ranges : list (Z * Z * nat)) : list ImportError :=
  match ranges with
  | prev :: (cur :: _) as t =>
      (if fst (fst cur) <=? snd (fst prev)
       then [overlap_error tab prev cur] else [])
        ++ overlap_errors tab t
  | _ => []
  end.

Definition collect_ranges (header_map : HeaderMap) (data : DataRows)
  : Res (list (Z * Z * nat)) :=
  for_each (fun ranges '(row_no, r) =>
      cmi <- cell_at header_map r "min" ;;
      cma <- cell_at header_map r "max" ;;
      match _to_int cmi, _to_int cma with
      | Some mi, Some ma => Val (ranges ++ [(mi, ma, row_no)])
      | _, _ => Val ranges
      end) data [].

Definition _validate_ranges (tab : string) (header_map : HeaderMap) (data : DataRows)
  : Res (list ImportError) :=
  ranges <- collect_ranges header_map data ;;
  Val (overlap_errors tab (stable_sort range_key_leb ranges)).

(** [list(dict.fromkeys(types))]: first occurrences, in order. *)
Fixpoint dedupe (seen l : list string) : list string :=
  match l with
  | [] => []
  | x :: t =>
      if existsb (String.eqb x) seen then dedupe seen t
      else x :: dedupe (x :: seen) t
  end.

Definition err (t : string) (r : option nat) (m : string) : ImportError :=
  {| tab := t; row := r; message := m |}.

(** The rows a type sheet contributes, by mode: the loop variables are
    [(mr, types)] in range mode and [types] otherwise. *)
Definition type_rows_range (header_map : HeaderMap) (data : DataRows)
  : Res (Z * list string) :=
  for_each (fun '(mr, types) '(_, r) =>
      ct <- cell_at header_map r "type" ;;
      let t := _cell_str ct in
      if String.eqb t "" then Val (mr, types)
      else
        cmi <- cell_at header_map r "min" ;;
        cma <- cell_at header_map r "max" ;;
        match _to_int cmi, _to_int cma with
        | Some mi, Some ma => Val (Z.max mr ma, types ++ [t])
        | _, _ => Val (mr, types)
        end) data (0, []).

Definition type_rows_weight (header_map : HeaderMap) (data : DataRows)
  : Res (list string) :=
  for_each (fun types '(_, r) =>
      ct <- cell_at header_map r "type" ;;
      let t := _cell_str ct in
      if String.eqb t "" then Val types
      else
        cw <- cell_at header_map r "weight" ;;
        match _to_int cw with
        | Some w => if w <=? 0 then Val types else Val (types ++ [t])
        | None => Val types
        end) data [].

Definition type_rows_uniform (header_map : HeaderMap) (data : DataRows)
  : Res (list string) :=
  for_each (fun types '(_, r) =>
      ct <- cell_at header_map r "type" ;;
      let t := _cell_str ct in
      if String.eqb t "" then Val types else Val (types ++ [t])) data [].

Definition TypeTab : Type := string * list string * option Z * list ImportError.

Definition _parse_type_tab (wb : Workbook) (tab : string) : Res TypeTab :=
  if negb (Xl.has_sheet wb tab) then
    Val (ROLL_UNIFORM, [], None, [err tab None "Missing required tab."])
  else
    ws <- Xl.get_sheet wb tab ;;
    let '(header_map, data) := _read_sheet_rows ws in
    if negb (hm_mem "type" header_map) then
      Val (ROLL_UNIFORM, [], None, [err tab None "Missing required column 'type'."])
    else
      '(mode, mode_errs) <- _detect_mode tab header_map data ;;
      let errors := mode_errs in
      '(errors, types, max_roll) <-
        (if String.eqb mode ROLL_RANGE then
           verrs <- _validate_ranges tab header_map data ;;
           '(mr, types) <- type_rows_range header_map data ;;
           Val (errors ++ verrs, types, if 0 <? mr then Some mr else None)
         else if String.eqb mode ROLL_WEIGHT then
           types <- type_rows_weight header_map data ;;
           Val (errors, types, None)
         else
           types <- type_rows_uniform header_map data ;;
           Val (errors, types, None)) ;;
      let types := dedupe [] types in
      let errors :=
        match types with
        | [] => errors ++ [err tab None "No types found."]
        | _ => errors
        end in
      Val (mode, types, max_roll, errors).

(** An entry dict: [min], [max], [weight], [result]. *)
Record Entry := {
  e_min : option Z;
  e_max : option Z;
  e_weight : option Z;
  e_result : string
}.

Definition result_rows_range (header_map : HeaderMap) (data : DataRows)
  : Res (Z * list Entry) :=
  for_each (fun '(mr, entries) '(_, r) =>
      cr <- cell_at header_map r "result" ;;
      let result := _cell_str cr in
      if String.eqb result "" then Val (mr, entries)
      else
        cmi <- cell_at header_map r "min" ;;
        cma <- cell_at header_map r "max" ;;
        match _to_int cmi, _to_int cma with
        | Some mi, Some ma =>
            Val (Z.max mr ma,
                 entries ++ [ {| e_min := Some mi; e_max := Some ma;
                                 e_weight := None; e_result := result |} ])
        | _, _ => Val (mr, entries)
        end) data (0, []).

Definition result_rows_weight (header_map : HeaderMap) (data : DataRows)
  : Res (list Entry) :=
  for_each (fun entries '(_, r) =>
      cr <- cell_at header_map r "result" ;;
      let result := _cell_str cr in
      if String.eqb result "" then Val entries
      else
        cw <- cell_at header_map r "weight" ;;
        match _to_int cw with
        | Some w =>
            if w <=? 0 then Val entries
            else Val (entries ++ [ {| e_min := None; e_max := None;
                                      e_weight := Some w; e_result := result |} ])
        | None => Val entries
        end) data [].

Definition result_rows_uniform (header_map : HeaderMap) (data : DataRows)
  : Res (list Entry) :=
  for_each (fun entries '(_, r) =>
      cr <- cell_at header_map r "result" ;;
      let result := _cell_str cr in
      if String.eqb result "" then Val entries
      else Val (entries ++ [ {| e_min := None; e_max := None;
                                e_weight := None; e_result := result |} ]))
    data [].

Definition ResultTab : Type := string * list Entry * option Z * list ImportError.

Definition _parse_result_tab (wb : Workbook) (tab : string) : Res ResultTab :=
  if negb (Xl.has_sheet wb tab) then
    Val (ROLL_UNIFORM, [], None, [err tab None "Missing required tab."])
  else
    ws <- Xl.get_sheet wb tab ;;
    let '(header_map, data) := _read_sheet_rows ws in
    if negb (hm_mem "result" header_map) then
      Val (ROLL_UNIFORM, [], None, [err tab None "Missing required column 'result'."])
    else
      '(mode, mode_errs) <- _detect_mode tab header_map data ;;
      let errors := mode_errs in
      '(errors, entries, max_roll) <-
        (if String.eqb mode ROLL_RANGE then
           verrs <- _validate_ranges tab header_map data ;;
           '(mr, entries) <- result_rows_range header_map data ;;
           Val (errors ++ verrs, entries, if 0 <? mr then Some mr else None)
         else if String.eqb mode ROLL_WEIGHT then
           entries <- result_rows_weight header_map data ;;
           Val (errors, entries, None)
         else
           entries <- result_rows_uniform header_map data ;;
           Val (errors, entries, None)) ;;
      let errors :=
        match entries with
        | [] => errors ++ [err tab None "No results found."]
        | _ => errors
        end in
      Val (mode, entries, max_roll, errors).

(** The loop variables of [_parse_regions_tab] are [(regions, seen, errs)]. *)
Definition _parse_regions_tab (wb : Workbook)
  : Res (list (Z * string) * list ImportError) :=
  let tab := "Regions" in
  if negb (Xl.has_sheet wb tab) then Val ([], [])
  else
    ws <- Xl.get_sheet wb tab ;;
    let '(header_map, data) := _read_sheet_rows ws in
    if negb (hm_mem "region_id" header_map) || negb (hm_mem "region_name" header_map)
    then Val ([], [err tab None "Regions tab must have columns: region_id, region_name."])
    else
      '(regions, seen, errs) <-
        for_each (fun '(regions, seen, errs) '(row_no, r) =>
            crid <- cell_at header_map r "region_id" ;;
            cname <- cell_at header_map r "region_name" ;;
            let name := _cell_str cname in
            match _to_int crid with
            | None =>
                Val (regions, seen,
                     errs ++ [err tab (Some row_no) "region_id must be an integer."])
            | Some rid =>
                if rid <=? 0 then
                  Val (regions, seen,
                       errs ++ [err tab (Some row_no)
                                  "region_id must be a positive integer."])
                else if String.eqb name "" then
                  Val (regions, seen,
                       errs ++ [err tab (Some row_no) "region_name is required."])
                else if existsb (Z.eqb rid) seen then
                  Val (regions, seen,
                       errs ++ [err tab (Some row_no)
                                  ("Duplicate region_id " ++ Py.str_int rid ++ ".")])
                else Val (regions ++ [(rid, name)], rid :: seen, errs)
            end) data ([], [], []) ;;
      Val (regions, errs).

Definition _enc_type_tab (region_id : option Z) : string :=
  match region_id with
  | None => "Encounter Types"
  | Some rid => "Encounter Types - " ++ Py.str_int rid
  end.

Definition _enc_tab (region_id : option Z) (t : string) : string :=
  match region_id with
  | None => "Encounter - " ++ t
  | Some rid => "Encounter - " ++ Py.str_int rid ++ " - " ++ t
  end.

Definition _rew_tab (region_id : option Z) (t : string) : string :=
  match region_id with
  | None => "Reward - " ++ t
  | Some rid => "Reward - " ++ Py.str_int rid ++ " - " ++ t
  end.

(** ** Phase 1 of [import_workbook_bytes]: parse every region *)

(** The per-table dict [{"tab", "mode", "entries", "max_roll"}]. *)
Record TableBlob := {
  tb_tab : string;
  tb_mode : string;
  tb_entries : list Entry;
  tb_max_roll : option Z
}.

(** The dict [{"tab", "mode", "max_roll", "types"}]. *)
Record EncTypeInfo := {
  et_tab : string;
  et_mode : string;
  et_max_roll : option Z;
  et_types : list string
}.

(** A [Dict[str, ...]] in insertion order. *)
Definition Dict (V : Type) := list (string * V).

Fixpoint dict_set {V} (d : Dict V) (k : string) (v : V) : Dict V :=
  match d with
  | [] => [(k, v)]
  | (k', v') :: t =>
      if String.eqb k' k then (k, v) :: t else (k', v') :: dict_set t k v
  end.

Definition dict_get {V} (d : Dict V) (k : string) : Res V :=
  match find (fun kv => String.eqb (fst kv) k) d with
  | Some kv => Val (snd kv)
  | None => Exc (KeyError k)
  end.

Record RegionBlob := {
  rb_region_id : option Z;
  rb_enc_type : EncTypeInfo;
  rb_enc_tables : Dict TableBlob;
  rb_rew_tables : Dict TableBlob
}.

(** The variables the region loop updates. *)
Record Phase1 := {
  p_errors : list ImportError;
  p_parsed : list RegionBlob;
  p_enc_types : nat;
  p_enc_entries : nat;
  p_rew_entries : nat
}.

(** The two membership tests per type, for all types. *)
Definition missing_tabs (wb : Workbook) (region_id : option Z) (types : list string)
  : list ImportError :=
  flat_map (fun t =>
      let enc_tab := _enc_tab region_id t in
      let rew_tab := _rew_tab region_id t in
      (if negb (Xl.has_sheet wb enc_tab)
       then [err enc_tab None ("Missing tab for encounter type '" ++ t ++ "'.")]
       else [])
      ++ (if negb (Xl.has_sheet wb rew_tab)
          then [err rew_tab None ("Missing tab for reward type '" ++ t ++ "'.")]
          else [])) types.

(** One of the two loops [for t in types] that parse result tabs; the loop
    variables are [(errors, tables)]. *)
Definition parse_tables (wb : Workbook) (tab_of : string -> string)
           (types : list string) (errors : list ImportError)
  : Res (list ImportError * Dict TableBlob) :=
  for_each (fun '(errors, tables) t =>
      let tb := tab_of t in
      '(mode, entries, max_roll, tab_errs) <- _parse_result_tab wb tb ;;
      Val (errors ++ tab_errs,
           dict_set tables t {| tb_tab := tb; tb_mode := mode;
                                tb_entries := entries; tb_max_roll := max_roll |}))
    types (errors, []).

(** [sum(len(tables[t]["entries"]) for t in types)]. *)
Definition count_entries (tables : Dict TableBlob) (types : list string) : Res nat :=
  for_each (fun n t =>
      tbl <- dict_get tables t ;;
      Val (n + List.length (tb_entries tbl))%nat) types 0%nat.

(** The body of [for region_id in region_ids]. *)
Definition region_step (wb : Workbook) (st : Phase1) (region_id : option Z)
  : Res Phase1 :=
  let type_tab := _enc_type_tab region_id in
  '(enc_type_mode, types, enc_type_max, type_errs) <- _parse_type_tab wb type_tab ;;
  let errors := p_errors st ++ type_errs in
  let st1 := {| p_errors := errors; p_parsed := p_parsed st;
                p_enc_types := p_enc_types st;
                p_enc_entries := p_enc_entries st;
                p_rew_entries := p_rew_entries st |} in
  match type_errs with
  | _ :: _ => Val st1
  | [] =>
      let errors := errors ++ missing_tabs wb region_id types in
      let st2 := {| p_errors := errors; p_parsed := p_parsed st;
                    p_enc_types := p_enc_types st;
                    p_enc_entries := p_enc_entries st;
                    p_rew_entries := p_rew_entries st |} in
      match errors with
      | _ :: _ => Val st2
      | [] =>
          '(errors, enc_tables) <- parse_tables wb (_enc_tab region_id) types errors ;;
          '(errors, rew_tables) <- parse_tables wb (_rew_tab region_id) types errors ;;
          match errors with
          | _ :: _ =>
              Val {| p_errors := errors; p_parsed := p_parsed st;
                     p_enc_types := p_enc_types st;
                     p_enc_entries := p_enc_entries st;
                     p_rew_entries := p_rew_entries st |}
          | [] =>
              ne <- count_entries enc_tables types ;;
              nr <- count_entries rew_tables types ;;
              Val {| p_errors := errors;
                     p_parsed := p_parsed st ++
                       [ {| rb_region_id := region_id;
                            rb_enc_type := {| et_tab := type_tab;
                                              et_mode := enc_type_mode;
                                              et_max_roll := enc_type_max;
                                              et_types := types |};
                            rb_enc_tables := enc_tables;
                            rb_rew_tables := rew_tables |} ];
                     p_enc_types := (p_enc_types st + List.length types)%nat;
                     p_enc_entries := (p_enc_entries st + ne)%nat;
                     p_rew_entries := (p_rew_entries st + nr)%nat |}
          end
      end
  end.

(** What phase 1 hands over: an early [return None, errors], or the loop's
    variables with [regions] and [regional_mode]. *)
Inductive Phase1Result : Type :=
| EarlyReturn (errors : list ImportError)
| Parsed (regions : list (Z * string)) (regional_mode : bool) (st : Phase1).

Definition phase1 (wb : Workbook) : Res Phase1Result :=
  '(regions, region_errs) <- _parse_regions_tab wb ;;
  let errors := region_errs in
  let regional_mode := Xl.has_sheet wb "Regions" in
  let init := {| p_errors := errors; p_parsed := []; p_enc_types := 0;
                 p_enc_entries := 0; p_rew_entries := 0 |} in
  if regional_mode then
    match region_errs with
    | _ :: _ => Val (EarlyReturn errors)
    | [] =>
        match regions with
        | [] => Val (EarlyReturn
                       [err "Regions" None "Regions tab is present but has no valid rows."])
        | _ :: _ =>
            st <- for_each (region_step wb) (map (fun r => Some (fst r)) regions) init ;;
            Val (Parsed regions regional_mode st)
        end
    end
  else
    st <- for_each (region_step wb) [None] init ;;
    Val (Parsed regions regional_mode st).

Close Scope res_scope.

(* ================================================================= *)
(** * The store *)

(** Modelled from the spec: the storage schema ([schema.sql] is not among
    the sources).  Section 6 gives the four relations and section 3 the
    ownership of entries: a [table_entry] row belongs to one [table_def]
    row and is deleted with it.  Row ids are SQLite rowids: one more than
    the largest id in the table. *)

Record RegionRow := {
  rg_guild : Z;
  rg_region_id : Z;
  rg_region_name : string;
  rg_sort_order : Z
}.

Record TableDef := {
  td_id : Z;
  td_guild : Z;
  td_group_key : string;
  td_region_id : option Z;
  td_type_key : option string;
  td_roll_mode : string;
  td_max_roll : option Z;
  td_updated_at : string
}.

Record TableEntryRow := {
  te_table_id : Z;
  te_min_roll : option Z;
  te_max_roll : option Z;
  te_weight : option Z;
  te_result : string;
  te_sort_order : Z
}.

Record DB := {
  db_region : list RegionRow;
  db_table_def : list TableDef;
  db_table_entry : list TableEntryRow;
  db_guild_config : list (Z * string)
}.

Definition empty_db : DB :=
  {| db_region := []; db_table_def := []; db_table_entry := [];
     db_guild_config := [] |}.

Module Sql.

(** [INSERT INTO guild_config ... ON CONFLICT(guild_id) DO UPDATE]. *)
Definition upsert_guild_config (guild_id : Z) (updated_at : string) (db : DB) : DB :=
  {| db_region := db_region db;
     db_table_def := db_table_def db;
     db_table_entry := db_table_entry db;
     db_guild_config :=
       if existsb (fun r => fst r =? guild_id) (db_guild_config db)
       then map (fun r => if fst r =? guild_id then (guild_id, updated_at) else r)
                (db_guild_config db)
       else db_guild_config db ++ [(guild_id, updated_at)] |}.

(** [DELETE FROM table_def WHERE guild_id = ?], with the entries of the
    deleted tables. *)
Definition delete_table_defs (guild_id : Z) (db : DB) : DB :=
  let gone := filter (fun d => td_guild d =? guild_id) (db_table_def db) in
  {| db_region := db_region db;
     db_table_def := filter (fun d => negb (td_guild d =? guild_id)) (db_table_def db);
     db_table_entry :=
       filter (fun e => negb (existsb (fun d => td_id d =? te_table_id e) gone))
              (db_table_entry db);
     db_guild_config := db_guild_config db |}.

(** [DELETE FROM region WHERE guild_id = ?]. *)
Definition delete_regions (guild_id : Z) (db : DB) : DB :=
  {| db_region := filter (fun r => negb (rg_guild r =? guild_id)) (db_region db);
     db_table_def := db_table_def db;
     db_table_entry := db_table_entry db;
     db_guild_config := db_guild_config db |}.

(** [DELETE FROM guild_config WHERE guild_id = ?]. *)
Definition delete_guild_config (guild_id : Z) (db : DB) : DB :=
  {| db_region := db_region db;
     db_table_def := db_table_def db;
     db_table_entry := db_table_entry db;
     db_guild_config := filter (fun r => negb (fst r =? guild_id)) (db_guild_config db) |}.

Definition insert_region (r : RegionRow) (db : DB) : DB :=
  {| db_region := db_region db ++ [r];
     db_table_def := db_table_def db;
     db_table_entry := db_table_entry db;
     db_guild_config := db_guild_config db |}.

(** [cur.lastrowid] of the next insert into [table_def]. *)
Definition next_rowid (db : DB) : Z :=
  1 + fold_right Z.max 0 (map td_id (db_table_def db)).

Definition insert_table_def (d : TableDef) (db : DB) : DB :=
  {| db_region := db_region db;
     db_table_def := db_table_def db ++ [d];
     db_table_entry := db_table_entry db;
     db_guild_config := db_guild_config db |}.

Definition insert_table_entry (e : TableEntryRow) (db : DB) : DB :=
  {| db_region := db_region db;
     db_table_def := db_table_def db;
     db_table_entry := db_table_entry db ++ [e];
     db_guild_config := db_guild_config db |}.

(** [a IS b] on nullable columns. *)
Definition is_Z (a b : option Z) : bool :=
  match a, b with
  | None, None => true
  | Some x, Some y => x =? y
  | _, _ => false
  end.

Definition is_str (a b : option string) : bool :=
  match a, b with
  | None, None => true
  | Some x, Some y => String.eqb x y
  | _, _ => false
  end.

(** [SELECT ... FROM table_def WHERE guild_id = ? AND group_key = ? AND
    region_id IS ? AND type_key IS ?] with [fetchone]. *)
Definition select_table_def (db : DB) (guild_id : Z) (group_key : string)
           (region_id : option Z) (type_key : option string) : option TableDef :=
  find (fun d => (td_guild d =? guild_id) && String.eqb (td_group_key d) group_key
                 && is_Z (td_region_id d) region_id
                 && is_str (td_type_key d) type_key)
       (db_table_def db).

(** [SELECT ... FROM table_entry WHERE table_id = ? ORDER BY sort_order ASC]. *)
Definition select_table_entries (db : DB) (table_id : Z) : list TableEntryRow :=
  stable_sort (fun a b => te_sort_order a <=? te_sort_order b)
    (filter (fun e => te_table_id e =? table_id) (db_table_entry db)).

(** [SELECT region_id, region_name FROM region WHERE guild_id = ?
    ORDER BY sort_order ASC, region_id ASC]. *)
Definition select_regions (db : DB) (guild_id : Z) : list RegionRow :=
  stable_sort (fun a b =>
      (rg_sort_order a <? rg_sort_order b)
      || ((rg_sort_order a =? rg_sort_order b) && (rg_region_id a <=? rg_region_id b)))
    (filter (fun r => rg_guild r =? guild_id) (db_region db)).

(** [SELECT 1 FROM table_def WHERE guild_id = ? LIMIT 1]: the tenant's
    table definitions. *)
Definition table_defs_of (db : DB) (guild_id : Z) : list TableDef :=
  filter (fun d => td_guild d =? guild_id) (db_table_def db).

End Sql.

(** ** Connections and transactions *)

(** A connection: the committed store, the working copy of an open
    transaction, the number of statements run so far, and the engine's
    faults: [fault n] is what the [n]-th statement raises, if anything,
    when it writes or commits (a locked database, a full disk, a failed
    constraint). *)
Record Conn := {
  committed : DB;
  txn : option DB;
  clock : nat;
  fault : nat -> option exn
}.

Definition connect (db : DB) (f : nat -> option exn) : Conn :=
  {| committed := db; txn := None; clock := 0; fault := f |}.

(** Code that talks to the connection: a result or an exception, and the
    connection afterwards. *)
Definition DBM (A : Type) : Type := Conn -> Res A * Conn.

Definition ret {A} (a : A) : DBM A := fun c => (Val a, c).

Definition bindM {A B} (m : DBM A) (k : A -> DBM B) : DBM B :=
  fun c =>
    match m c with
    | (Val a, c') => k a c'
    | (Exc e, c') => (Exc e, c')
    end.

Definition lift {A} (r : Res A) : DBM A := fun c => (r, c).

Declare Scope dbm_scope.
Delimit Scope dbm_scope with dbm.
Notation "x <- m ;; k" := (bindM m (fun x => k))
  (at level 61, m at next level, right associativity) : dbm_scope.
Notation "m ;; k" := (bindM m (fun _ => k))
  (at level 61, right associativity) : dbm_scope.

Fixpoint for_eachM {A} (body : A -> DBM unit) (l : list A) : DBM unit :=
  match l with
  | [] => ret tt
  | a :: t => bindM (body a) (fun _ => for_eachM body t)
  end.

Definition tick (c : Conn) : Conn :=
  {| committed := committed c; txn := txn c; clock := S (clock c); fault := fault c |}.

Definition with_txn (c : Conn) (t : option DB) : Conn :=
  {| committed := committed c; txn := t; clock := clock c; fault := fault c |}.

(** SQLite stores 64-bit integers; the binding of a larger Python [int]
    raises [OverflowError]. *)
Definition fits_int64 (z : Z) : bool :=
  (- 2 ^ 63 <=? z) && (z <? 2 ^ 63).

Definition opt_fits (z : option Z) : bool :=
  match z with
  | Some v => fits_int64 v
  | None => true
  end.

Definition overflow : exn :=
  OverflowError "Python int too large to convert to SQLite INTEGER".

(** [db.execute("BEGIN")]: a deferred [BEGIN] takes no lock and touches no
    page of the file, so that none of the engine's faults strikes it; it
    raises only when a transaction is open already. *)
Definition begin : DBM unit := fun c =>
  let c1 := tick c in
  match txn c with
  | Some _ =>
      (Exc (DatabaseError "cannot start a transaction within a transaction"), c1)
  | None => (Val tt, with_txn c1 (Some (committed c)))
  end.

(** [db.execute(sql, params)] for a statement that writes: [ok] tells
    whether the integer parameters bind, [upd] is the statement's effect on
    the working copy (an implicit transaction opens when none is open). *)
Definition execute (ok : bool) (upd : DB -> DB) : DBM unit := fun c =>
  let c1 := tick c in
  if negb ok then (Exc overflow, c1)
  else
    match fault c (clock c) with
    | Some e => (Exc e, c1)
    | None =>
        let w := match txn c with Some w => w | None => committed c end in
        (Val tt, with_txn c1 (Some (upd w)))
    end.

(** [db.commit()]. *)
Definition commit : DBM unit := fun c =>
  let c1 := tick c in
  match fault c (clock c) with
  | Some e => (Exc e, c1)
  | None =>
      match txn c with
      | Some w =>
          (Val tt, {| committed := w; txn := None; clock := clock c1; fault := fault c |})
      | None => (Val tt, c1)
      end
  end.

(** [db.rollback()]: the working copy is dropped. *)
Definition rollback (c : Conn) : Conn := with_txn (tick c) None.

(** The working copy a statement sees. *)
Definition working (c : Conn) : DB :=
  match txn c with
  | Some w => w
  | None => committed c
  end.

(* ================================================================= *)
(** * importer.py: the replace transaction *)

Open Scope dbm_scope.

(** The closure [insert_table]: the insert and its [lastrowid]. *)
Definition insert_table (guild_id : Z) (updated_at : string)
           (group_key : string) (region_id : option Z) (type_key : option string)
           (roll_mode : string) (max_roll : option Z) : DBM Z :=
  fun c =>
    let id := Sql.next_rowid (working c) in
    (execute (fits_int64 guild_id && opt_fits region_id && opt_fits max_roll)
       (Sql.insert_table_def
          {| td_id := id; td_guild := guild_id; td_group_key := group_key;
             td_region_id := region_id; td_type_key := type_key;
             td_roll_mode := roll_mode; td_max_roll := max_roll;
             td_updated_at := updated_at |}) ;;
     ret id) c.

Definition entry_row (table_id : Z) (i : nat) (e : Entry) : TableEntryRow :=
  {| te_table_id := table_id; te_min_roll := e_min e; te_max_roll := e_max e;
     te_weight := e_weight e; te_result := e_result e;
     te_sort_order := Z.of_nat i |}.

(** The closure [insert_entries]. *)
Definition insert_entries (table_id : Z) (entries : list Entry) : DBM unit :=
  for_eachM (fun '(i, e) =>
      execute (fits_int64 table_id && opt_fits (e_min e) && opt_fits (e_max e)
               && opt_fits (e_weight e) && fits_int64 (Z.of_nat i))
        (Sql.insert_table_entry (entry_row table_id i e)))
    (enumerate 0 entries).

Definition uniform_entry (t : string) : Entry :=
  {| e_min := None; e_max := None; e_weight := None; e_result := t |}.

(** The closure [build_type_entries_from_sheet]; it reads the sheet again. *)
Definition build_type_entries_from_sheet (wb : Workbook) (region_id : option Z)
  : Res (list Entry) :=
  let tab := _enc_type_tab region_id in
  (ws <- Xl.get_sheet wb tab ;;
   let '(header_map, data) := _read_sheet_rows ws in
   '(mode, _) <- _detect_mode tab header_map data ;;
   for_each (fun out '(_, r) =>
       ct <- cell_at header_map r "type" ;;
       let t := _cell_str ct in
       if String.eqb t "" then Val out
       else if String.eqb mode ROLL_RANGE then
         cmi <- cell_at header_map r "min" ;;
         cma <- cell_at header_map r "max" ;;
         match _to_int cmi, _to_int cma with
         | Some mi, Some ma =>
             Val (out ++ [ {| e_min := Some mi; e_max := Some ma;
                              e_weight := None; e_result := t |} ])
         | _, _ => Val out
         end
       else if String.eqb mode ROLL_WEIGHT then
         cw <- cell_at header_map r "weight" ;;
         match _to_int cw with
         | Some w =>
             if w <=? 0 then Val out
             else Val (out ++ [ {| e_min := None; e_max := None;
                                   e_weight := Some w; e_result := t |} ])
         | None => Val out
         end
       else Val (out ++ [uniform_entry t])) data [])%res.

(** The insert of one typed table with its entries. *)
Definition insert_typed (guild_id : Z) (updated_at : string) (group_key : string)
           (region_id : option Z) (tables : Dict TableBlob) (t : string) : DBM unit :=
  tbl <- lift (dict_get tables t) ;;
  id <- insert_table guild_id updated_at group_key region_id (Some t)
          (tb_mode tbl) (tb_max_roll tbl) ;;
  insert_entries id (tb_entries tbl).

(** The body of [for region_blob in parsed_regions]. *)
Definition insert_region_blob (wb : Workbook) (guild_id : Z) (updated_at : string)
           (blob : RegionBlob) : DBM unit :=
  let region_id := rb_region_id blob in
  let enc_type_info := rb_enc_type blob in
  type_table_id <- insert_table guild_id updated_at "encounter_type" region_id None
                     (et_mode enc_type_info) (et_max_roll enc_type_info) ;;
  type_entries <- lift (build_type_entries_from_sheet wb region_id) ;;
  insert_entries type_table_id type_entries ;;
  for_eachM (fun t =>
      insert_typed guild_id updated_at "encounter" region_id (rb_enc_tables blob) t ;;
      insert_typed guild_id updated_at "reward" region_id (rb_rew_tables blob) t)
    (et_types enc_type_info).

Definition insert_regions (guild_id : Z) (regions : list (Z * string)) : DBM unit :=
  for_eachM (fun '(i, (rid, name)) =>
      execute (fits_int64 guild_id && fits_int64 rid && fits_int64 (Z.of_nat i))
        (Sql.insert_region
           {| rg_guild := guild_id; rg_region_id := rid; rg_region_name := name;
              rg_sort_order := Z.of_nat i |}))
    (enumerate 0 regions).

(** The [try] block: everything from the upsert to the commit and the
    counts. *)
Definition replace_tenant (wb : Workbook) (guild_id : Z) (updated_at : string)
           (regions : list (Z * string)) (regional_mode : bool) (st : Phase1)
  : DBM ImportCounts :=
  execute (fits_int64 guild_id) (Sql.upsert_guild_config guild_id updated_at) ;;
  execute (fits_int64 guild_id) (Sql.delete_table_defs guild_id) ;;
  execute (fits_int64 guild_id) (Sql.delete_regions guild_id) ;;
  (if regional_mode then insert_regions guild_id regions else ret tt) ;;
  for_eachM (insert_region_blob wb guild_id updated_at) (p_parsed st) ;;
  commit ;;
  ret {| encounter_types := p_enc_types st;
         encounter_entries := p_enc_entries st;
         reward_types := p_enc_types st;
         reward_entries := p_rew_entries st;
         regions := if regional_mode then List.length regions else 0%nat |}.

Definition storage_error (e : exn) : ImportError :=
  err "DB" None ("Import failed during database write: " ++ exn_str e).

(** [import_workbook_bytes(db, guild_id, xlsx_bytes)].  The workbook is
    what [load_workbook] made of the bytes; [updated_at] is [_now_iso()]. *)
Definition import_workbook_bytes (guild_id : Z) (wb : Workbook) (updated_at : string)
  : DBM (option ImportCounts * list ImportError) :=
  fun c =>
    match phase1 wb with
    | Exc e => (Exc e, c)
    | Val (EarlyReturn errors) => (Val (None, errors), c)
    | Val (Parsed regions regional_mode st) =>
        match p_errors st with
        | _ :: _ => (Val (None, p_errors st), c)
        | [] =>
            match begin c with
            | (Exc e, c1) => (Exc e, c1)
            | (Val _, c1) =>
                match replace_tenant wb guild_id updated_at regions regional_mode st c1 with
                | (Val counts, c2) => (Val (Some counts, []), c2)
                | (Exc e, c2) => (Val (None, [storage_error e]), rollback c2)
                end
            end
        end
    end.

(** ** delete_cmd.py: [delete_guild_data] on its own connection *)

Definition delete_guild_data (guild_id : Z) : DBM unit :=
  fun c =>
    match begin c with
    | (Exc e, c1) => (Exc e, c1)
    | (Val _, c1) =>
        match (execute (fits_int64 guild_id) (Sql.delete_regions guild_id) ;;
               execute (fits_int64 guild_id) (Sql.delete_table_defs guild_id) ;;
               execute (fits_int64 guild_id) (Sql.delete_guild_config guild_id) ;;
               commit) c1 with
        | (Val _, c2) => (Val tt, c2)
        | (Exc e, c2) => (Exc e, rollback c2)
        end
    end.

Close Scope dbm_scope.

(* ================================================================= *)
(** * download.py: the exporter *)

(** The exporter and the roller only read, each on a connection of its own:
    they are functions of the committed store. *)

Definition _fetch_table_def := Sql.select_table_def.
Definition _fetch_table_entries := Sql.select_table_entries.

Definition opt_cell (z : option Z) : Cell :=
  match z with
  | Some v => CInt v
  | None => CNone
  end.

Definition _add_sheet_for_table (wb : Workbook) (title kind roll_mode : string)
           (entries : list TableEntryRow) : Workbook :=
  let headers :=
    if String.eqb roll_mode "range" then [CStr "min"; CStr "max"; CStr kind]
    else if String.eqb roll_mode "weight" then [CStr "weight"; CStr kind]
    else [CStr kind] in
  let rows :=
    map (fun e =>
        if String.eqb roll_mode "range" then
          [opt_cell (te_min_roll e); opt_cell (te_max_roll e); CStr (te_result e)]
        else if String.eqb roll_mode "weight" then
          [opt_cell (te_weight e); CStr (te_result e)]
        else [CStr (te_result e)]) entries in
  Xl.create_sheet wb title (headers :: rows).

Definition _fetch_regions (db : DB) (guild_id : Z) : list (Z * string) :=
  map (fun r => (rg_region_id r, rg_region_name r)) (Sql.select_regions db guild_id).

(** The two optional sheets of one type. *)
Definition export_type (db : DB) (guild_id : Z) (region_id : option Z)
           (wb : Workbook) (t : string) : Workbook :=
  let wb :=
    match _fetch_table_def db guild_id "encounter" region_id (Some t) with
    | Some enc_def =>
        _add_sheet_for_table wb (_enc_tab region_id t) "result" (td_roll_mode enc_def)
          (_fetch_table_entries db (td_id enc_def))
    | None => wb
    end in
  match _fetch_table_def db guild_id "reward" region_id (Some t) with
  | Some rew_def =>
      _add_sheet_for_table wb (_rew_tab region_id t) "result" (td_roll_mode rew_def)
        (_fetch_table_entries db (td_id rew_def))
  | None => wb
  end.

(** The types sheet of one region and the sheets of its types. *)
Definition export_tables (db : DB) (guild_id : Z) (region_id : option Z)
           (enc_type_def : TableDef) (wb : Workbook) : Workbook :=
  let enc_type_entries := _fetch_table_entries db (td_id enc_type_def) in
  let wb := _add_sheet_for_table wb (_enc_type_tab region_id) "type"
              (td_roll_mode enc_type_def) enc_type_entries in
  let types :=
    map te_result
        (filter (fun e => negb (String.eqb (te_result e) "")) enc_type_entries) in
  fold_left (export_type db guild_id region_id) types wb.

Definition no_data : exn := RuntimeError "No imported data found. Run /import first.".

(** [build_workbook_bytes(db, guild_id)]: the workbook that is saved. *)
Definition build_workbook_bytes (db : DB) (guild_id : Z) : Res Workbook :=
  let wb : Workbook := [] in
  let regions := _fetch_regions db guild_id in
  let regional_mode := (0 <? List.length regions)%nat in
  if regional_mode then
    let wb :=
      Xl.create_sheet wb "Regions"
        ([CStr "region_id"; CStr "region_name"]
           :: map (fun r => [CInt (fst r); CStr (snd r)]) regions) in
    Val (fold_left (fun wb r =>
             let rid := fst r in
             match _fetch_table_def db guild_id "encounter_type" (Some rid) None with
             | None => wb
             | Some enc_type_def =>
                 export_tables db guild_id (Some rid) enc_type_def wb
             end) regions wb)
  else
    match _fetch_table_def db guild_id "encounter_type" None None with
    | None => Exc no_data
    | Some enc_type_def => Val (export_tables db guild_id None enc_type_def wb)
    end.

(* ================================================================= *)
(** * roller.py *)

(** [random.randint(a, b)]: [raw] is the generator's entropy, folded into
    [[a, b]]; every value of the interval comes from some [raw]. *)
Definition randint (raw a b : Z) : Res Z :=
  if b <? a then Exc (ValueError "empty range for randrange()")
  else Val (a + raw mod (b - a + 1)).

(** [random.choice(seq)] on a sequence with default [d] for the empty one,
    where Python raises [IndexError]; the caller has checked. *)
Definition choice {A} (raw : Z) (l : list A) (d : A) : A :=
  nth (Z.to_nat (raw mod Z.of_nat (List.length l))) l d.

(** The loop of [_pick_weighted]. *)
Fixpoint pick_loop (r acc : Z) (items : list (string * Z)) : option string :=
  match items with
  | [] => None
  | (val, w) :: t =>
      let acc := acc + w in
      if r <=? acc then Some val else pick_loop r acc t
  end.

Definition _pick_weighted (raw : Z) (items : list (string * Z)) : Res string :=
  let total := fold_left Z.add (map snd items) 0 in
  bindR (randint raw 1 total) (fun r =>
    match pick_loop r 0 items with
    | Some val => Val val
    | None => Val (fst (last items ("", 0)))
    end).

(** [f"{v}"] for a nullable value. *)
Definition fmt_opt_Z (v : option Z) : string :=
  match v with
  | Some z => Py.str_int z
  | None => "None"
  end.

Definition fmt_opt_str (v : option string) : string :=
  match v with
  | Some s => s
  | None => "None"
  end.

(** The [for r in rows] loop of range mode. *)
Fixpoint range_loop (roll : Z) (rows : list TableEntryRow) : option string :=
  match rows with
  | [] => None
  | r :: t =>
      match te_min_roll r, te_max_roll r with
      | Some mi, Some ma =>
          if (mi <=? roll) && (roll <=? ma) then Some (te_result r)
          else range_loop roll t
      | _, _ => range_loop roll t
      end
  end.

Definition weighted_items (rows : list TableEntryRow) : list (string * Z) :=
  flat_map (fun r =>
      match te_weight r with
      | Some w => [(te_result r, w)]
      | None => []
      end) rows.

Definition roll_from_table (db : DB) (raw : Z) (guild_id : Z) (group_key : string)
           (region_id : option Z) (type_key : option string) : Res (string * string) :=
  match Sql.select_table_def db guild_id group_key region_id type_key with
  | None =>
      Exc (RuntimeError ("Missing table: " ++ group_key ++ " region="
                           ++ fmt_opt_Z region_id ++ " type=" ++ fmt_opt_str type_key))
  | Some t =>
      let mode := td_roll_mode t in
      let max_roll := td_max_roll t in
      let rows := Sql.select_table_entries db (td_id t) in
      match rows with
      | [] => Exc (RuntimeError "Table has no entries")
      | first :: _ =>
          if String.eqb mode "uniform" then
            Val (te_result (choice raw rows first), "uniform")
          else if String.eqb mode "weight" then
            match weighted_items rows with
            | [] => Exc (RuntimeError "Weight mode table has no valid weights")
            | items =>
                bindR (_pick_weighted raw items) (fun result => Val (result, "weight"))
            end
          else if String.eqb mode "range" then
            match max_roll with
            | None => Exc (RuntimeError "Range mode table missing max_roll")
            | Some m =>
                if m =? 0 then Exc (RuntimeError "Range mode table missing max_roll")
                else
                  bindR (randint raw 1 m) (fun roll =>
                    match range_loop roll rows with
                    | Some result =>
                        Val (result,
                             ("range d" ++ Py.str_int m ++ "=" ++ Py.str_int roll)%string)
                    | None =>
                        Exc (RuntimeError ("No range matched roll " ++ Py.str_int roll))
                    end)
            end
          else Exc (RuntimeError ("Unknown roll_mode " ++ mode))
      end
  end.

(* ================================================================= *)
(** * Vocabulary of the statements *)

(** ** Properties of [_to_int] *)

(** [integral f n]: the float [f] is finite and its exact value is the
    integer [n]. *)
Definition integral (f : Py.float) (n : Z) : Prop :=
  exists q, Py.float_value f = Some q /\ (q == inject_Z n)%Q.

(** ** Loops that do not raise *)

(** The cell under a header that is known to be present. *)
Definition cell_of (hm : HeaderMap) (r : Row) (key : string) : Cell :=
  match hm_get hm key with
  | Val idx => Xl.row_get r idx
  | Exc _ => CNone
  end.

(** ** Weight mode in closed form *)

Definition weight_error (tab : string) (row_no : nat) (w : Z) : ImportError :=
  err tab (Some row_no)
      ("Invalid weight " ++ Py.str_int w ++ ". Must be a positive integer.").

(** What one data row adds to the errors of a weight-mode sheet. *)
Definition weight_row_errors (tab : string) (hm : HeaderMap) (ir : nat * Row)
  : list ImportError :=
  match _to_int (cell_of hm (snd ir) "weight") with
  | Some w => if w <=? 0 then [weight_error tab (fst ir) w] else []
  | None => []
  end.

Definition weight_errors (tab : string) (hm : HeaderMap) (data : DataRows)
  : list ImportError :=
  flat_map (weight_row_errors tab hm) data.

Definition weight_entry (w : Z) (result : string) : Entry :=
  {| e_min := None; e_max := None; e_weight := Some w; e_result := result |}.

(** What one data row adds to the entries of a weight-mode sheet whose
    payload column is [kind] ([result], or [type] on a types sheet). *)
Definition weight_row_entries (kind : string) (hm : HeaderMap) (ir : nat * Row)
  : list Entry :=
  let result := _cell_str (cell_of hm (snd ir) kind) in
  if String.eqb result "" then []
  else match _to_int (cell_of hm (snd ir) "weight") with
       | Some w => if w <=? 0 then [] else [weight_entry w result]
       | None => []
       end.

Definition weight_entries (kind : string) (hm : HeaderMap) (data : DataRows)
  : list Entry :=
  flat_map (weight_row_entries kind hm) data.

Definition cx_sheet : Worksheet :=
  {| title := "Encounter - T";
     cells := [ [CStr "weight"; CStr "result"];
                [CStr "abc"; CStr "wolf"];
                [CFloat (S754_finite false 7 (-1)); CStr "bear"];
                [CInt 2; CStr "dragon"] ] |}.

(** ** Range mode in closed form *)

Definition range_error (tab : string) (row_no : nat) (mi ma : Z) : ImportError :=
  err tab (Some row_no)
      ("Invalid range: min " ++ Py.str_int mi ++ " is greater than max "
         ++ Py.str_int ma ++ ".").

(** What one data row adds to the errors of [_detect_mode] in range mode. *)
Definition range_row_errors (tab : string) (hm : HeaderMap) (ir : nat * Row)
  : list ImportError :=
  match _to_int (cell_of hm (snd ir) "min"), _to_int (cell_of hm (snd ir) "max") with
  | Some mi, Some ma => if ma <? mi then [range_error tab (fst ir) mi ma] else []
  | _, _ => []
  end.

Definition range_errors (tab : string) (hm : HeaderMap) (data : DataRows)
  : list ImportError :=
  flat_map (range_row_errors tab hm) data.

(** What one data row adds to the [ranges] of [_validate_ranges]. *)
Definition range_row_triple (hm : HeaderMap) (ir : nat * Row) : list (Z * Z * nat) :=
  match _to_int (cell_of hm (snd ir) "min"), _to_int (cell_of hm (snd ir) "max") with
  | Some mi, Some ma => [(mi, ma, fst ir)]
  | _, _ => []
  end.

Definition sheet_ranges (hm : HeaderMap) (data : DataRows) : list (Z * Z * nat) :=
  flat_map (range_row_triple hm) data.

Definition range_entry (mi ma : Z) (result : string) : Entry :=
  {| e_min := Some mi; e_max := Some ma; e_weight := None; e_result := result |}.

(** What one data row adds to the entries of a range-mode sheet whose
    payload column is [kind]. *)
Definition range_row_entries (kind : string) (hm : HeaderMap) (ir : nat * Row)
  : list Entry :=
  let result := _cell_str (cell_of hm (snd ir) kind) in
  if String.eqb result "" then []
  else match _to_int (cell_of hm (snd ir) "min"),
             _to_int (cell_of hm (snd ir) "max") with
       | Some mi, Some ma => [range_entry mi ma result]
       | _, _ => []
       end.

Definition range_entries (kind : string) (hm : HeaderMap) (data : DataRows)
  : list Entry :=
  flat_map (range_row_entries kind hm) data.

(** The running maximum [mr] over the entries kept. *)
Definition max_step (mr : Z) (e : Entry) : Z :=
  match e_max e with
  | Some ma => Z.max mr ma
  | None => mr
  end.

Definition range_max (entries : list Entry) : Z := fold_left max_step entries 0.

Definition max_roll_of (mr : Z) : option Z := if 0 <? mr then Some mr else None.

Definition no_results (tab : string) (entries : list Entry) : list ImportError :=
  match entries with
  | [] => [err tab None "No results found."]
  | _ => []
  end.

Definition cx_range_sheet : Worksheet :=
  {| title := "Encounter - T";
     cells := [ [CStr "min"; CStr "max"; CStr "result"];
                [CStr "abc"; CInt 5; CStr "wolf"];
                [CInt (-5); CInt (-1); CStr "bear"] ] |}.

(** ** The roller *)

(** The sum of the weights of [items]. *)
Definition total_weight (items : list (string * Z)) : Z :=
  fold_left Z.add (map snd items) 0.

(** [first_reaching r items val]: [val] is the first item, in order, at
    which the running sum of the weights reaches [r]. *)
Definition first_reaching (r : Z) (items : list (string * Z)) (val : string) : Prop :=
  exists pre w post,
    items = pre ++ (val, w) :: post
    /\ r <= total_weight pre + w
    /\ forall pre1 x post1,
         pre = pre1 ++ x :: post1 -> total_weight pre1 + snd x < r.

(** [first_containing roll rows row]: [row] is the first row, in order,
    with both bounds set and [min_roll <= roll <= max_roll]. *)
Definition contains (roll : Z) (r : TableEntryRow) : Prop :=
  exists mi ma, te_min_roll r = Some mi /\ te_max_roll r = Some ma
                /\ mi <= roll <= ma.

Definition first_containing (roll : Z) (rows : list TableEntryRow)
           (r : TableEntryRow) : Prop :=
  exists pre post,
    rows = pre ++ r :: post /\ contains roll r
    /\ forall x, In x pre -> ~ contains roll x.

(** ** Transactions *)

(** [keeps m]: whatever [m] does, the committed store stays. *)
Definition keeps {A} (m : DBM A) : Prop :=
  forall c r c', m c = (r, c') -> committed c' = committed c.

(** The statements of the [try] block before the commit. *)
Definition replace_statements (wb : Workbook) (guild_id : Z) (updated_at : string)
           (regions : list (Z * string)) (regional_mode : bool) (st : Phase1)
  : DBM unit :=
  bindM (execute (fits_int64 guild_id) (Sql.upsert_guild_config guild_id updated_at))
    (fun _ =>
  bindM (execute (fits_int64 guild_id) (Sql.delete_table_defs guild_id)) (fun _ =>
  bindM (execute (fits_int64 guild_id) (Sql.delete_regions guild_id)) (fun _ =>
  bindM (if regional_mode then insert_regions guild_id regions else ret tt) (fun _ =>
  for_eachM (insert_region_blob wb guild_id updated_at) (p_parsed st))))).

Definition import_counts (regions : list (Z * string)) (regional_mode : bool)
           (st : Phase1) : ImportCounts :=
  {| encounter_types := p_enc_types st;
     encounter_entries := p_enc_entries st;
     reward_types := p_enc_types st;
     reward_entries := p_rew_entries st;
     regions := if regional_mode then List.length regions else 0%nat |}.

(** ** The outcomes of an import *)

(** The errors phase 1 ends with, when it does not raise. *)
Definition validation_errors (wb : Workbook) : Res (list ImportError) :=
  match phase1 wb with
  | Exc e => Exc e
  | Val (EarlyReturn errors) => Val errors
  | Val (Parsed _ _ st) => Val (p_errors st)
  end.

(** ** Where validation errors point *)

(** The name of a sheet the importer looks for starts with [E] or [R]. *)
Definition sheet_tab (s : string) : bool :=
  match s with
  | String c _ => Ascii.eqb c "E" || Ascii.eqb c "R"
  | EmptyString => false
  end.

Definition on_sheet (e : ImportError) : Prop := sheet_tab (tab e) = true.

(** ** Sample workbooks and stores *)

Definition sheet (t : string) (rows : list Row) : Worksheet :=
  {| title := t; cells := rows |}.

(** A default-mode workbook: a uniform types sheet, a weighted encounter
    sheet and a ranged reward sheet. *)
Definition sample_wb : Workbook :=
  [ sheet "Encounter Types" [ [CStr "type"]; [CStr "Combat"] ];
    sheet "Encounter - Combat"
      [ [CStr "weight"; CStr "result"];
        [CInt 3; CStr "goblins"]; [CInt 1; CStr "dragon"] ];
    sheet "Reward - Combat"
      [ [CStr "min"; CStr "max"; CStr "result"];
        [CInt 1; CInt 5; CStr "copper"]; [CInt 6; CInt 10; CStr "gold"] ] ].

(** A regional workbook with two regions. *)
Definition sample_regional_wb : Workbook :=
  [ sheet "Regions"
      [ [CStr "region_id"; CStr "region_name"];
        [CInt 1; CStr "North"]; [CInt 2; CStr "South"] ];
    sheet "Encounter Types - 1" [ [CStr "type"]; [CStr "Combat"] ];
    sheet "Encounter - 1 - Combat" [ [CStr "result"]; [CStr "wolves"] ];
    sheet "Reward - 1 - Combat" [ [CStr "result"]; [CStr "pelts"] ];
    sheet "Encounter Types - 2" [ [CStr "type"]; [CStr "Social"] ];
    sheet "Encounter - 2 - Social" [ [CStr "result"]; [CStr "merchant"] ];
    sheet "Reward - 2 - Social" [ [CStr "result"]; [CStr "rumour"] ] ].

Definition no_fault : nat -> option exn := fun _ => None.

(** The store after [sample_wb] was imported for tenant 7 into an empty
    store (see [sample_db_imported]). *)
Definition sample_db : DB :=
  {| db_region := [];
     db_table_def :=
       [ {| td_id := 1; td_guild := 7; td_group_key := "encounter_type";
            td_region_id := None; td_type_key := None;
            td_roll_mode := "uniform"; td_max_roll := None;
            td_updated_at := "t0" |};
         {| td_id := 2; td_guild := 7; td_group_key := "encounter";
            td_region_id := None; td_type_key := Some "Combat";
            td_roll_mode := "weight"; td_max_roll := None;
            td_updated_at := "t0" |};
         {| td_id := 3; td_guild := 7; td_group_key := "reward";
            td_region_id := None; td_type_key := Some "Combat";
            td_roll_mode := "range"; td_max_roll := Some 10;
            td_updated_at := "t0" |} ];
     db_table_entry :=
       [ {| te_table_id := 1; te_min_roll := None; te_max_roll := None;
            te_weight := None; te_result := "Combat"; te_sort_order := 0 |};
         {| te_table_id := 2; te_min_roll := None; te_max_roll := None;
            te_weight := Some 3; te_result := "goblins"; te_sort_order := 0 |};
         {| te_table_id := 2; te_min_roll := None; te_max_roll := None;
            te_weight := Some 1; te_result := "dragon"; te_sort_order := 1 |};
         {| te_table_id := 3; te_min_roll := Some 1; te_max_roll := Some 5;
            te_weight := None; te_result := "copper"; te_sort_order := 0 |};
         {| te_table_id := 3; te_min_roll := Some 6; te_max_roll := Some 10;
            te_weight := None; te_result := "gold"; te_sort_order := 1 |} ];
     db_guild_config := [(7, "t0")] |}.

(** An engine that fails its [n]-th statement. *)
Definition fault_at (n : nat) (e : exn) : nat -> option exn :=
  fun k => if Nat.eqb k n then Some e else None.

Definition locked : exn := DatabaseError "database is locked".

(** A types sheet with a [min] column and no [max] column. *)
Definition single_bound_wb : Workbook :=
  [ sheet "Encounter Types" [ [CStr "type"; CStr "min"]; [CStr "Combat"; CInt 1] ] ].

(** ** Failures of the replace transaction *)

(** The statements of phase 2 on the connection: [BEGIN], then the guarded
    block with the upsert, the deletes, the inserts and the commit. *)
Definition phase2 (wb : Workbook) (g : Z) (u : string) (regions : list (Z * string))
           (rm : bool) (st : Phase1) : DBM ImportCounts :=
  bindM begin (fun _ => replace_tenant wb g u regions rm st).

(** ** What a committed import leaves in the store *)

(** One table as the transaction inserts it: its key, its mode and
    [max_roll], and its entries. *)
Record TableSpec := {
  ts_group : string;
  ts_region : option Z;
  ts_type : option string;
  ts_mode : string;
  ts_max_roll : option Z;
  ts_entries : list Entry
}.

Definition spec_def (g : Z) (u : string) (id : Z) (s : TableSpec) : TableDef :=
  {| td_id := id; td_guild := g; td_group_key := ts_group s;
     td_region_id := ts_region s; td_type_key := ts_type s;
     td_roll_mode := ts_mode s; td_max_roll := ts_max_roll s;
     td_updated_at := u |}.

Definition entry_rows (id : Z) (entries : list Entry) : list TableEntryRow :=
  map (fun ie => entry_row id (fst ie) (snd ie)) (enumerate 0 entries).

(** The store after [insert_table] and [insert_entries] for one table. *)
Definition add_table (g : Z) (u : string) (db : DB) (s : TableSpec) : DB :=
  let id := Sql.next_rowid db in
  {| db_region := db_region db;
     db_table_def := db_table_def db ++ [spec_def g u id s];
     db_table_entry := db_table_entry db ++ entry_rows id (ts_entries s);
     db_guild_config := db_guild_config db |}.

Definition typed_spec (group_key : string) (rid : option Z) (t : string)
           (tbl : TableBlob) : TableSpec :=
  {| ts_group := group_key; ts_region := rid; ts_type := Some t;
     ts_mode := tb_mode tbl; ts_max_roll := tb_max_roll tbl;
     ts_entries := tb_entries tbl |}.

(** The tables of one region blob, in the order of their inserts. *)
Definition blob_specs (wb : Workbook) (blob : RegionBlob) : Res (list TableSpec) :=
  bindR (build_type_entries_from_sheet wb (rb_region_id blob)) (fun type_entries =>
  bindR (for_each (fun acc t =>
           bindR (dict_get (rb_enc_tables blob) t) (fun enc =>
           bindR (dict_get (rb_rew_tables blob) t) (fun rew =>
           Val (acc ++ [typed_spec "encounter" (rb_region_id blob) t enc;
                        typed_spec "reward" (rb_region_id blob) t rew]))))
         (et_types (rb_enc_type blob)) []) (fun typed =>
  Val ({| ts_group := "encounter_type"; ts_region := rb_region_id blob;
          ts_type := None; ts_mode := et_mode (rb_enc_type blob);
          ts_max_roll := et_max_roll (rb_enc_type blob);
          ts_entries := type_entries |} :: typed))).

Definition region_rows (g : Z) (regions : list (Z * string)) : list RegionRow :=
  map (fun ir => {| rg_guild := g; rg_region_id := fst (snd ir);
                    rg_region_name := snd (snd ir);
                    rg_sort_order := Z.of_nat (fst ir) |})
      (enumerate 0 regions).

(** The store before the tables go in: the tenant's rows deleted, its
    configuration row written, its regions inserted. *)
Definition cleared (g : Z) (u : string) (region_rows : list RegionRow) (db : DB) : DB :=
  let db1 := Sql.delete_regions g (Sql.delete_table_defs g (Sql.upsert_guild_config g u db)) in
  {| db_region := db_region db1 ++ region_rows;
     db_table_def := db_table_def db1;
     db_table_entry := db_table_entry db1;
     db_guild_config := db_guild_config db1 |}.

(** The tables of all the blobs. *)
Fixpoint all_specs (wb : Workbook) (blobs : list RegionBlob) : Res (list TableSpec) :=
  match blobs with
  | [] => Val []
  | b :: t =>
      bindR (blob_specs wb b) (fun s =>
      bindR (all_specs wb t) (fun r => Val (s ++ r)))
  end.

(** The store a successful import commits. *)
Definition replaced (g : Z) (u : string) (regions : list (Z * string)) (rm : bool)
           (specs : list TableSpec) (db : DB) : DB :=
  fold_left (add_table g u) specs
    (cleared g u (if rm then region_rows g regions else []) db).

(** ** Sheets in closed form, all three modes *)

(** What one data row adds to the entries of a uniform sheet. *)
Definition uniform_row_entries (kind : string) (hm : HeaderMap) (ir : nat * Row)
  : list Entry :=
  let result := _cell_str (cell_of hm (snd ir) kind) in
  if String.eqb result "" then [] else [uniform_entry result].

Definition uniform_entries (kind : string) (hm : HeaderMap) (data : DataRows)
  : list Entry :=
  flat_map (uniform_row_entries kind hm) data.

(** The entries of a sheet in the given mode. *)
Definition mode_entries (mode kind : string) (hm : HeaderMap) (data : DataRows)
  : list Entry :=
  if String.eqb mode ROLL_RANGE then range_entries kind hm data
  else if String.eqb mode ROLL_WEIGHT then weight_entries kind hm data
  else uniform_entries kind hm data.

(** The errors [_detect_mode] and [_validate_ranges] give in the mode. *)
Definition mode_errors (mode tab : string) (hm : HeaderMap) (data : DataRows)
  : list ImportError :=
  if String.eqb mode ROLL_RANGE then
    range_errors tab hm data
      ++ overlap_errors tab (stable_sort range_key_leb (sheet_ranges hm data))
  else if String.eqb mode ROLL_WEIGHT then weight_errors tab hm data
  else [].

Definition mode_max_roll (mode : string) (entries : list Entry) : option Z :=
  if String.eqb mode ROLL_RANGE then max_roll_of (range_max entries) else None.

(** The mode the header row selects, when the range columns come in pairs. *)
Definition header_mode (hm : HeaderMap) : option string :=
  if hm_mem "min" hm || hm_mem "max" hm then
    if hm_mem "min" hm && hm_mem "max" hm then Some ROLL_RANGE else None
  else if hm_mem "weight" hm then Some ROLL_WEIGHT
  else Some ROLL_UNIFORM.

Definition no_types (tab : string) (types : list string) : list ImportError :=
  match types with
  | [] => [err tab None "No types found."]
  | _ => []
  end.

(** ** The tables a valid workbook holds *)

(** The types of a region as its types sheet lists them. *)
Definition types_of (wb : Workbook) (rid : option Z) : list string :=
  match _parse_type_tab wb (_enc_type_tab rid) with
  | Val (_, types, _, _) => types
  | Exc _ => []
  end.

(** The types table of a region. *)
Definition type_spec (wb : Workbook) (rid : option Z) : TableSpec :=
  {| ts_group := "encounter_type"; ts_region := rid; ts_type := None;
     ts_mode := match _parse_type_tab wb (_enc_type_tab rid) with
                | Val (mode, _, _, _) => mode
                | Exc _ => ROLL_UNIFORM
                end;
     ts_max_roll := match _parse_type_tab wb (_enc_type_tab rid) with
                    | Val (_, _, mr, _) => mr
                    | Exc _ => None
                    end;
     ts_entries := match build_type_entries_from_sheet wb rid with
                   | Val es => es
                   | Exc _ => []
                   end |}.

(** The table a result sheet holds. *)
Definition result_blob (wb : Workbook) (tab : string) : TableBlob :=
  match _parse_result_tab wb tab with
  | Val (mode, entries, mr, _) =>
      {| tb_tab := tab; tb_mode := mode; tb_entries := entries; tb_max_roll := mr |}
  | Exc _ =>
      {| tb_tab := tab; tb_mode := ROLL_UNIFORM; tb_entries := []; tb_max_roll := None |}
  end.

Definition typed_specs (wb : Workbook) (rid : option Z) (t : string) : list TableSpec :=
  [ typed_spec "encounter" rid t (result_blob wb (_enc_tab rid t));
    typed_spec "reward" rid t (result_blob wb (_rew_tab rid t)) ].

(** The tables of a region, in the order of their inserts. *)
Definition region_specs (wb : Workbook) (rid : option Z) : list TableSpec :=
  type_spec wb rid :: flat_map (typed_specs wb rid) (types_of wb rid).

(** The regions the import loops over. *)
Definition region_ids (rm : bool) (regions : list (Z * string)) : list (option Z) :=
  if rm then map (fun r => Some (fst r)) regions else [None].

(** A sheet that parses without errors. *)
Definition clean_result (wb : Workbook) (tab : string) : Prop :=
  exists mode entries mr, _parse_result_tab wb tab = Val (mode, entries, mr, []).

(** A region all of whose sheets parse without errors. *)
Definition region_valid (wb : Workbook) (rid : option Z) : Prop :=
  (exists mode types mr,
      _parse_type_tab wb (_enc_type_tab rid) = Val (mode, types, mr, []))
  /\ forall t, In t (types_of wb rid) ->
               clean_result wb (_enc_tab rid t) /\ clean_result wb (_rew_tab rid t).

(** A blob the region loop appended. *)
Definition region_ok (wb : Workbook) (rid : option Z) (blob : RegionBlob) : Prop :=
  exists mode types mr,
    _parse_type_tab wb (_enc_type_tab rid) = Val (mode, types, mr, [])
    /\ missing_tabs wb rid types = []
    /\ (forall t, In t types ->
           clean_result wb (_enc_tab rid t)
           /\ dict_get (rb_enc_tables blob) t = Val (result_blob wb (_enc_tab rid t)))
    /\ (forall t, In t types ->
           clean_result wb (_rew_tab rid t)
           /\ dict_get (rb_rew_tables blob) t = Val (result_blob wb (_rew_tab rid t)))
    /\ rb_region_id blob = rid
    /\ rb_enc_type blob = {| et_tab := _enc_type_tab rid; et_mode := mode;
                             et_max_roll := mr; et_types := types |}.

(** The store a successful import commits, as a function of the workbook. *)
Definition imported (g : Z) (u : string) (wb : Workbook) (regions : list (Z * string))
           (db : DB) : DB :=
  let rm := Xl.has_sheet wb "Regions" in
  replaced g u regions rm (flat_map (region_specs wb) (region_ids rm regions)) db.

(** ** The inserted tables, with their ids *)

(** The tables with the row ids the inserts give them, from [base] on. *)
Fixpoint number (base : Z) (specs : list TableSpec) : list (Z * TableSpec) :=
  match specs with
  | [] => []
  | s :: t => (base, s) :: number (base + 1) t
  end.

Definition new_defs (g : Z) (u : string) (base : Z) (specs : list TableSpec)
  : list TableDef :=
  map (fun p => spec_def g u (fst p) (snd p)) (number base specs).

Definition new_entries (base : Z) (specs : list TableSpec) : list TableEntryRow :=
  flat_map (fun p => entry_rows (fst p) (ts_entries (snd p))) (number base specs).

Definition max_id (defs : list TableDef) : Z := fold_right Z.max 0 (map td_id defs).

(** ** Looking the inserted tables up *)

Definition spec_key (s : TableSpec) : string * option Z * option string :=
  (ts_group s, ts_region s, ts_type s).

Definition key_match (g : Z) (grp : string) (rid : option Z) (ty : option string)
           (d : TableDef) : bool :=
  (td_guild d =? g) && String.eqb (td_group_key d) grp
  && Sql.is_Z (td_region_id d) rid && Sql.is_str (td_type_key d) ty.

(** ** Stores the program can produce *)

(** The stores reached from the empty one by imports and deletions, each on
    a connection of its own, whatever the engine's faults. *)
Inductive reachable : DB -> Prop :=
| reach_empty : reachable empty_db
| reach_import db g wb u f r c' :
    reachable db ->
    import_workbook_bytes g wb u (connect db f) = (r, c') ->
    reachable (committed c')
| reach_delete db g f r c' :
    reachable db ->
    delete_guild_data g (connect db f) = (r, c') ->
    reachable (committed c').

(** The invariant of the two table relations. *)
Record tables_ok (db : DB) : Prop := {
  ok_fk : forall e, In e (db_table_entry db) ->
                    exists d, In d (db_table_def db) /\ td_id d = te_table_id e;
  ok_ids : NoDup (map td_id (db_table_def db));
  ok_nonempty : forall d, In d (db_table_def db) ->
                          exists e, In e (db_table_entry db) /\ te_table_id e = td_id d;
  ok_max_roll : forall d, In d (db_table_def db) ->
                          td_max_roll d = None
                          \/ exists m, td_max_roll d = Some m /\ 0 < m;
  ok_weights : forall d e, In d (db_table_def db) -> td_roll_mode d = "weight" ->
                           In e (db_table_entry db) -> te_table_id e = td_id d ->
                           exists w, te_weight e = Some w /\ 0 < w
}.

Definition regions_of (db : DB) (g : Z) : list RegionRow :=
  filter (fun r => rg_guild r =? g) (db_region db).

(** A tenant with regions has tables, and a tenant with tables and no
    region has the default types table. *)
Definition guild_ok (db : DB) (g : Z) : Prop :=
  (regions_of db g <> [] -> Sql.table_defs_of db g <> [])
  /\ (regions_of db g = [] -> Sql.table_defs_of db g <> [] ->
      Sql.select_table_def db g "encounter_type" None None <> None).

Definition store_ok (db : DB) : Prop := tables_ok db /\ forall g, guild_ok db g.

(** What the entries of a table to insert must satisfy. *)
Definition spec_ok (s : TableSpec) : Prop :=
  ts_entries s <> []
  /\ (ts_max_roll s = None \/ exists m, ts_max_roll s = Some m /\ 0 < m)
  /\ (ts_mode s = "weight" ->
      forall e, In e (ts_entries s) -> exists w, e_weight e = Some w /\ 0 < w).

(** ** The tenant's regions and tables after an import *)

Definition kept_defs (g : Z) (db : DB) : list TableDef :=
  filter (fun d => negb (td_guild d =? g)) (db_table_def db).

Definition kept_entries (g : Z) (db : DB) : list TableEntryRow :=
  filter (fun e => negb (existsb (fun d => td_id d =? te_table_id e)
                           (filter (fun d => td_guild d =? g) (db_table_def db))))
         (db_table_entry db).

Definition import_base (g : Z) (db : DB) : Z := 1 + max_id (kept_defs g db).

(** ** Deleting a tenant *)

Definition deleted (g : Z) (db : DB) : DB :=
  Sql.delete_guild_config g (Sql.delete_table_defs g (Sql.delete_regions g db)).

(** ** Import, then export *)

(** The export of tenant [g] right after the import of [wb] into an empty
    store. *)
Definition reexport (g : Z) (wb : Workbook) : Res Workbook :=
  build_workbook_bytes
    (committed (snd (import_workbook_bytes g wb "t0" (connect empty_db no_fault)))) g.

(** A types sheet that lists [Boss] twice, and then [Boss1]. *)
Definition repeated_type_wb : Workbook :=
  [ sheet "Encounter Types"
      [ [CStr "type"]; [CStr "Boss"]; [CStr "Boss"]; [CStr "Boss1"] ];
    sheet "Encounter - Boss" [ [CStr "result"]; [CStr "lich"] ];
    sheet "Reward - Boss" [ [CStr "result"]; [CStr "crown"] ];
    sheet "Encounter - Boss1" [ [CStr "result"]; [CStr "ogre"] ];
    sheet "Reward - Boss1" [ [CStr "result"]; [CStr "club"] ] ].

(** What the exporter makes of it. *)
Definition repeated_type_export : Workbook :=
  [ sheet "Encounter Types"
      [ [CStr "type"]; [CStr "Boss"]; [CStr "Boss"]; [CStr "Boss1"] ];
    sheet "Encounter - Boss" [ [CStr "result"]; [CStr "lich"] ];
    sheet "Reward - Boss" [ [CStr "result"]; [CStr "crown"] ];
    sheet "Encounter - Boss1" [ [CStr "result"]; [CStr "lich"] ];
    sheet "Reward - Boss1" [ [CStr "result"]; [CStr "crown"] ];
    sheet "Encounter - Boss11" [ [CStr "result"]; [CStr "ogre"] ];
    sheet "Reward - Boss11" [ [CStr "result"]; [CStr "club"] ] ].

(** ** The roller: uniform mode and the weighted pick *)

(** A workbook whose types sheet lists two types, and the store after its
    import for tenant 7 into an empty store. *)
Definition two_types_wb : Workbook :=
  [ sheet "Encounter Types" [ [CStr "type"]; [CStr "Combat"]; [CStr "Social"] ];
    sheet "Encounter - Combat" [ [CStr "result"]; [CStr "goblins"]; [CStr "wolves"] ];
    sheet "Reward - Combat" [ [CStr "result"]; [CStr "copper"] ];
    sheet "Encounter - Social" [ [CStr "result"]; [CStr "merchant"]; [CStr "bard"] ];
    sheet "Reward - Social" [ [CStr "result"]; [CStr "rumour"] ] ].

Definition two_types_db : DB :=
  committed (snd (import_workbook_bytes 7 two_types_wb "t3" (connect empty_db no_fault))).

(** ** What the sheet readers guarantee *)

(** The header map of [header], once its first [n] cells are scanned: the
    keys are distinct and not empty, each sits at the first column whose
    normalised header it is, and every named column before [n] has its
    key. *)
Record hm_ok (header : Row) (hm : HeaderMap) (n : nat) : Prop := {
  hm_nodup : NoDup (map fst hm);
  hm_first : forall k i, In (k, i) hm ->
      k <> "" /\ (i < n)%nat /\ _norm_header (nth i header CNone) = k
      /\ forall j, (j < i)%nat -> _norm_header (nth j header CNone) <> k;
  hm_all : forall j, (j < n)%nat -> _norm_header (nth j header CNone) <> "" ->
      exists i, In (_norm_header (nth j header CNone), i) hm
}.

(** The interval of a range entry. *)
Definition interval (e : Entry) : option (Z * Z) :=
  match e_min e, e_max e with
  | Some a, Some b => Some (a, b)
  | _, _ => None
  end.

(** Two entries with intervals that share no number. *)
Definition apart (a b : Entry) : Prop :=
  match interval a, interval b with
  | Some (a1, a2), Some (b1, b2) => a2 < b1 \/ b2 < a1
  | _, _ => False
  end.

(** ** The regions sheet *)

(** The state of the loop of [_parse_regions_tab]: the ids are distinct and
    are those of [seen], every id is positive and every name is set. *)
Definition regions_inv (st : list (Z * string) * list Z * list ImportError) : Prop :=
  let '(regions, seen, _) := st in
  NoDup (map fst regions)
  /\ (forall rid, In rid seen <-> In rid (map fst regions))
  /\ Forall (fun r => 0 < fst r /\ snd r <> "") regions.

(** ** Types and entries *)

(** What the entries of a sheet look like in each mode. *)
Definition entry_fits (mode : string) (e : Entry) : Prop :=
  e_result e <> ""
  /\ if String.eqb mode ROLL_RANGE then
       (exists mi ma, e_min e = Some mi /\ e_max e = Some ma) /\ e_weight e = None
     else if String.eqb mode ROLL_WEIGHT then
       e_min e = None /\ e_max e = None /\ exists w, e_weight e = Some w /\ 0 < w
     else e_min e = None /\ e_max e = None /\ e_weight e = None.

(** ** Range sheets *)

(** Two rows of [_validate_ranges] whose intervals share no number. *)
Definition ranges_apart (a b : Z * Z * nat) : Prop :=
  snd (fst a) < fst (fst b) \/ snd (fst b) < fst (fst a).

(** ** One tenant's rows *)

(** [db'] holds for tenant [g] what [db] holds: the same regions, the same
    table definitions and, for each of them, the same entries in the same
    order. *)
Definition same_tenant (db db' : DB) (g : Z) : Prop :=
  regions_of db' g = regions_of db g
  /\ Sql.table_defs_of db' g = Sql.table_defs_of db g
  /\ forall d, In d (Sql.table_defs_of db g) ->
               Sql.select_table_entries db' (td_id d) = Sql.select_table_entries db (td_id d).

(** The tenant has no region and no table. *)
Definition tenant_empty (db : DB) (g : Z) : Prop :=
  regions_of db g = [] /\ Sql.table_defs_of db g = [].

(** ** Where a tenant's rows come from *)

(** A workbook the importer accepts, with the regions it reads from it. *)
Definition accepted (wb : Workbook) (regions : list (Z * string)) : Prop :=
  _parse_regions_tab wb = Val (regions, [])
  /\ (Xl.has_sheet wb "Regions" = true -> regions <> [])
  /\ Forall (region_valid wb) (region_ids (Xl.has_sheet wb "Regions") regions).

(** The tables of an accepted workbook, in the order of their inserts. *)
Definition wb_specs (wb : Workbook) (regions : list (Z * string)) : list TableSpec :=
  flat_map (region_specs wb) (region_ids (Xl.has_sheet wb "Regions") regions).

(** The tenant's rows in [db] are those the import of [wb] wrote: its
    regions in sheet order, one table definition per table of the workbook,
    and for each of them the entries of the sheet in sheet order. *)
Definition tenant_holds (db : DB) (g : Z) (wb : Workbook) (regions : list (Z * string))
  : Prop :=
  exists u base,
    regions_of db g
    = (if Xl.has_sheet wb "Regions" then region_rows g regions else [])
    /\ Sql.table_defs_of db g = new_defs g u base (wb_specs wb regions)
    /\ forall id s, In (id, s) (number base (wb_specs wb regions)) ->
         Sql.select_table_entries db id = entry_rows id (ts_entries s).

(** ** What an import leaves to look up *)

(** The table under the key [(grp, rid, ty)] of tenant [g] has the given
    mode and [max_roll], and its rows are [entries] in this order, numbered
    from 0. *)
Definition stored (db : DB) (g : Z) (grp : string) (rid : option Z) (ty : option string)
           (mode : string) (mr : option Z) (entries : list Entry) : Prop :=
  exists d, Sql.select_table_def db g grp rid ty = Some d
            /\ td_roll_mode d = mode /\ td_max_roll d = mr
            /\ Sql.select_table_entries db (td_id d) = entry_rows (td_id d) entries.

(** ** Rolls on any store and on the stores the program produces *)

(** The ways a roll that found its table's rows can still fail on a store
    the program produced. *)
Definition range_failure (e : exn) : Prop :=
  e = RuntimeError "Range mode table missing max_roll"
  \/ exists roll, e = RuntimeError ("No range matched roll " ++ Py.str_int roll).

(** What every table of an accepted workbook satisfies. *)
Record spec_sound (s : TableSpec) : Prop := {
  ss_mode : ts_mode s = ROLL_RANGE \/ ts_mode s = ROLL_WEIGHT \/ ts_mode s = ROLL_UNIFORM;
  ss_entries : ts_entries s <> [];
  ss_fits : Forall (entry_fits (ts_mode s)) (ts_entries s);
  ss_apart : ts_mode s = ROLL_RANGE ->
             Forall (fun e => exists mi ma, interval e = Some (mi, ma) /\ mi <= ma)
                    (ts_entries s)
             /\ ForallOrdPairs apart (ts_entries s)
}.

(** ** What a reader sees of a tenant *)

(** What a reader uses of a row: every column but the id of its table. *)
Definition row_view (r : TableEntryRow) : option Z * option Z * option Z * string * Z :=
  (te_min_roll r, te_max_roll r, te_weight r, te_result r, te_sort_order r).

(** What the lookup under a key gives a reader, row ids left out: the
    mode, [max_roll] and the rows in the order of the query. *)
Definition table_view (db : DB) (g : Z) (grp : string) (rid : option Z)
           (ty : option string)
  : option (string * option Z * list (option Z * option Z * option Z * string * Z)) :=
  match Sql.select_table_def db g grp rid ty with
  | None => None
  | Some d =>
      Some (td_roll_mode d, td_max_roll d,
            map row_view (Sql.select_table_entries db (td_id d)))
  end.

(** Two stores read the same for a tenant. *)
Definition same_reads (db db' : DB) (g : Z) : Prop :=
  _fetch_regions db' g = _fetch_regions db g
  /\ forall grp rid ty, table_view db' g grp rid ty = table_view db g grp rid ty.

(** ** bot.py: the helpers and the decisions of the commands *)

(** [get_regions(db, guild_id)]: the query of [_fetch_regions]. *)
Definition get_regions (db : DB) (guild_id : Z) : list (Z * string) :=
  map (fun r => (rg_region_id r, rg_region_name r)) (Sql.select_regions db guild_id).

(** [get_region_name(db, guild_id, region_id)]: [fetchone] of the rows with
    that tenant and id, in table order. *)
Definition get_region_name (db : DB) (guild_id region_id : Z) : option string :=
  match find (fun r => (rg_guild r =? guild_id) && (rg_region_id r =? region_id))
             (db_region db) with
  | Some r => Some (rg_region_name r)
  | None => None
  end.

(** A [discord.Embed]: title, fields [(name, value, inline)] and footer. *)
Record Embed := {
  em_title : string;
  em_fields : list (string * string * bool);
  em_footer : string
}.

(** [roll_encounter_embed(db, guild_id, region)]; the three rolls draw
    [raw1], [raw2] and [raw3]. *)
Definition roll_encounter_embed (db : DB) (raw1 raw2 raw3 : Z) (guild_id : Z)
           (region : option Z) : Res Embed :=
  bindR (roll_from_table db raw1 guild_id "encounter_type" region None)
    (fun '(enc_type, enc_type_meta) =>
  bindR (roll_from_table db raw2 guild_id "encounter" region (Some enc_type))
    (fun '(encounter, enc_meta) =>
  bindR (roll_from_table db raw3 guild_id "reward" region (Some enc_type))
    (fun '(reward, rew_meta) =>
  let region_label :=
    match region with
    | Some rid => get_region_name db guild_id rid
    | None => None
    end in
  let title :=
    match region_label with
    | None => "Random Encounter"
    | Some l => ("Random Encounter: " ++ l)%string
    end in
  Val {| em_title := title;
         em_fields := [ ("Type", enc_type, true);
                        ("Encounter", encounter, false);
                        ("Reward", reward, false) ];
         em_footer := ("Type: " ++ enc_type_meta ++ " | Encounter: " ++ enc_meta
                       ++ " | Reward: " ++ rew_meta)%string |}))).

(** ** region_ui.py: the items of [RegionSelectView] *)

Inductive ViewItem : Type :=
| RegionButton (label : string) (region_id : Z)
| RegionDropdown (options : list (string * string)).

(** [RegionSelectView(regions, on_pick)]: a button per region up to five
    regions, one dropdown beyond. *)
Definition RegionSelectView (regions : list (Z * string)) : list ViewItem :=
  if (List.length regions <=? 5)%nat then
    map (fun r => RegionButton (snd r) (fst r)) regions
  else
    [RegionDropdown (map (fun r => (snd r, Py.str_int (fst r))) regions)].

(** ** The replies of [/encounter] *)

Inductive EncounterReply : Type :=
| EncounterNoGuild
| EncounterEmbed (e : Embed)
| EncounterPick (view : list ViewItem).

(** [encounter_cmd]: [guild_id] is [interaction.guild_id], absent outside a
    server; [db] is the store its connections read. *)
Definition encounter_cmd (db : DB) (raw1 raw2 raw3 : Z) (guild_id : option Z)
  : Res EncounterReply :=
  match guild_id with
  | None => Val EncounterNoGuild
  | Some g =>
      if g =? 0 then Val EncounterNoGuild
      else
        let regions := get_regions db g in
        match regions with
        | [r] =>
            bindR (roll_encounter_embed db raw1 raw2 raw3 g (Some (fst r)))
                  (fun embed => Val (EncounterEmbed embed))
        | _ => Val (EncounterPick (RegionSelectView regions))
        end
  end.

(** ** What a pick passes on *)





(** ** Sample stores with regions *)

(** [sample_regional_wb] imported for tenant 7 over [sample_db]. *)
Definition regional_db : DB :=
  committed (snd (import_workbook_bytes 7 sample_regional_wb "t1"
                    (connect sample_db no_fault))).

(** A workbook with one region. *)
Definition single_region_wb : Workbook :=
  [ sheet "Regions" [ [CStr "region_id"; CStr "region_name"]; [CInt 4; CStr "Coast"] ];
    sheet "Encounter Types - 4" [ [CStr "type"]; [CStr "Combat"] ];
    sheet "Encounter - 4 - Combat" [ [CStr "result"]; [CStr "pirates"] ];
    sheet "Reward - 4 - Combat" [ [CStr "result"]; [CStr "pearls"] ] ].

Definition single_region_db : DB :=
  committed (snd (import_workbook_bytes 9 single_region_wb "t2"
                    (connect sample_db no_fault))).

(* ================================================================= *)
(** * Theorems *)

(** ** Properties of [_to_int] *)

Lemma is_integer_integral f :
  Py.is_integer f = true <-> exists n, integral f n.
Proof.
  destruct f as [s|s| |s m e]; simpl.
  - split; [intros _; exists 0, 0%Q; split; [reflexivity|reflexivity] | reflexivity].
  - split; [discriminate | intros (n & q & H & _); discriminate].
  - split; [discriminate | intros (n & q & H & _); discriminate].
  - unfold integral; simpl. destruct (0 <=? e) eqn:He.
    + split; [intros _ | reflexivity].
      eexists; eexists; split; [reflexivity | reflexivity].
    + apply Z.leb_gt in He.
      assert (Hp : 0 < 2 ^ (- e)) by (apply Z.pow_pos_nonneg; lia).
      rewrite Z.eqb_eq. split.
      * intros Hm. apply Z.mod_divide in Hm; [|lia]. destruct Hm as [k Hk].
        exists (cond_Zopp s k). eexists; split; [reflexivity|].
        unfold Qeq; simpl. rewrite Z2Pos.id by assumption.
        destruct s; simpl; lia.
      * intros (n & q & Hq & Heq). injection Hq as <-.
        unfold Qeq in Heq; simpl in Heq. rewrite Z2Pos.id in Heq by assumption.
        apply Z.mod_divide; [lia|].
        exists (cond_Zopp s n). destruct s; simpl in *; lia.
Qed.

Lemma int_of_float_integral f n : integral f n -> Py.int_of_float f = n.
Proof.
  intros (q & Hq & Heq). destruct f as [s|s| |s m e]; simpl in *; try discriminate.
  - injection Hq as <-. unfold Qeq in Heq; simpl in Heq. lia.
  - injection Hq as <-. destruct (0 <=? e) eqn:He.
    + unfold Qeq in Heq; simpl in Heq. lia.
    + apply Z.leb_gt in He.
      assert (Hp : 0 < 2 ^ (- e)) by (apply Z.pow_pos_nonneg; lia).
      unfold Qeq in Heq; simpl in Heq. rewrite Z2Pos.id in Heq by assumption.
      destruct s; simpl in *.
      * assert (Z.pos m = (- n) * 2 ^ (- e)) by lia.
        rewrite H, Z.div_mul by lia. lia.
      * assert (Z.pos m = n * 2 ^ (- e)) by lia.
        rewrite H, Z.div_mul by lia. lia.
Qed.

Lemma float_to_int f n :
  (if Py.is_integer f then Some (Py.int_of_float f) else None) = Some n
  <-> integral f n.
Proof.
  split.
  - destruct (Py.is_integer f) eqn:E; [|discriminate].
    intros [= <-]. apply is_integer_integral in E as [k Hk].
    rewrite (int_of_float_integral Hk). exact Hk.
  - intros H. assert (E : Py.is_integer f = true) by (apply is_integer_integral; eauto).
    rewrite E, (int_of_float_integral H). reflexivity.
Qed.

(** C10. [_to_int] is a total function into [option Z] (it has no way to
    raise), and it returns the integer [n] exactly when the cell is the
    integer [n], a float whose exact value is [n], or text whose stripped
    form is not empty and reads as a float whose exact value is [n]; on
    every other cell, a fractional number or text that is no number among
    them, it returns [None]. *)
Theorem to_int_characterised (v : Cell) :
  (forall n : Z,
      _to_int v = Some n <->
        v = CInt n
        \/ (exists f, v = CFloat f /\ integral f n)
        \/ (exists s f, v = CStr s /\ Py.strip s <> ""
                        /\ Py.parse_float (Py.strip s) = Some f /\ integral f n))
  /\ _to_int (CFloat (S754_finite false 7 (-1))) = None
  /\ _to_int (CStr "abc") = None.
Proof.
  split; [|split; vm_compute; reflexivity].
  intros n. destruct v as [|z|f|s]; simpl.
  - split; [discriminate|].
    intros [H|[(f & H & _)|(s & f & H & _)]]; discriminate.
  - split; [intros [= ->]; now left|].
    intros [H|[(f & H & _)|(s & f & H & _)]]; try discriminate. now injection H as ->.
  - rewrite float_to_int. split; [intros H; right; left; eauto|].
    intros [H|[(g & H & Hg)|(s & g & H & _)]]; try discriminate. now injection H as ->.
  - destruct (String.eqb_spec (Py.strip s) "") as [E|E].
    + split; [discriminate|].
      intros [H|[(f & H & _)|(s' & f & H & Hne & _)]]; try discriminate.
      injection H as ->. contradiction.
    + destruct (Py.parse_float (Py.strip s)) as [f|] eqn:P.
      * rewrite float_to_int. split.
        -- intros H. right; right. exists s, f. auto.
        -- intros [H|[(g & H & _)|(s' & g & H & _ & Hp & Hg)]]; try discriminate.
           injection H as <-. rewrite P in Hp. now injection Hp as ->.
      * split; [discriminate|].
        intros [H|[(g & H & _)|(s' & g & H & _ & Hp & _)]]; try discriminate.
        injection H as <-. rewrite P in Hp. discriminate.
Qed.

Example to_int_text_integer : _to_int (CStr " 7.0 ") = Some 7.
Proof. vm_compute. reflexivity. Qed.

Example to_int_text_fraction : _to_int (CStr "3.5") = None.
Proof. vm_compute. reflexivity. Qed.

(** ** Loops that do not raise *)

Lemma for_each_pure {A S} (body : S -> A -> Res S) (g : S -> A -> S) l :
  (forall s a, In a l -> body s a = Val (g s a)) ->
  forall s, for_each body l s = Val (fold_left g l s).
Proof.
  induction l as [|a t IH]; intros H s; simpl; [reflexivity|].
  rewrite H by (now left). simpl. apply IH. intros; apply H; now right.
Qed.

Lemma fold_left_flat_map {A B} (f : A -> list B) l init :
  fold_left (fun acc a => acc ++ f a) l init = init ++ flat_map f l.
Proof.
  revert init; induction l as [|a t IH]; intros init; simpl.
  - now rewrite app_nil_r.
  - rewrite IH, app_assoc. reflexivity.
Qed.

Lemma hm_get_mem hm key : hm_mem key hm = true -> exists idx, hm_get hm key = Val idx.
Proof.
  unfold hm_mem, hm_get. intros H. apply existsb_exists in H as (kv & Hin & Hk).
  destruct (find _ hm) as [kv'|] eqn:F; [eauto|].
  eapply find_none in F; [|exact Hin]. simpl in F. congruence.
Qed.

Lemma hm_get_not_mem hm key : hm_mem key hm = false -> hm_get hm key = Exc (KeyError key).
Proof.
  unfold hm_mem, hm_get. intros H. destruct (find _ hm) as [kv|] eqn:F; [|reflexivity].
  apply find_some in F as [Hin Hk].
  assert (existsb (fun kv => (fst kv =? key)%string) hm = true)
    by (apply existsb_exists; eauto). congruence.
Qed.

Lemma cell_at_mem hm r key :
  hm_mem key hm = true -> cell_at hm r key = Val (cell_of hm r key).
Proof.
  intros H. apply hm_get_mem in H as [idx H]. unfold cell_at, cell_of. now rewrite H.
Qed.

Lemma has_sheet_get wb tab :
  Xl.has_sheet wb tab = true <-> exists ws, Xl.get_sheet wb tab = Val ws.
Proof.
  unfold Xl.has_sheet, Xl.get_sheet, Xl.sheetnames. split.
  - intros H. apply existsb_exists in H as (n & Hin & Hn).
    apply in_map_iff in Hin as (ws & <- & Hin). apply String.eqb_eq in Hn.
    destruct (find _ wb) as [ws'|] eqn:F; [eauto|].
    eapply find_none in F; [|exact Hin]. simpl in F. rewrite Hn, String.eqb_refl in F.
    discriminate.
  - intros [ws H]. destruct (find _ wb) as [ws'|] eqn:F; [|discriminate].
    apply find_some in F as [Hin Ht]. apply existsb_exists.
    exists (title ws'). split; [now apply in_map|]. apply String.eqb_eq in Ht.
    now rewrite Ht, String.eqb_refl.
Qed.

Lemma get_sheet_title wb tab ws : Xl.get_sheet wb tab = Val ws -> title ws = tab /\ In ws wb.
Proof.
  unfold Xl.get_sheet. destruct (find _ wb) as [ws'|] eqn:F; [|discriminate].
  intros [= <-]. apply find_some in F as [Hin Ht]. now apply String.eqb_eq in Ht.
Qed.

(** ** Weight mode in closed form *)

Lemma detect_mode_weight tab hm data :
  hm_mem "min" hm = false -> hm_mem "max" hm = false -> hm_mem "weight" hm = true ->
  _detect_mode tab hm data = Val (ROLL_WEIGHT, weight_errors tab hm data).
Proof.
  intros Hmin Hmax Hw. unfold _detect_mode. rewrite Hmin, Hmax, Hw. simpl.
  erewrite for_each_pure with
    (g := fun errors ir => errors ++ weight_row_errors tab hm ir).
  - simpl. rewrite fold_left_flat_map. reflexivity.
  - intros s [row_no r] _. rewrite cell_at_mem by assumption.
    unfold weight_row_errors. simpl.
    destruct (_to_int _) as [w|]; [|now rewrite app_nil_r].
    destruct (w <=? 0); [reflexivity|now rewrite app_nil_r].
Qed.

Lemma result_rows_weight_pure hm data :
  hm_mem "result" hm = true -> hm_mem "weight" hm = true ->
  result_rows_weight hm data = Val (weight_entries "result" hm data).
Proof.
  intros Hr Hw. unfold result_rows_weight.
  erewrite for_each_pure with
    (g := fun entries ir => entries ++ weight_row_entries "result" hm ir).
  - rewrite fold_left_flat_map. reflexivity.
  - intros s [row_no r] _. rewrite cell_at_mem by assumption.
    unfold weight_row_entries. simpl.
    destruct (String.eqb _ ""); [now rewrite app_nil_r|].
    rewrite cell_at_mem by assumption. simpl.
    destruct (_to_int _) as [w|]; [|now rewrite app_nil_r].
    destruct (w <=? 0); [now rewrite app_nil_r|reflexivity].
Qed.

Lemma parse_result_tab_weight wb tab ws hm data :
  Xl.get_sheet wb tab = Val ws ->
  _read_sheet_rows ws = (hm, data) ->
  hm_mem "result" hm = true ->
  hm_mem "min" hm = false -> hm_mem "max" hm = false -> hm_mem "weight" hm = true ->
  _parse_result_tab wb tab =
    Val (ROLL_WEIGHT, weight_entries "result" hm data, None,
         weight_errors tab hm data
           ++ match weight_entries "result" hm data with
              | [] => [err tab None "No results found."]
              | _ => []
              end).
Proof.
  intros Hg Hr Hres Hmin Hmax Hw. unfold _parse_result_tab.
  assert (Hs : Xl.has_sheet wb tab = true) by (apply has_sheet_get; eauto).
  rewrite Hs, Hg. simpl. rewrite Hr, Hres. simpl.
  rewrite detect_mode_weight by assumption. simpl.
  rewrite result_rows_weight_pure by assumption. simpl.
  destruct (weight_entries "result" hm data); [reflexivity|now rewrite app_nil_r].
Qed.

Lemma in_weight_errors tab hm data e :
  In e (weight_errors tab hm data) <->
  exists row_no r w, In (row_no, r) data
                     /\ _to_int (cell_of hm r "weight") = Some w /\ w <= 0
                     /\ e = weight_error tab row_no w.
Proof.
  unfold weight_errors. rewrite in_flat_map. split.
  - intros ([row_no r] & Hin & He). unfold weight_row_errors in He. simpl in He.
    destruct (_to_int _) as [w|] eqn:Hw; [|contradiction].
    destruct (w <=? 0) eqn:Hle; [|contradiction].
    destruct He as [<-|[]]. exists row_no, r, w. apply Z.leb_le in Hle. auto.
  - intros (row_no & r & w & Hin & Hw & Hle & ->). exists (row_no, r). split; [assumption|].
    unfold weight_row_errors. simpl. rewrite Hw.
    apply Z.leb_le in Hle. rewrite Hle. now left.
Qed.

Lemma in_weight_entries kind hm data e :
  In e (weight_entries kind hm data) <->
  exists row_no r w, In (row_no, r) data
                     /\ _cell_str (cell_of hm r kind) <> ""
                     /\ _to_int (cell_of hm r "weight") = Some w /\ 0 < w
                     /\ e = weight_entry w (_cell_str (cell_of hm r kind)).
Proof.
  unfold weight_entries. rewrite in_flat_map. split.
  - intros ([row_no r] & Hin & He). unfold weight_row_entries in He. simpl in He.
    destruct (String.eqb_spec (_cell_str (cell_of hm r kind)) "") as [E|E];
      [contradiction|].
    destruct (_to_int _) as [w|] eqn:Hw; [|contradiction].
    destruct (w <=? 0) eqn:Hle; [contradiction|].
    destruct He as [<-|[]]. exists row_no, r, w. apply Z.leb_gt in Hle. auto.
  - intros (row_no & r & w & Hin & Hres & Hw & Hlt & ->). exists (row_no, r).
    split; [assumption|]. unfold weight_row_entries. simpl.
    destruct (String.eqb_spec (_cell_str (cell_of hm r kind)) "") as [E|E];
      [contradiction|].
    rewrite Hw. assert (Hle : (w <=? 0) = false) by (apply Z.leb_gt; lia).
    rewrite Hle. now left.
Qed.

(** C6, amended: what a sheet with a [weight] and a [result] column, and
    neither [min] nor [max], yields.  The rows reported are those whose
    weight cell coerces to an integer that is not positive, each under its
    row number and with that integer in the message; a row whose weight
    does not coerce to an integer (a fraction, text, an empty cell) is not
    reported.  The entries are the rows with a result and a positive integer
    weight, in sheet order: every other row is left out, and the sheet is
    read to its end. *)
Theorem weight_sheet_rows wb tab ws hm data :
  Xl.get_sheet wb tab = Val ws ->
  _read_sheet_rows ws = (hm, data) ->
  hm_mem "result" hm = true ->
  hm_mem "min" hm = false -> hm_mem "max" hm = false -> hm_mem "weight" hm = true ->
  exists entries errors,
    _parse_result_tab wb tab = Val (ROLL_WEIGHT, entries, None, errors)
    /\ (forall row_no,
           (exists e, In e errors /\ row e = Some row_no) <->
           (exists r w, In (row_no, r) data
                        /\ _to_int (cell_of hm r "weight") = Some w /\ w <= 0))
    /\ (forall row_no r w,
           In (row_no, r) data ->
           _to_int (cell_of hm r "weight") = Some w -> w <= 0 ->
           In (weight_error tab row_no w) errors)
    /\ entries = weight_entries "result" hm data
    /\ (forall e,
           In e entries <->
           exists row_no r w,
             In (row_no, r) data
             /\ _cell_str (cell_of hm r "result") <> ""
             /\ _to_int (cell_of hm r "weight") = Some w /\ 0 < w
             /\ e = weight_entry w (_cell_str (cell_of hm r "result"))).
Proof.
  intros Hg Hr Hres Hmin Hmax Hw.
  eexists; eexists. split; [eapply parse_result_tab_weight; eassumption|].
  split; [|split; [|split; [reflexivity|apply in_weight_entries]]].
  - intros row_no. split.
    + intros (e & Hin & Hrow). apply in_app_or in Hin as [Hin|Hin].
      * apply in_weight_errors in Hin as (n & r & w & Hd & Hw' & Hle & ->).
        simpl in Hrow. injection Hrow as ->. eauto.
      * destruct (weight_entries "result" hm data); [|contradiction].
        destruct Hin as [<-|[]]. discriminate.
    + intros (r & w & Hd & Hw' & Hle). exists (weight_error tab row_no w).
      split; [|reflexivity]. apply in_or_app. left. apply in_weight_errors.
      exists row_no, r, w. auto.
  - intros row_no r w Hd Hw' Hle. apply in_or_app. left. apply in_weight_errors.
    exists row_no, r, w. auto.
Qed.

(** C6 as stated fails: rows 2 and 3 have the weights [abc] and [3.5],
    neither coerces to an integer, and the sheet is read without an error. *)
Lemma weight_text_row_not_flagged :
  _read_sheet_rows cx_sheet
  = ([("weight", 0%nat); ("result", 1%nat)],
     [ (2%nat, [CStr "abc"; CStr "wolf"]);
       (3%nat, [CFloat (S754_finite false 7 (-1)); CStr "bear"]);
       (4%nat, [CInt 2; CStr "dragon"]) ])
  /\ _to_int (CStr "abc") = None
  /\ _to_int (CFloat (S754_finite false 7 (-1))) = None
  /\ _parse_result_tab [cx_sheet] "Encounter - T"
     = Val (ROLL_WEIGHT, [weight_entry 2 "dragon"], None, []).
Proof. vm_compute. repeat split. Qed.

Lemma weight_sheet_rows_witness :
  exists entries errors,
    _parse_result_tab [cx_sheet] "Encounter - T"
    = Val (ROLL_WEIGHT, entries, None, errors)
    /\ entries = [weight_entry 2 "dragon"].
Proof.
  destruct (@weight_sheet_rows [cx_sheet] "Encounter - T" cx_sheet
              [("weight", 0%nat); ("result", 1%nat)]
              [ (2%nat, [CStr "abc"; CStr "wolf"]);
                (3%nat, [CFloat (S754_finite false 7 (-1)); CStr "bear"]);
                (4%nat, [CInt 2; CStr "dragon"]) ])
    as (entries & errors & H & _ & _ & He & _);
    try (vm_compute; reflexivity).
  exists entries, errors. split; [exact H|]. rewrite He. vm_compute. reflexivity.
Defined.

(** ** The stable sort *)

Section StableSortFacts.
Variable A : Type.
Variable leb : A -> A -> bool.

Lemma insert_sorted_perm x l : Permutation (insert_sorted leb x l) (x :: l).
Proof.
  induction l as [|y t IH]; simpl; [reflexivity|].
  destruct (leb x y); [reflexivity|].
  rewrite IH. apply perm_swap.
Qed.

Lemma stable_sort_perm l : Permutation (stable_sort leb l) l.
Proof.
  induction l as [|x t IH]; simpl; [reflexivity|].
  rewrite insert_sorted_perm. now constructor.
Qed.

Hypothesis leb_total : forall a b, leb a b = true \/ leb b a = true.
Hypothesis leb_trans : forall a b c, leb a b = true -> leb b c = true -> leb a c = true.

Lemma insert_sorted_sorted x l :
  StronglySorted (fun a b => leb a b = true) l ->
  StronglySorted (fun a b => leb a b = true) (insert_sorted leb x l).
Proof.
  induction 1 as [|y t Hs IH Hy]; simpl; [repeat constructor|].
  destruct (leb x y) eqn:E.
  - constructor; [now constructor|]. constructor; [assumption|].
    eapply Forall_impl; [|exact Hy]. intros z Hz. eapply leb_trans; eassumption.
  - constructor; [assumption|].
    assert (Hyx : leb y x = true) by (destruct (leb_total x y); congruence).
    eapply Permutation_Forall; [symmetry; apply insert_sorted_perm|].
    now constructor.
Qed.

Lemma stable_sort_sorted l :
  StronglySorted (fun a b => leb a b = true) (stable_sort leb l).
Proof.
  induction l as [|x t IH]; simpl; [constructor|]. now apply insert_sorted_sorted.
Qed.

(** A list already in order comes back unchanged. *)
Lemma stable_sort_id l :
  StronglySorted (fun a b => leb a b = true) l -> stable_sort leb l = l.
Proof.
  induction 1 as [|x t Hs IH Hx]; simpl; [reflexivity|].
  rewrite IH. destruct t as [|y t']; [reflexivity|]. simpl.
  inversion Hx as [|? ? Hxy _]; subst. now rewrite Hxy.
Qed.
End StableSortFacts.

Lemma range_key_total a b : range_key_leb a b = true \/ range_key_leb b a = true.
Proof.
  destruct a as [[amin amax] ar], b as [[bmin bmax] br]. unfold range_key_leb.
  destruct (Z.ltb_spec amin bmin), (Z.ltb_spec bmin amin),
    (Z.eqb_spec amin bmin), (Z.eqb_spec bmin amin),
    (Z.leb_spec amax bmax), (Z.leb_spec bmax amax); simpl; auto; lia.
Qed.

Lemma range_key_trans a b c :
  range_key_leb a b = true -> range_key_leb b c = true -> range_key_leb a c = true.
Proof.
  destruct a as [[amin amax] ar], b as [[bmin bmax] br], c as [[cmin cmax] cr].
  unfold range_key_leb.
  destruct (Z.ltb_spec amin bmin), (Z.ltb_spec bmin cmin), (Z.ltb_spec amin cmin),
    (Z.eqb_spec amin bmin), (Z.eqb_spec bmin cmin), (Z.eqb_spec amin cmin),
    (Z.leb_spec amax bmax), (Z.leb_spec bmax cmax), (Z.leb_spec amax cmax);
    simpl; auto; try lia; try discriminate.
Qed.

(** ** Range mode in closed form *)

Lemma fold_left_pair_app {A B} (upd : Z -> B -> Z) (f : A -> list B) l z init :
  fold_left (fun st a => (fold_left upd (f a) (fst st), snd st ++ f a)) l (z, init)
  = (fold_left upd (flat_map f l) z, init ++ flat_map f l).
Proof.
  revert z init; induction l as [|a t IH]; intros z init; simpl.
  - now rewrite app_nil_r.
  - rewrite IH, List.fold_left_app, app_assoc. reflexivity.
Qed.

Lemma detect_mode_range tab hm data :
  hm_mem "min" hm = true -> hm_mem "max" hm = true ->
  _detect_mode tab hm data = Val (ROLL_RANGE, range_errors tab hm data).
Proof.
  intros Hmin Hmax. unfold _detect_mode. rewrite Hmin, Hmax. simpl.
  erewrite for_each_pure with
    (g := fun errors ir => errors ++ range_row_errors tab hm ir).
  - simpl. rewrite fold_left_flat_map. reflexivity.
  - intros s [row_no r] _. rewrite !cell_at_mem by assumption.
    unfold range_row_errors. simpl.
    destruct (_to_int (cell_of hm r "min")) as [mi|]; [|now rewrite app_nil_r].
    destruct (_to_int (cell_of hm r "max")) as [ma|]; [|now rewrite app_nil_r].
    destruct (ma <? mi); [reflexivity|now rewrite app_nil_r].
Qed.

Lemma collect_ranges_pure hm data :
  hm_mem "min" hm = true -> hm_mem "max" hm = true ->
  collect_ranges hm data = Val (sheet_ranges hm data).
Proof.
  intros Hmin Hmax. unfold collect_ranges.
  erewrite for_each_pure with
    (g := fun ranges ir => ranges ++ range_row_triple hm ir).
  - rewrite fold_left_flat_map. reflexivity.
  - intros s [row_no r] _. rewrite !cell_at_mem by assumption.
    unfold range_row_triple. simpl.
    destruct (_to_int (cell_of hm r "min")) as [mi|]; [|now rewrite app_nil_r].
    destruct (_to_int (cell_of hm r "max")) as [ma|]; [|now rewrite app_nil_r].
    reflexivity.
Qed.

Lemma validate_ranges_pure tab hm data :
  hm_mem "min" hm = true -> hm_mem "max" hm = true ->
  _validate_ranges tab hm data
  = Val (overlap_errors tab (stable_sort range_key_leb (sheet_ranges hm data))).
Proof.
  intros Hmin Hmax. unfold _validate_ranges.
  rewrite collect_ranges_pure by assumption. reflexivity.
Qed.

Lemma result_rows_range_pure hm data :
  hm_mem "result" hm = true -> hm_mem "min" hm = true -> hm_mem "max" hm = true ->
  result_rows_range hm data
  = Val (range_max (range_entries "result" hm data), range_entries "result" hm data).
Proof.
  intros Hr Hmin Hmax. unfold result_rows_range.
  erewrite for_each_pure with
    (g := fun st ir => (fold_left max_step (range_row_entries "result" hm ir) (fst st),
                        snd st ++ range_row_entries "result" hm ir)).
  - rewrite fold_left_pair_app. reflexivity.
  - intros [mr entries] [row_no r] _. rewrite cell_at_mem by assumption.
    unfold range_row_entries. simpl.
    destruct (String.eqb _ ""); [now rewrite app_nil_r|].
    rewrite !cell_at_mem by assumption. simpl.
    destruct (_to_int (cell_of hm r "min")) as [mi|]; [|now rewrite app_nil_r].
    destruct (_to_int (cell_of hm r "max")) as [ma|]; [|now rewrite app_nil_r].
    reflexivity.
Qed.

Lemma parse_result_tab_range wb tab ws hm data :
  Xl.get_sheet wb tab = Val ws ->
  _read_sheet_rows ws = (hm, data) ->
  hm_mem "result" hm = true -> hm_mem "min" hm = true -> hm_mem "max" hm = true ->
  _parse_result_tab wb tab =
    Val (ROLL_RANGE, range_entries "result" hm data,
         max_roll_of (range_max (range_entries "result" hm data)),
         (range_errors tab hm data
            ++ overlap_errors tab (stable_sort range_key_leb (sheet_ranges hm data)))
           ++ no_results tab (range_entries "result" hm data)).
Proof.
  intros Hg Hr Hres Hmin Hmax. unfold _parse_result_tab.
  assert (Hs : Xl.has_sheet wb tab = true) by (apply has_sheet_get; eauto).
  rewrite Hs, Hg. simpl. rewrite Hr, Hres. simpl.
  rewrite detect_mode_range by assumption. simpl.
  rewrite validate_ranges_pure by assumption. simpl.
  rewrite result_rows_range_pure by assumption. simpl.
  unfold no_results, max_roll_of.
  destruct (range_entries "result" hm data); [reflexivity|now rewrite app_nil_r].
Qed.

Lemma in_range_errors tab hm data e :
  In e (range_errors tab hm data) <->
  exists row_no r mi ma,
    In (row_no, r) data
    /\ _to_int (cell_of hm r "min") = Some mi
    /\ _to_int (cell_of hm r "max") = Some ma
    /\ ma < mi /\ e = range_error tab row_no mi ma.
Proof.
  unfold range_errors. rewrite in_flat_map. split.
  - intros ([row_no r] & Hin & He). unfold range_row_errors in He. simpl in He.
    destruct (_to_int (cell_of hm r "min")) as [mi|] eqn:Hmi; [|contradiction].
    destruct (_to_int (cell_of hm r "max")) as [ma|] eqn:Hma; [|contradiction].
    destruct (Z.ltb_spec ma mi); [|contradiction].
    destruct He as [<-|[]]. exists row_no, r, mi, ma. auto.
  - intros (row_no & r & mi & ma & Hin & Hmi & Hma & Hlt & ->). exists (row_no, r).
    split; [assumption|]. unfold range_row_errors. simpl. rewrite Hmi, Hma.
    destruct (Z.ltb_spec ma mi); [now left|lia].
Qed.

Lemma in_sheet_ranges hm data mi ma row_no :
  In (mi, ma, row_no) (sheet_ranges hm data) <->
  exists r, In (row_no, r) data
            /\ _to_int (cell_of hm r "min") = Some mi
            /\ _to_int (cell_of hm r "max") = Some ma.
Proof.
  unfold sheet_ranges. rewrite in_flat_map. split.
  - intros ([n r] & Hin & He). unfold range_row_triple in He. simpl in He.
    destruct (_to_int (cell_of hm r "min")) as [mi'|] eqn:Hmi; [|contradiction].
    destruct (_to_int (cell_of hm r "max")) as [ma'|] eqn:Hma; [|contradiction].
    destruct He as [[= <- <- <-]|[]]. eauto.
  - intros (r & Hin & Hmi & Hma). exists (row_no, r). split; [assumption|].
    unfold range_row_triple. simpl. rewrite Hmi, Hma. now left.
Qed.

Lemma in_range_entries kind hm data e :
  In e (range_entries kind hm data) <->
  exists row_no r mi ma,
    In (row_no, r) data
    /\ _cell_str (cell_of hm r kind) <> ""
    /\ _to_int (cell_of hm r "min") = Some mi
    /\ _to_int (cell_of hm r "max") = Some ma
    /\ e = range_entry mi ma (_cell_str (cell_of hm r kind)).
Proof.
  unfold range_entries. rewrite in_flat_map. split.
  - intros ([row_no r] & Hin & He). unfold range_row_entries in He. simpl in He.
    destruct (String.eqb_spec (_cell_str (cell_of hm r kind)) "") as [E|E];
      [contradiction|].
    destruct (_to_int (cell_of hm r "min")) as [mi|] eqn:Hmi; [|contradiction].
    destruct (_to_int (cell_of hm r "max")) as [ma|] eqn:Hma; [|contradiction].
    destruct He as [<-|[]]. exists row_no, r, mi, ma. auto.
  - intros (row_no & r & mi & ma & Hin & Hres & Hmi & Hma & ->). exists (row_no, r).
    split; [assumption|]. unfold range_row_entries. simpl.
    destruct (String.eqb_spec (_cell_str (cell_of hm r kind)) "") as [E|E];
      [contradiction|].
    rewrite Hmi, Hma. now left.
Qed.

(** The overlap errors are those of the neighbours, in order. *)
Lemma in_overlap_errors tab ranges e :
  In e (overlap_errors tab ranges) <->
  exists pre prev cur post,
    ranges = pre ++ prev :: cur :: post
    /\ fst (fst cur) <= snd (fst prev)
    /\ e = overlap_error tab prev cur.
Proof.
  induction ranges as [|prev t IH]; simpl.
  - split; [contradiction|]. intros (pre & p & c & post & H & _).
    destruct pre; discriminate.
  - destruct t as [|cur t'].
    + split; [contradiction|]. intros (pre & p & c & post & H & _).
      destruct pre as [|? [|? ?]]; discriminate.
    + rewrite in_app_iff, IH. split.
      * intros [H|(pre & p & c & post & Heq & Hle & ->)].
        -- destruct (Z.leb_spec (fst (fst cur)) (snd (fst prev))); [|contradiction].
           destruct H as [<-|[]]. exists [], prev, cur, t'. auto.
        -- exists (prev :: pre), p, c, post. rewrite Heq. auto.
      * intros (pre & p & c & post & Heq & Hle & ->). destruct pre as [|x pre].
        -- injection Heq as <- <- <-. left.
           destruct (Z.leb_spec (fst (fst cur)) (snd (fst prev))); [now left|lia].
        -- injection Heq as <- Heq. right. exists pre, p, c, post. auto.
Qed.

Lemma max_step_ge entries z : z <= fold_left max_step entries z.
Proof.
  revert z; induction entries as [|e t IH]; intros z; simpl; [lia|].
  etransitivity; [|apply IH]. unfold max_step. destruct (e_max e); lia.
Qed.

Lemma range_max_upper entries e ma z :
  In e entries -> e_max e = Some ma -> ma <= fold_left max_step entries z.
Proof.
  revert z; induction entries as [|x t IH]; intros z Hin Hma; simpl;
    [contradiction|]. destruct Hin as [<-|Hin].
  - etransitivity; [|apply max_step_ge]. unfold max_step. rewrite Hma. lia.
  - now apply IH.
Qed.

Lemma range_max_attained entries z :
  fold_left max_step entries z = z
  \/ exists e, In e entries /\ e_max e = Some (fold_left max_step entries z).
Proof.
  revert z; induction entries as [|x t IH]; intros z; simpl; [now left|].
  destruct (IH (max_step z x)) as [H|(e & Hin & He)].
  - rewrite H. unfold max_step. destruct (e_max x) as [ma|] eqn:E; [|now left].
    destruct (Z.max_spec z ma) as [[_ ->]|[_ ->]]; [right; exists x; auto|now left].
  - right. exists e. auto.
Qed.

(** C7, amended: what a sheet with [min], [max] and [result] columns
    yields.  The invalid-range errors are those of the rows whose [min] and
    [max] both coerce to integers with [min > max]; a row one of whose
    bounds does not coerce adds no error and no range.  All the rows with
    two integer bounds, in the stable order of [(min, max)], are compared
    with their neighbour: [cur] is reported, with the row of [prev] in the
    message, when [cur]'s [min] is at most [prev]'s [max].  The entries are
    the rows with a result and two integer bounds, in sheet order, and
    [max_roll] is the largest [max] among them when that is positive, else
    absent. *)
Theorem range_sheet_rows wb tab ws hm data :
  Xl.get_sheet wb tab = Val ws ->
  _read_sheet_rows ws = (hm, data) ->
  hm_mem "result" hm = true -> hm_mem "min" hm = true -> hm_mem "max" hm = true ->
  let sorted := stable_sort range_key_leb (sheet_ranges hm data) in
  let entries := range_entries "result" hm data in
  exists invalid overlaps,
    _parse_result_tab wb tab
    = Val (ROLL_RANGE, entries, max_roll_of (range_max entries),
           (invalid ++ overlaps) ++ no_results tab entries)
    /\ (forall e, In e invalid <->
          exists row_no r mi ma,
            In (row_no, r) data
            /\ _to_int (cell_of hm r "min") = Some mi
            /\ _to_int (cell_of hm r "max") = Some ma
            /\ ma < mi /\ e = range_error tab row_no mi ma)
    /\ (forall mi ma row_no, In (mi, ma, row_no) sorted <->
          exists r, In (row_no, r) data
                    /\ _to_int (cell_of hm r "min") = Some mi
                    /\ _to_int (cell_of hm r "max") = Some ma)
    /\ Permutation sorted (sheet_ranges hm data)
    /\ StronglySorted (fun a b => range_key_leb a b = true) sorted
    /\ (forall e, In e overlaps <->
          exists pre prev cur post,
            sorted = pre ++ prev :: cur :: post
            /\ fst (fst cur) <= snd (fst prev)
            /\ e = overlap_error tab prev cur)
    /\ (forall e, In e entries <->
          exists row_no r mi ma,
            In (row_no, r) data
            /\ _cell_str (cell_of hm r "result") <> ""
            /\ _to_int (cell_of hm r "min") = Some mi
            /\ _to_int (cell_of hm r "max") = Some ma
            /\ e = range_entry mi ma (_cell_str (cell_of hm r "result")))
    /\ (forall e ma, In e entries -> e_max e = Some ma -> ma <= range_max entries)
    /\ (range_max entries = 0
        \/ exists e, In e entries /\ e_max e = Some (range_max entries)).
Proof.
  intros Hg Hr Hres Hmin Hmax sorted entries.
  exists (range_errors tab hm data), (overlap_errors tab sorted).
  split; [eapply parse_result_tab_range; eassumption|].
  split; [apply in_range_errors|].
  split.
  { intros mi ma row_no. rewrite <- in_sheet_ranges. unfold sorted. split.
    - apply Permutation_in, stable_sort_perm.
    - apply Permutation_in. symmetry. apply stable_sort_perm. }
  split; [apply stable_sort_perm|].
  split; [apply stable_sort_sorted; [apply range_key_total|apply range_key_trans]|].
  split; [apply in_overlap_errors|].
  split; [apply in_range_entries|].
  split.
  - intros e ma Hin He. unfold range_max. eapply range_max_upper; eassumption.
  - apply range_max_attained.
Qed.

(** C7 as stated fails: row 2 has no integer [min] and is not reported, and
    the sheet is accepted with [max_roll] absent although the largest [max]
    of its valid row is [-1]. *)
Lemma range_text_row_not_flagged :
  _read_sheet_rows cx_range_sheet
  = ([("min", 0%nat); ("max", 1%nat); ("result", 2%nat)],
     [ (2%nat, [CStr "abc"; CInt 5; CStr "wolf"]);
       (3%nat, [CInt (-5); CInt (-1); CStr "bear"]) ])
  /\ _to_int (CStr "abc") = None
  /\ _parse_result_tab [cx_range_sheet] "Encounter - T"
     = Val (ROLL_RANGE, [range_entry (-5) (-1) "bear"], None, []).
Proof. vm_compute. repeat split. Qed.

Lemma range_sheet_rows_witness :
  exists invalid overlaps,
    _parse_result_tab [cx_range_sheet] "Encounter - T"
    = Val (ROLL_RANGE, [range_entry (-5) (-1) "bear"], None,
           (invalid ++ overlaps) ++ []).
Proof.
  destruct (@range_sheet_rows [cx_range_sheet] "Encounter - T" cx_range_sheet
              [("min", 0%nat); ("max", 1%nat); ("result", 2%nat)]
              [ (2%nat, [CStr "abc"; CInt 5; CStr "wolf"]);
                (3%nat, [CInt (-5); CInt (-1); CStr "bear"]) ])
    as (invalid & overlaps & H & _);
    try (vm_compute; reflexivity).
  exists invalid, overlaps. exact H.
Defined.

(** ** The roller *)

Lemma fold_left_add l a : fold_left Z.add l a = a + fold_left Z.add l 0.
Proof.
  revert a; induction l as [|x t IH]; intros a; simpl; [lia|].
  rewrite IH, (IH x). lia.
Qed.

Lemma total_weight_cons x t : total_weight (x :: t) = snd x + total_weight t.
Proof. unfold total_weight. simpl. rewrite fold_left_add. lia. Qed.

Lemma total_weight_app a b : total_weight (a ++ b) = total_weight a + total_weight b.
Proof.
  induction a as [|x t IH]; simpl; [change (total_weight []) with 0; lia|].
  rewrite !total_weight_cons, IH. lia.
Qed.

Lemma pick_loop_some r acc items val :
  pick_loop r acc items = Some val ->
  exists pre w post,
    items = pre ++ (val, w) :: post
    /\ r <= acc + total_weight pre + w
    /\ forall pre1 x post1,
         pre = pre1 ++ x :: post1 -> acc + total_weight pre1 + snd x < r.
Proof.
  revert acc; induction items as [|[v w] t IH]; intros acc; simpl; [discriminate|].
  destruct (Z.leb_spec r (acc + w)) as [Hle|Hgt].
  - intros [= <-]. exists [], w, t. split; [reflexivity|]. split.
    + unfold total_weight; simpl; lia.
    + intros pre1 x post1 H. destruct pre1; discriminate.
  - intros H. apply IH in H as (pre & w' & post & -> & Hle & Hpre).
    exists ((v, w) :: pre), w', post. split; [reflexivity|]. split.
    + rewrite total_weight_cons. simpl. lia.
    + intros pre1 x post1 Heq. destruct pre1 as [|y pre1].
      * injection Heq as <- _. unfold total_weight; simpl. lia.
      * injection Heq as <- Heq. rewrite total_weight_cons. simpl.
        specialize (Hpre _ _ _ Heq). lia.
Qed.

Lemma pick_loop_reaches r acc items :
  r <= acc + total_weight items -> items <> [] ->
  exists val, pick_loop r acc items = Some val.
Proof.
  revert acc; induction items as [|[v w] t IH]; intros acc Hle Hne; [contradiction|].
  simpl. destruct (Z.leb_spec r (acc + w)) as [H|H]; [eauto|].
  rewrite total_weight_cons in Hle. simpl in Hle.
  destruct t as [|y t'].
  - unfold total_weight in Hle. simpl in Hle. lia.
  - apply IH; [lia|discriminate].
Qed.

Lemma randint_in_range raw a b :
  a <= b -> exists r, randint raw a b = Val r /\ a <= r <= b /\ r = a + raw mod (b - a + 1).
Proof.
  intros H. unfold randint. destruct (Z.ltb_spec b a); [lia|].
  eexists; split; [reflexivity|]. split; [|reflexivity].
  pose proof (Z.mod_pos_bound raw (b - a + 1)). lia.
Qed.

(** Every value of the interval is drawn for some entropy. *)
Lemma randint_onto a b r : a <= r <= b -> exists raw, randint raw a b = Val r.
Proof.
  intros H. exists (r - a). unfold randint. destruct (Z.ltb_spec b a); [lia|].
  rewrite Z.mod_small by lia. f_equal. lia.
Qed.

Lemma in_weighted_items rows val w :
  In (val, w) (weighted_items rows) <->
  exists r, In r rows /\ te_weight r = Some w /\ te_result r = val.
Proof.
  unfold weighted_items. rewrite in_flat_map. split.
  - intros (r & Hin & H). destruct (te_weight r) as [w'|] eqn:E; [|contradiction].
    destruct H as [[= <- <-]|[]]. eauto.
  - intros (r & Hin & Hw & <-). exists r. rewrite Hw. split; [assumption|now left].
Qed.

(** C4. A roll on a weight-mode table that has entries: the candidates are
    the entries with a weight, in stored order; with no candidate the roll
    fails with "no valid weights"; otherwise, [total] being the sum of the
    candidates' weights and the interval from 1 to [total] not empty, the
    draw [r] lies in it and the result is the first candidate at which the
    running sum of weights reaches [r], with the label "weight". *)
Theorem weight_roll db raw guild_id group_key region_id type_key t :
  Sql.select_table_def db guild_id group_key region_id type_key = Some t ->
  td_roll_mode t = "weight" ->
  Sql.select_table_entries db (td_id t) <> [] ->
  let rows := Sql.select_table_entries db (td_id t) in
  let items := weighted_items rows in
  let total := total_weight items in
  (forall val w, In (val, w) items <->
                 exists r, In r rows /\ te_weight r = Some w /\ te_result r = val)
  /\ (items = [] ->
      roll_from_table db raw guild_id group_key region_id type_key
      = Exc (RuntimeError "Weight mode table has no valid weights"))
  /\ (items <> [] -> 1 <= total ->
      exists r val,
        randint raw 1 total = Val r /\ 1 <= r <= total
        /\ first_reaching r items val
        /\ roll_from_table db raw guild_id group_key region_id type_key
           = Val (val, "weight")).
Proof.
  intros Hsel Hmode Hrows rows items total.
  split; [intros; apply in_weighted_items|].
  unfold roll_from_table. rewrite Hsel, Hmode. fold rows. fold items.
  change (rows <> []) in Hrows. clearbody items. clearbody rows.
  destruct rows as [|first rest]; [contradiction|].
  cbv beta iota. simpl (_ =? _)%string. cbv beta iota. split.
  - intros ->. reflexivity.
  - intros Hne Htot. destruct items as [|i0 items']; [contradiction|].
    destruct (@randint_in_range raw 1 total Htot) as (r & Hr & Hrange & _).
    unfold _pick_weighted. fold (total_weight (i0 :: items')). fold total.
    rewrite Hr. cbn [bindR].
    destruct (@pick_loop_reaches r 0 (i0 :: items')) as [val Hval];
      [fold total; lia|discriminate|].
    rewrite Hval. exists r, val. split; [reflexivity|]. split; [assumption|].
    split; [|reflexivity].
    apply pick_loop_some in Hval as (pre & w & post & Heq & Hle & Hpre).
    exists pre, w, post. split; [assumption|]. split; [lia|].
    intros pre1 x post1 H. specialize (Hpre _ _ _ H). lia.
Qed.

Lemma range_loop_some roll rows result :
  range_loop roll rows = Some result ->
  exists r, first_containing roll rows r /\ te_result r = result.
Proof.
  induction rows as [|x t IH]; simpl; [discriminate|].
  destruct (te_min_roll x) as [mi|] eqn:Emi, (te_max_roll x) as [ma|] eqn:Ema.
  1: destruct ((mi <=? roll) && (roll <=? ma)) eqn:E.
  1: { intros [= <-]. exists x. split; [|reflexivity]. exists [], t.
       apply andb_true_iff in E as [E1 E2]. apply Z.leb_le in E1, E2.
       split; [reflexivity|]. split; [exists mi, ma; auto|contradiction]. }
  all: intros H; apply IH in H as (r & (pre & post & -> & Hc & Hpre) & Hres);
    exists r; split; [|assumption]; exists (x :: pre), post;
    split; [reflexivity|]; split; [assumption|];
    intros y [<-|Hy]; [|now apply Hpre];
    intros (mi' & ma' & Hmi & Hma & Hin); try congruence.
  rewrite Emi in Hmi; rewrite Ema in Hma.
  injection Hmi as <-; injection Hma as <-.
  apply andb_false_iff in E as [E|E]; apply Z.leb_gt in E; lia.
Qed.

Lemma range_loop_none roll rows :
  range_loop roll rows = None -> forall r, In r rows -> ~ contains roll r.
Proof.
  induction rows as [|x t IH]; simpl; [contradiction|].
  intros H r [<-|Hin] (mi & ma & Hmi & Hma & Hr).
  - rewrite Hmi, Hma in H.
    destruct ((mi <=? roll) && (roll <=? ma)) eqn:E; [discriminate|].
    apply andb_false_iff in E as [E|E]; apply Z.leb_gt in E; lia.
  - destruct (te_min_roll x), (te_max_roll x);
      try (eapply IH; [eassumption|eassumption|exists mi, ma; auto]).
    destruct ((z <=? roll) && (roll <=? z0)); [discriminate|].
    eapply IH; [eassumption|eassumption|exists mi, ma; auto].
Qed.


(** ** Transactions *)

Lemma bindM_val {A B} (m : DBM A) (k : A -> DBM B) c b c' :
  bindM m k c = (Val b, c') ->
  exists a c1, m c = (Val a, c1) /\ k a c1 = (Val b, c').
Proof.
  unfold bindM. destruct (m c) as [[a|e] c1]; [eauto|discriminate].
Qed.

Lemma bindM_exc {A B} (m : DBM A) (k : A -> DBM B) c e c' :
  bindM m k c = (Exc e, c') ->
  m c = (Exc e, c') \/ exists a c1, m c = (Val a, c1) /\ k a c1 = (Exc e, c').
Proof.
  unfold bindM. destruct (m c) as [[a|e0] c1]; [eauto|].
  intros [= <- <-]. now left.
Qed.

Lemma keeps_ret {A} (a : A) : keeps (ret a).
Proof. intros c r c' [= <- <-]. reflexivity. Qed.

Lemma keeps_lift {A} (r : Res A) : keeps (lift r).
Proof. intros c r' c' [= <- <-]. reflexivity. Qed.

Lemma keeps_bind {A B} (m : DBM A) (k : A -> DBM B) :
  keeps m -> (forall a, keeps (k a)) -> keeps (bindM m k).
Proof.
  intros Hm Hk c r c'. unfold bindM. destruct (m c) as [[a|e] c1] eqn:E.
  - intros H. apply Hk in H. apply Hm in E. congruence.
  - intros [= <- <-]. now apply Hm in E.
Qed.

Lemma keeps_execute ok upd : keeps (execute ok upd).
Proof.
  intros c r c'. unfold execute. destruct (negb ok); [intros [= <- <-]; reflexivity|].
  destruct (fault c (clock c)); intros [= <- <-]; reflexivity.
Qed.

Lemma keeps_for_eachM {A} (body : A -> DBM unit) l :
  (forall a, keeps (body a)) -> keeps (for_eachM body l).
Proof.
  intros H. induction l as [|a t IH]; simpl; [apply keeps_ret|].
  apply keeps_bind; [apply H|intros _; exact IH].
Qed.

Lemma keeps_insert_table g u grp rid ty mode mr :
  keeps (insert_table g u grp rid ty mode mr).
Proof.
  intros c r c'. unfold insert_table. intros H.
  eapply keeps_bind in H; [exact H|apply keeps_execute|intros; apply keeps_ret].
Qed.

Lemma keeps_insert_entries id entries : keeps (insert_entries id entries).
Proof.
  unfold insert_entries. apply keeps_for_eachM. intros [i e]. apply keeps_execute.
Qed.

Lemma keeps_insert_typed g u grp rid tables t :
  keeps (insert_typed g u grp rid tables t).
Proof.
  unfold insert_typed. apply keeps_bind; [apply keeps_lift|intros tbl].
  apply keeps_bind; [apply keeps_insert_table|intros id; apply keeps_insert_entries].
Qed.

Lemma keeps_insert_region_blob wb g u blob : keeps (insert_region_blob wb g u blob).
Proof.
  unfold insert_region_blob.
  apply keeps_bind; [apply keeps_insert_table|intros id].
  apply keeps_bind; [apply keeps_lift|intros es].
  apply keeps_bind; [apply keeps_insert_entries|intros _].
  apply keeps_for_eachM. intros t.
  apply keeps_bind; [apply keeps_insert_typed|intros _; apply keeps_insert_typed].
Qed.

Lemma keeps_insert_regions g regions : keeps (insert_regions g regions).
Proof.
  unfold insert_regions. apply keeps_for_eachM. intros [i [rid name]].
  apply keeps_execute.
Qed.

Lemma replace_tenant_split wb g u regions rm st c :
  replace_tenant wb g u regions rm st c
  = bindM (replace_statements wb g u regions rm st)
      (fun _ => bindM commit (fun _ => ret (import_counts regions rm st))) c.
Proof.
  unfold replace_tenant, replace_statements, bindM.
  destruct (execute _ _ c) as [[[]|e] c1]; [|reflexivity].
  destruct (execute _ _ c1) as [[[]|e] c2]; [|reflexivity].
  destruct (execute _ _ c2) as [[[]|e] c3]; [|reflexivity].
  destruct rm.
  - destruct (insert_regions g regions c3) as [[[]|e] c4]; [|reflexivity].
    destruct (for_eachM _ _ c4) as [[[]|e] c5]; reflexivity.
  - unfold ret at 1 3.
    destruct (for_eachM _ _ c3) as [[[]|e] c5]; reflexivity.
Qed.

Lemma keeps_replace_statements wb g u regions rm st :
  keeps (replace_statements wb g u regions rm st).
Proof.
  unfold replace_statements.
  repeat (apply keeps_bind; [apply keeps_execute|intros _]).
  apply keeps_bind;
    [destruct rm; [apply keeps_insert_regions|apply keeps_ret]|intros _].
  apply keeps_for_eachM. intros b. apply keeps_insert_region_blob.
Qed.

Lemma commit_exc c e c' : commit c = (Exc e, c') -> committed c' = committed c.
Proof.
  unfold commit. destruct (fault c (clock c)); [intros [= <- <-]; reflexivity|].
  destruct (txn c); discriminate.
Qed.

(** When the [try] block raises, the committed store is the one it
    started from. *)
Lemma replace_tenant_exc wb g u regions rm st c e c' :
  replace_tenant wb g u regions rm st c = (Exc e, c') -> committed c' = committed c.
Proof.
  rewrite replace_tenant_split. intros H.
  apply bindM_exc in H as [H|([] & c1 & H1 & H)].
  - now apply keeps_replace_statements in H.
  - apply keeps_replace_statements in H1.
    apply bindM_exc in H as [H|([] & c2 & H2 & H)]; [|discriminate].
    apply commit_exc in H. congruence.
Qed.

Lemma replace_tenant_val wb g u regions rm st c counts c' :
  replace_tenant wb g u regions rm st c = (Val counts, c') ->
  counts = import_counts regions rm st.
Proof.
  rewrite replace_tenant_split. intros H.
  apply bindM_val in H as ([] & c1 & _ & H).
  apply bindM_val in H as ([] & c2 & _ & H). now injection H as <- _.
Qed.

Lemma begin_val c c1 :
  begin c = (Val tt, c1) ->
  committed c1 = committed c /\ txn c = None /\ txn c1 = Some (committed c).
Proof.
  unfold begin. destruct (txn c); [discriminate|]. intros [= <-]. repeat split.
Qed.

Lemma begin_exc c e c1 : begin c = (Exc e, c1) -> committed c1 = committed c /\ txn c1 = txn c.
Proof.
  unfold begin.
  destruct (txn c) eqn:E; [intros [= <- <-]; split; [reflexivity|simpl; now rewrite E]|discriminate].
Qed.

(** ** The outcomes of an import *)

(** Phase 1 ended with errors: nothing is run on the connection and the
    errors come back, all of them, in the order they were found. *)
Lemma import_rejects g wb u c errors :
  validation_errors wb = Val errors -> errors <> [] ->
  import_workbook_bytes g wb u c = (Val (None, errors), c).
Proof.
  unfold validation_errors, import_workbook_bytes.
  destruct (phase1 wb) as [[errs|regions rm st]|e]; try discriminate.
  - now intros [= ->].
  - intros [= <-]. destruct (p_errors st); [contradiction|reflexivity].
Qed.

Lemma import_raises_in_phase1 g wb u c e :
  phase1 wb = Exc e -> import_workbook_bytes g wb u c = (Exc e, c).
Proof. unfold import_workbook_bytes. now intros ->. Qed.

Lemma phase1_regional wb regions rm st :
  phase1 wb = Val (Parsed regions rm st) ->
  rm = Xl.has_sheet wb "Regions" /\ (rm = true -> regions <> []).
Proof.
  unfold phase1. destruct (_parse_regions_tab wb) as [[regs errs]|e]; [|discriminate].
  cbn [bindR]. destruct (Xl.has_sheet wb "Regions").
  - destruct errs; [|discriminate]. destruct regs as [|r0 regs]; [discriminate|].
    match goal with |- context [for_each ?f ?l ?s] => destruct (for_each f l s) end;
      [|discriminate].
    cbn [bindR]. intros [= <- <- <-]. split; [reflexivity|discriminate].
  - match goal with |- context [for_each ?f ?l ?s] => destruct (for_each f l s) end;
      [|discriminate].
    cbn [bindR]. intros [= <- <- <-]. split; [reflexivity|discriminate].
Qed.

(** An import that returns a summary went through every stage. *)
Lemma import_success g wb u c counts errors c' :
  import_workbook_bytes g wb u c = (Val (Some counts, errors), c') ->
  exists regions rm st c1,
    phase1 wb = Val (Parsed regions rm st) /\ p_errors st = []
    /\ begin c = (Val tt, c1)
    /\ replace_tenant wb g u regions rm st c1 = (Val counts, c')
    /\ errors = [].
Proof.
  unfold import_workbook_bytes.
  destruct (phase1 wb) as [[errs|regions rm st]|e]; try discriminate.
  destruct (p_errors st) eqn:Ep; [|discriminate].
  destruct (begin c) as [[[]|e] c1] eqn:Eb; [|discriminate].
  destruct (replace_tenant _ _ _ _ _ _ c1) as [[cn|e] c2] eqn:Er; [|discriminate].
  intros [= <- <- <-]. exists regions, rm, st, c1. auto.
Qed.

(** C9. A summary's reward-type count is its encounter-type count, and
    its region count is zero exactly when the workbook has no [Regions]
    sheet. *)
Theorem summary_counts g wb u c counts errors c' :
  import_workbook_bytes g wb u c = (Val (Some counts, errors), c') ->
  reward_types counts = encounter_types counts
  /\ (regions counts = 0%nat <-> Xl.has_sheet wb "Regions" = false).
Proof.
  intros H. apply import_success in H as (regions & rm & st & c1 & Hp & _ & _ & Hr & _).
  apply replace_tenant_val in Hr. subst counts. simpl. split; [reflexivity|].
  apply phase1_regional in Hp as [-> Hne].
  destruct (Xl.has_sheet wb "Regions").
  - specialize (Hne eq_refl). destruct regions; [contradiction|].
    simpl. split; discriminate.
  - split; reflexivity.
Qed.

(** ** Where validation errors point *)

Lemma bindR_val {A B} (m : Res A) (k : A -> Res B) b :
  bindR m k = Val b -> exists a, m = Val a /\ k a = Val b.
Proof. destruct m as [a|e]; simpl; [eauto|discriminate]. Qed.

Lemma for_each_inv {A S} (I : S -> Prop) (body : S -> A -> Res S) l :
  (forall s a s', In a l -> I s -> body s a = Val s' -> I s') ->
  forall s s', I s -> for_each body l s = Val s' -> I s'.
Proof.
  induction l as [|a t IH]; intros Hb s s' Hs; simpl.
  - now intros [= <-].
  - intros H. apply bindR_val in H as (s1 & H1 & H). eapply IH; [| |exact H].
    + intros; eapply Hb; eauto. now right.
    + eapply Hb; eauto. now left.
Qed.

Ltac inv_bind H :=
  let a := fresh "a" in
  let Ha := fresh "Ha" in
  apply bindR_val in H as (a & Ha & H).

Lemma detect_mode_on_sheet t hm data mode errs :
  sheet_tab t = true -> _detect_mode t hm data = Val (mode, errs) ->
  Forall on_sheet errs.
Proof.
  intros Ht. unfold _detect_mode.
  destruct (hm_mem "min" hm || hm_mem "max" hm).
  - destruct (negb (hm_mem "min" hm && hm_mem "max" hm)).
    + intros [= <- <-]. repeat constructor. exact Ht.
    + intros H. inv_bind H. injection H as <- <-.
      eapply (for_each_inv (Forall on_sheet)); [|constructor|exact Ha].
      intros s [row_no r] s' _ Hs Hb. inv_bind Hb. inv_bind Hb.
      destruct (_to_int a0), (_to_int a1); try (injection Hb as <-; assumption).
      destruct (z0 <? z); injection Hb as <-; [|assumption].
      apply Forall_app. split; [assumption|]. repeat constructor. exact Ht.
  - destruct (hm_mem "weight" hm).
    + intros H. inv_bind H. injection H as <- <-.
      eapply (for_each_inv (Forall on_sheet)); [|constructor|exact Ha].
      intros s [row_no r] s' _ Hs Hb. inv_bind Hb.
      destruct (_to_int a0); [|injection Hb as <-; assumption].
      destruct (z <=? 0); injection Hb as <-; [|assumption].
      apply Forall_app. split; [assumption|]. repeat constructor. exact Ht.
    + intros [= <- <-]. constructor.
Qed.

Lemma overlap_errors_on_sheet t ranges :
  sheet_tab t = true -> Forall on_sheet (overlap_errors t ranges).
Proof.
  intros Ht. induction ranges as [|prev l IH]; [constructor|].
  simpl. destruct l as [|cur l']; [constructor|].
  apply Forall_app. split; [|exact IH].
  destruct (fst (fst cur) <=? snd (fst prev)); [|constructor].
  repeat constructor. destruct prev as [[? ?] ?], cur as [[? ?] ?]. exact Ht.
Qed.

Lemma validate_ranges_on_sheet t hm data errs :
  sheet_tab t = true -> _validate_ranges t hm data = Val errs -> Forall on_sheet errs.
Proof.
  intros Ht H. unfold _validate_ranges in H. inv_bind H. injection H as <-.
  now apply overlap_errors_on_sheet.
Qed.

Lemma parse_type_tab_on_sheet wb t mode types mr errs :
  sheet_tab t = true -> _parse_type_tab wb t = Val (mode, types, mr, errs) ->
  Forall on_sheet errs.
Proof.
  intros Ht. unfold _parse_type_tab.
  destruct (negb (Xl.has_sheet wb t)); [intros [= <- <- <- <-]; repeat constructor; exact Ht|].
  intros H. inv_bind H. destruct (_read_sheet_rows a) as [hm data].
  destruct (negb (hm_mem "type" hm)); [injection H as <- <- <- <-; repeat constructor; exact Ht|].
  inv_bind H. destruct a0 as [mode0 mode_errs].
  pose proof (@detect_mode_on_sheet t hm data mode0 mode_errs Ht Ha0) as Hm.
  inv_bind H. destruct a0 as [[errors types0] max_roll].
  assert (He : Forall on_sheet errors).
  { destruct (String.eqb mode0 ROLL_RANGE).
    - inv_bind Ha1. inv_bind Ha1. destruct a1 as [mr0 ts]. injection Ha1 as <- <- <-.
      apply Forall_app. split; [assumption|].
      eapply validate_ranges_on_sheet; eassumption.
    - destruct (String.eqb mode0 ROLL_WEIGHT); inv_bind Ha1;
        injection Ha1 as <- <- <-; assumption. }
  injection H as <- <- <- <-.
  destruct (dedupe [] types0); [|assumption].
  apply Forall_app. split; [assumption|]. repeat constructor. exact Ht.
Qed.

Lemma parse_result_tab_on_sheet wb t mode entries mr errs :
  sheet_tab t = true -> _parse_result_tab wb t = Val (mode, entries, mr, errs) ->
  Forall on_sheet errs.
Proof.
  intros Ht. unfold _parse_result_tab.
  destruct (negb (Xl.has_sheet wb t)); [intros [= <- <- <- <-]; repeat constructor; exact Ht|].
  intros H. inv_bind H. destruct (_read_sheet_rows a) as [hm data].
  destruct (negb (hm_mem "result" hm)); [injection H as <- <- <- <-; repeat constructor; exact Ht|].
  inv_bind H. destruct a0 as [mode0 mode_errs].
  pose proof (@detect_mode_on_sheet t hm data mode0 mode_errs Ht Ha0) as Hm.
  inv_bind H. destruct a0 as [[errors entries0] max_roll].
  assert (He : Forall on_sheet errors).
  { destruct (String.eqb mode0 ROLL_RANGE).
    - inv_bind Ha1. inv_bind Ha1. destruct a1 as [mr0 ts]. injection Ha1 as <- <- <-.
      apply Forall_app. split; [assumption|].
      eapply validate_ranges_on_sheet; eassumption.
    - destruct (String.eqb mode0 ROLL_WEIGHT); inv_bind Ha1;
        injection Ha1 as <- <- <-; assumption. }
  injection H as <- <- <- <-.
  destruct entries0; [|assumption].
  apply Forall_app. split; [assumption|]. repeat constructor. exact Ht.
Qed.

Lemma parse_regions_tab_on_sheet wb regions errs :
  _parse_regions_tab wb = Val (regions, errs) -> Forall on_sheet errs.
Proof.
  unfold _parse_regions_tab.
  destruct (negb (Xl.has_sheet wb "Regions")); [intros [= <- <-]; constructor|].
  intros H. inv_bind H. destruct (_read_sheet_rows a) as [hm data].
  destruct (negb (hm_mem "region_id" hm) || negb (hm_mem "region_name" hm));
    [injection H as <- <-; repeat constructor|].
  inv_bind H. destruct a0 as [[regs seen] es]. injection H as <- <-.
  eapply (for_each_inv (fun st => Forall on_sheet (snd st))) in Ha0;
    [exact Ha0| |constructor].
  intros [[rs sn] er] [row_no r] s' _ Hs Hb. simpl in Hs.
  inv_bind Hb. inv_bind Hb.
  assert (Hadd : forall m, Forall on_sheet (er ++ [err "Regions" (Some row_no) m]))
    by (intros m; apply Forall_app; split; [assumption|repeat constructor]).
  destruct (_to_int a0); [|injection Hb as <-; apply Hadd].
  destruct (z <=? 0); [injection Hb as <-; apply Hadd|].
  destruct (String.eqb (_cell_str a1) ""); [injection Hb as <-; apply Hadd|].
  destruct (existsb (Z.eqb z) sn); injection Hb as <-; [apply Hadd|assumption].
Qed.

Lemma enc_type_tab_sheet rid : sheet_tab (_enc_type_tab rid) = true.
Proof. destruct rid; reflexivity. Qed.

Lemma enc_tab_sheet rid t : sheet_tab (_enc_tab rid t) = true.
Proof. destruct rid; reflexivity. Qed.

Lemma rew_tab_sheet rid t : sheet_tab (_rew_tab rid t) = true.
Proof. destruct rid; reflexivity. Qed.

Lemma missing_tabs_on_sheet wb rid types : Forall on_sheet (missing_tabs wb rid types).
Proof.
  unfold missing_tabs. induction types as [|t l IH]; [constructor|]. simpl.
  repeat (apply Forall_app; split); [| |exact IH].
  - destruct (negb _); [|constructor]. repeat constructor. apply enc_tab_sheet.
  - destruct (negb _); [|constructor]. repeat constructor. apply rew_tab_sheet.
Qed.

Lemma parse_tables_on_sheet wb tab_of types errors errors' tables :
  (forall t, sheet_tab (tab_of t) = true) ->
  Forall on_sheet errors ->
  parse_tables wb tab_of types errors = Val (errors', tables) ->
  Forall on_sheet errors'.
Proof.
  intros Ht He H. unfold parse_tables in H.
  eapply (for_each_inv (fun st => Forall on_sheet (fst st))) in H; [exact H| |exact He].
  intros [es tb] t s' _ Hs Hb. simpl in Hs. inv_bind Hb.
  destruct a as [[[mode entries] mr] tab_errs]. injection Hb as <-. simpl.
  apply Forall_app. split; [assumption|].
  eapply parse_result_tab_on_sheet; [apply Ht|eassumption].
Qed.

Lemma region_step_on_sheet wb st rid st' :
  Forall on_sheet (p_errors st) -> region_step wb st rid = Val st' ->
  Forall on_sheet (p_errors st').
Proof.
  intros He H. unfold region_step in H. inv_bind H.
  destruct a as [[[mode types] mr] type_errs].
  pose proof (@parse_type_tab_on_sheet wb _ _ _ _ _ (enc_type_tab_sheet rid) Ha) as Ht.
  destruct type_errs as [|te type_errs].
  2: { injection H as <-. simpl. apply Forall_app. split; assumption. }
  assert (H2 : Forall on_sheet ((p_errors st ++ []) ++ missing_tabs wb rid types)).
  { apply Forall_app. split; [apply Forall_app; split; assumption|].
    apply missing_tabs_on_sheet. }
  destruct ((p_errors st ++ []) ++ missing_tabs wb rid types) as [|m ms] eqn:Em.
  2: { injection H as <-. simpl. assumption. }
  inv_bind H. destruct a as [errors1 enc_tables].
  eapply parse_tables_on_sheet in Ha0; [|apply enc_tab_sheet|constructor].
  inv_bind H. destruct a as [errors2 rew_tables].
  eapply parse_tables_on_sheet in Ha1; [|apply rew_tab_sheet|assumption].
  destruct errors2 as [|e2 es2].
  - inv_bind H. inv_bind H. injection H as <-. simpl. constructor.
  - injection H as <-. simpl. assumption.
Qed.

(** Every validation error names a sheet. *)
Lemma validation_errors_on_sheet wb errors :
  validation_errors wb = Val errors -> Forall on_sheet errors.
Proof.
  unfold validation_errors, phase1.
  destruct (_parse_regions_tab wb) as [[regs errs]|e] eqn:Er; [|discriminate].
  apply parse_regions_tab_on_sheet in Er. cbn [bindR].
  assert (Hloop : forall l st,
             for_each (region_step wb) l
               {| p_errors := errs; p_parsed := []; p_enc_types := 0;
                  p_enc_entries := 0; p_rew_entries := 0 |} = Val st ->
             Forall on_sheet (p_errors st)).
  { intros l st H.
    eapply (for_each_inv (fun s => Forall on_sheet (p_errors s))) in H;
      [exact H| |exact Er].
    intros s a s' _. apply region_step_on_sheet. }
  destruct (Xl.has_sheet wb "Regions").
  - destruct errs as [|e0 errs']; [|intros [= <-]; assumption].
    destruct regs as [|r0 regs']; [intros [= <-]; repeat constructor|].
    match goal with |- context [for_each ?f ?l ?s] =>
      destruct (for_each f l s) as [st|e] eqn:E end; [|discriminate].
    cbn [bindR]. intros [= <-]. eapply Hloop; eassumption.
  - match goal with |- context [for_each ?f ?l ?s] =>
      destruct (for_each f l s) as [st|e] eqn:E end; [|discriminate].
    cbn [bindR]. intros [= <-]. eapply Hloop; eassumption.
Qed.

Lemma storage_error_not_on_sheet e : ~ on_sheet (storage_error e).
Proof. unfold on_sheet. simpl. discriminate. Qed.

(** ** Failures of the replace transaction *)

(** C3.  The import passed validation and runs on a connection of its own:
    when anything in phase 2 raises, be it the upsert, a delete, an insert
    or the commit, the report is the one storage error without a summary,
    the transaction is rolled back and the committed store is the one
    before the call.  The storage error sits on the pseudo-sheet [DB],
    where no validation error ever sits. *)
Theorem storage_failure_rolls_back g wb u db f regions rm st e c2 :
  phase1 wb = Val (Parsed regions rm st) -> p_errors st = [] ->
  phase2 wb g u regions rm st (connect db f) = (Exc e, c2) ->
  import_workbook_bytes g wb u (connect db f)
  = (Val (None, [storage_error e]), rollback c2)
  /\ committed (rollback c2) = db
  /\ txn (rollback c2) = None
  /\ tab (storage_error e) = "DB"
  /\ (forall wb' errors v,
         validation_errors wb' = Val errors -> In v errors -> tab v <> "DB").
Proof.
  intros Hp He Hr. unfold phase2, bindM in Hr.
  destruct (begin (connect db f)) as [[[]|e0] c1] eqn:Hb; [|discriminate Hb].
  split; [|split; [|split; [reflexivity|split; [reflexivity|]]]].
  - unfold import_workbook_bytes. rewrite Hp, He, Hb, Hr. reflexivity.
  - apply replace_tenant_exc in Hr. apply begin_val in Hb as [Hb _].
    simpl. simpl in Hb. congruence.
  - intros wb' errors v Hv Hin Htab. apply validation_errors_on_sheet in Hv.
    rewrite Forall_forall in Hv. specialize (Hv _ Hin). unfold on_sheet in Hv.
    rewrite Htab in Hv. discriminate.
Qed.

Lemma sample_db_imported :
  import_workbook_bytes 7 sample_wb "t0" (connect empty_db no_fault)
  = (Val (Some {| encounter_types := 1; encounter_entries := 2; reward_types := 1;
                  reward_entries := 2; regions := 0 |}, []),
     {| committed := sample_db; txn := None; clock := 13; fault := no_fault |}).
Proof. vm_compute. reflexivity. Qed.

Lemma storage_failure_rolls_back_witness :
  exists c',
    import_workbook_bytes 7 sample_regional_wb "t1" (connect sample_db (fault_at 5 locked))
    = (Val (None, [storage_error locked]), c')
    /\ committed c' = sample_db /\ txn c' = None.
Proof.
  let p := eval vm_compute in (phase1 sample_regional_wb) in
  match p with
  | Val (Parsed ?regions ?rm ?st) =>
      let r := eval vm_compute in
                 (phase2 sample_regional_wb 7 "t1" regions rm st
                    (connect sample_db (fault_at 5 locked))) in
      match r with
      | (Exc ?e, ?c2) =>
          exists (rollback c2);
          pose proof (@storage_failure_rolls_back 7 sample_regional_wb "t1" sample_db
                        (fault_at 5 locked) regions rm st e c2) as H;
          destruct H as (H1 & H2 & H3 & _);
          [vm_compute; reflexivity | vm_compute; reflexivity
          | vm_compute; reflexivity |];
          split; [exact H1|split; [exact H2|exact H3]]
      end
  end.
Defined.

(** The overflow of an integer SQLite cannot hold is such a failure. *)
Example overflow_rolls_back :
  let wb := [ sheet "Encounter Types" [ [CStr "type"]; [CStr "Combat"] ];
              sheet "Encounter - Combat"
                [ [CStr "weight"; CStr "result"]; [CStr "1e30"; CStr "titan"] ];
              sheet "Reward - Combat" [ [CStr "result"]; [CStr "gold"] ] ] in
  exists c',
    import_workbook_bytes 7 wb "t1" (connect sample_db no_fault)
    = (Val (None, [storage_error overflow]), c')
    /\ committed c' = sample_db.
Proof. eexists. split; vm_compute; reflexivity. Qed.

(** ** A sheet with one of the two range columns *)

(** C2 fails on a sheet that has a [min] column, no [max] column and a data
    row: [_detect_mode] records the error and returns range mode,
    [_validate_ranges] then looks up the missing column, and the import
    raises [KeyError] instead of returning the errors. *)
Lemma single_bound_column_raises :
  (let '(hm, data) := _read_sheet_rows
                        (sheet "Encounter Types"
                           [ [CStr "type"; CStr "min"]; [CStr "Combat"; CInt 1] ]) in
   _detect_mode "Encounter Types" hm data
   = Val (ROLL_RANGE,
          [err "Encounter Types" None
             "Range mode requires both 'min' and 'max' columns."]))
  /\ forall g u c,
       import_workbook_bytes g single_bound_wb u c = (Exc (KeyError "max"), c).
Proof.
  split; [vm_compute; reflexivity|].
  intros g u c. apply import_raises_in_phase1. vm_compute. reflexivity.
Qed.

(** When phase 1 does not raise, C2 holds: with any error the import runs
    nothing on the connection and returns the errors of phase 1. *)
Lemma validation_errors_commit_nothing g wb u c errors :
  validation_errors wb = Val errors -> errors <> [] ->
  import_workbook_bytes g wb u c = (Val (None, errors), c).
Proof. apply import_rejects. Qed.

(** A workbook without the [Encounter - X] sheet of a declared type [X]. *)
Example missing_encounter_sheet :
  let wb := [ sheet "Encounter Types" [ [CStr "type"]; [CStr "Combat"] ];
              sheet "Reward - Combat" [ [CStr "result"]; [CStr "gold"] ] ] in
  forall c,
    import_workbook_bytes 7 wb "t1" c
    = (Val (None, [err "Encounter - Combat" None
                     "Missing tab for encounter type 'Combat'."]), c).
Proof.
  intros wb c. apply import_rejects; [vm_compute; reflexivity|discriminate].
Qed.

(** ** What a committed import leaves in the store *)

Lemma execute_val ok upd c c' :
  execute ok upd c = (Val tt, c') ->
  working c' = upd (working c) /\ committed c' = committed c.
Proof.
  unfold execute. destruct (negb ok); [discriminate|].
  destruct (fault c (clock c)); [discriminate|]. intros [= <-].
  split; reflexivity.
Qed.

Lemma for_eachM_val {A} (body : A -> DBM unit) (step : DB -> A -> DB) l :
  (forall a c c', In a l -> body a c = (Val tt, c') -> working c' = step (working c) a) ->
  forall c c', for_eachM body l c = (Val tt, c') ->
               working c' = fold_left step l (working c).
Proof.
  induction l as [|a t IH]; intros Hb c c'; simpl.
  - now intros [= <-].
  - intros H. apply bindM_val in H as ([] & c1 & H1 & H).
    apply IH in H; [|intros; eapply Hb; eauto; now right].
    rewrite H. f_equal. eapply Hb; eauto. now left.
Qed.

Lemma insert_entries_val id entries c c' :
  insert_entries id entries c = (Val tt, c') ->
  working c' =
    {| db_region := db_region (working c);
       db_table_def := db_table_def (working c);
       db_table_entry := db_table_entry (working c) ++ entry_rows id entries;
       db_guild_config := db_guild_config (working c) |}.
Proof.
  unfold insert_entries, entry_rows. generalize (enumerate 0 entries) as l.
  intros l H.
  apply for_eachM_val with
    (step := fun db ie => Sql.insert_table_entry (entry_row id (fst ie) (snd ie)) db)
    in H.
  - rewrite H. clear H. generalize (working c) as db.
    induction l as [|a t IH]; intros db; simpl.
    + rewrite app_nil_r. now destruct db.
    + rewrite IH. unfold Sql.insert_table_entry. simpl.
      now rewrite <- app_assoc.
  - intros [i e] c0 c0' _ H0. now apply execute_val in H0 as [H0 _].
Qed.

Lemma insert_table_val g u grp rid ty mode mr c id c' :
  insert_table g u grp rid ty mode mr c = (Val id, c') ->
  id = Sql.next_rowid (working c)
  /\ working c' =
       Sql.insert_table_def
         {| td_id := id; td_guild := g; td_group_key := grp; td_region_id := rid;
            td_type_key := ty; td_roll_mode := mode; td_max_roll := mr;
            td_updated_at := u |} (working c).
Proof.
  unfold insert_table. intros H. apply bindM_val in H as ([] & c1 & H1 & H).
  injection H as <- <-. apply execute_val in H1 as [H1 _]. split; [reflexivity|exact H1].
Qed.

Lemma insert_spec_val g u (s : TableSpec) c id c1 c' :
  insert_table g u (ts_group s) (ts_region s) (ts_type s) (ts_mode s) (ts_max_roll s) c
  = (Val id, c1) ->
  insert_entries id (ts_entries s) c1 = (Val tt, c') ->
  working c' = add_table g u (working c) s.
Proof.
  intros H1 H2. apply insert_table_val in H1 as [-> H1].
  apply insert_entries_val in H2. rewrite H2, H1. reflexivity.
Qed.

Lemma insert_typed_val g u grp rid tables t c c' :
  insert_typed g u grp rid tables t c = (Val tt, c') ->
  exists tbl, dict_get tables t = Val tbl
              /\ working c' = add_table g u (working c) (typed_spec grp rid t tbl).
Proof.
  unfold insert_typed. intros H. apply bindM_val in H as (tbl & c0 & H0 & H).
  unfold lift in H0. injection H0 as H0 <-.
  apply bindM_val in H as (id & c1 & H1 & H). exists tbl. split; [assumption|].
  eapply (@insert_spec_val g u (typed_spec grp rid t tbl)); eassumption.
Qed.

Lemma typed_loop_val g u blob types :
  forall acc c3 c',
    for_eachM (fun t =>
        bindM (insert_typed g u "encounter" (rb_region_id blob) (rb_enc_tables blob) t)
          (fun _ => insert_typed g u "reward" (rb_region_id blob)
                      (rb_rew_tables blob) t)) types c3 = (Val tt, c') ->
    exists typed,
      for_each (fun acc t =>
          bindR (dict_get (rb_enc_tables blob) t) (fun enc =>
          bindR (dict_get (rb_rew_tables blob) t) (fun rew =>
          Val (acc ++ [typed_spec "encounter" (rb_region_id blob) t enc;
                       typed_spec "reward" (rb_region_id blob) t rew]))))
        types acc = Val (acc ++ typed)
      /\ working c' = fold_left (add_table g u) typed (working c3).
Proof.
  induction types as [|t l IH]; intros acc c3 c'; simpl.
  - intros [= <-]. exists []. now rewrite app_nil_r.
  - intros H. apply bindM_val in H as ([] & c4 & H4 & H).
    apply bindM_val in H4 as ([] & c5 & H5 & H6).
    apply insert_typed_val in H5 as (enc & He & Hw5).
    apply insert_typed_val in H6 as (rew & Hr & Hw6).
    rewrite He, Hr. cbn [bindR].
    apply (IH (acc ++ [typed_spec "encounter" (rb_region_id blob) t enc;
                       typed_spec "reward" (rb_region_id blob) t rew])) in H
      as (typed & Hf & Hw).
    exists ([typed_spec "encounter" (rb_region_id blob) t enc;
             typed_spec "reward" (rb_region_id blob) t rew] ++ typed).
    rewrite app_assoc. split; [exact Hf|].
    rewrite Hw, Hw6, Hw5. reflexivity.
Qed.

Lemma insert_region_blob_val wb g u blob c c' :
  insert_region_blob wb g u blob c = (Val tt, c') ->
  exists specs, blob_specs wb blob = Val specs
                /\ working c' = fold_left (add_table g u) specs (working c).
Proof.
  unfold insert_region_blob, blob_specs. intros H.
  apply bindM_val in H as (id & c1 & H1 & H).
  apply bindM_val in H as (tes & c2 & H2 & H). unfold lift in H2.
  injection H2 as H2 <-. rewrite H2. cbn [bindR].
  apply bindM_val in H as ([] & c3 & H3 & H).
  pose proof (@insert_spec_val g u
                {| ts_group := "encounter_type"; ts_region := rb_region_id blob;
                   ts_type := None; ts_mode := et_mode (rb_enc_type blob);
                   ts_max_roll := et_max_roll (rb_enc_type blob);
                   ts_entries := tes |} c id c1 c3 H1 H3) as Hw.
  apply typed_loop_val with (acc := []) in H as (typed & Hf & Hw').
  rewrite Hf. cbn [bindR app]. eexists. split; [reflexivity|].
  cbn [fold_left]. rewrite Hw', Hw. reflexivity.
Qed.

Lemma insert_blobs_val wb g u blobs :
  forall c c',
    for_eachM (insert_region_blob wb g u) blobs c = (Val tt, c') ->
    exists specs, all_specs wb blobs = Val specs
                  /\ working c' = fold_left (add_table g u) specs (working c).
Proof.
  induction blobs as [|b t IH]; intros c c'; simpl.
  - intros [= <-]. exists []. split; reflexivity.
  - intros H. apply bindM_val in H as ([] & c1 & H1 & H).
    apply insert_region_blob_val in H1 as (s & Hs & Hw1).
    apply IH in H as (r & Hr & Hw). rewrite Hs, Hr. cbn [bindR].
    exists (s ++ r). split; [reflexivity|].
    rewrite fold_left_app, Hw, Hw1. reflexivity.
Qed.

Lemma insert_regions_val g regions c c' :
  insert_regions g regions c = (Val tt, c') ->
  working c' =
    {| db_region := db_region (working c) ++ region_rows g regions;
       db_table_def := db_table_def (working c);
       db_table_entry := db_table_entry (working c);
       db_guild_config := db_guild_config (working c) |}.
Proof.
  unfold insert_regions, region_rows. generalize (enumerate 0 regions) as l.
  intros l H.
  apply for_eachM_val with
    (step := fun db ir =>
       Sql.insert_region {| rg_guild := g; rg_region_id := fst (snd ir);
                            rg_region_name := snd (snd ir);
                            rg_sort_order := Z.of_nat (fst ir) |} db) in H.
  - rewrite H. clear H. generalize (working c) as db.
    induction l as [|a t IH]; intros db; simpl.
    + rewrite app_nil_r. now destruct db.
    + rewrite IH. unfold Sql.insert_region. simpl. now rewrite <- app_assoc.
  - intros [i [rid name]] c0 c0' _ H0. now apply execute_val in H0 as [H0 _].
Qed.

Lemma commit_val c c' :
  commit c = (Val tt, c') -> committed c' = working c /\ txn c' = None.
Proof.
  unfold commit, working. destruct (fault c (clock c)); [discriminate|].
  destruct (txn c) eqn:E; intros [= <-]; simpl; auto.
Qed.

Lemma replace_tenant_store wb g u regions rm st c counts c' :
  replace_tenant wb g u regions rm st c = (Val counts, c') ->
  exists specs,
    all_specs wb (p_parsed st) = Val specs
    /\ committed c' = replaced g u regions rm specs (working c)
    /\ txn c' = None.
Proof.
  rewrite replace_tenant_split. intros H.
  apply bindM_val in H as ([] & c5 & Hs & H).
  apply bindM_val in H as ([] & c6 & Hc & H). injection H as _ <-.
  apply commit_val in Hc as [Hc Ht]. unfold replace_statements in Hs.
  apply bindM_val in Hs as ([] & c1 & H1 & Hs). apply execute_val in H1 as [H1 _].
  apply bindM_val in Hs as ([] & c2 & H2 & Hs). apply execute_val in H2 as [H2 _].
  apply bindM_val in Hs as ([] & c3 & H3 & Hs). apply execute_val in H3 as [H3 _].
  apply bindM_val in Hs as ([] & c4 & H4 & Hs).
  apply insert_blobs_val in Hs as (specs & Hsp & Hw).
  exists specs. split; [assumption|]. split; [|assumption].
  rewrite Hc, Hw. unfold replaced. f_equal. unfold cleared.
  rewrite <- H1, <- H2, <- H3. destruct rm.
  - apply insert_regions_val in H4. exact H4.
  - injection H4 as <-. rewrite app_nil_r. now destruct (working c3).
Qed.

(** A successful import, end to end. *)
Lemma import_success_store g wb u c counts errors c' :
  import_workbook_bytes g wb u c = (Val (Some counts, errors), c') ->
  exists regions rm st specs,
    phase1 wb = Val (Parsed regions rm st) /\ p_errors st = []
    /\ all_specs wb (p_parsed st) = Val specs
    /\ committed c' = replaced g u regions rm specs (committed c)
    /\ txn c' = None
    /\ counts = import_counts regions rm st /\ errors = [].
Proof.
  intros H. apply import_success in H as (regions & rm & st & c1 & Hp & He & Hb & Hr & ->).
  pose proof (replace_tenant_val _ _ _ _ _ _ _ Hr) as Hc.
  apply replace_tenant_store in Hr as (specs & Hs & Hcm & Ht).
  exists regions, rm, st, specs. repeat (split; [assumption|]).
  split; [|auto]. rewrite Hcm. f_equal.
  apply begin_val in Hb as (_ & _ & Hb). unfold working. now rewrite Hb.
Qed.

(** ** Sheets in closed form, all three modes *)

Lemma header_mode_cases hm mode :
  header_mode hm = Some mode ->
  (mode = ROLL_RANGE /\ hm_mem "min" hm = true /\ hm_mem "max" hm = true)
  \/ (mode = ROLL_WEIGHT /\ hm_mem "min" hm = false /\ hm_mem "max" hm = false
      /\ hm_mem "weight" hm = true)
  \/ (mode = ROLL_UNIFORM /\ hm_mem "min" hm = false /\ hm_mem "max" hm = false
      /\ hm_mem "weight" hm = false).
Proof.
  unfold header_mode.
  destruct (hm_mem "min" hm), (hm_mem "max" hm), (hm_mem "weight" hm); simpl;
    intros [= <-]; auto 10.
Qed.

Lemma detect_mode_paired tab hm data mode :
  header_mode hm = Some mode ->
  _detect_mode tab hm data
  = Val (mode, if String.eqb mode ROLL_RANGE then range_errors tab hm data
               else if String.eqb mode ROLL_WEIGHT then weight_errors tab hm data
               else []).
Proof.
  intros H. apply header_mode_cases in H
    as [(-> & Hmin & Hmax)|[(-> & Hmin & Hmax & Hw)|(-> & Hmin & Hmax & Hw)]].
  - now rewrite detect_mode_range.
  - now rewrite detect_mode_weight.
  - unfold _detect_mode. now rewrite Hmin, Hmax, Hw.
Qed.

Lemma detect_mode_unpaired tab hm data :
  header_mode hm = None ->
  _detect_mode tab hm data
  = Val (ROLL_RANGE,
         [err tab None "Range mode requires both 'min' and 'max' columns."]).
Proof.
  unfold header_mode, _detect_mode.
  destruct (hm_mem "min" hm), (hm_mem "max" hm), (hm_mem "weight" hm); simpl;
    try discriminate; reflexivity.
Qed.

(** The loops over the rows, for either payload column. *)

Lemma fold_pair_map {A S} (f : A -> list Entry) (proj : Entry -> S) l z acc :
  fold_left (fun st a => (fold_left max_step (f a) (fst st), snd st ++ map proj (f a)))
            l (z, acc)
  = (fold_left max_step (flat_map f l) z, acc ++ map proj (flat_map f l)).
Proof.
  revert z acc; induction l as [|a t IH]; intros z acc; simpl.
  - now rewrite app_nil_r.
  - rewrite IH, List.fold_left_app, map_app, app_assoc. reflexivity.
Qed.

Lemma fold_app_map {A S} (f : A -> list Entry) (proj : Entry -> S) l acc :
  fold_left (fun st a => st ++ map proj (f a)) l acc = acc ++ map proj (flat_map f l).
Proof.
  revert acc; induction l as [|a t IH]; intros acc; simpl.
  - now rewrite app_nil_r.
  - rewrite IH, map_app, app_assoc. reflexivity.
Qed.

Lemma rows_range_pure {S} kind hm (data : DataRows) (proj : Entry -> S)
      (body : Z * list S -> nat * Row -> Res (Z * list S)) :
  hm_mem kind hm = true -> hm_mem "min" hm = true -> hm_mem "max" hm = true ->
  (forall st ir,
      body st ir =
        bindR (cell_at hm (snd ir) kind) (fun ct =>
          let t := _cell_str ct in
          if String.eqb t "" then Val st
          else
            bindR (cell_at hm (snd ir) "min") (fun cmi =>
            bindR (cell_at hm (snd ir) "max") (fun cma =>
              match _to_int cmi, _to_int cma with
              | Some mi, Some ma =>
                  Val (Z.max (fst st) ma, snd st ++ [proj (range_entry mi ma t)])
              | _, _ => Val st
              end)))) ->
  for_each body data (0, [])
  = Val (range_max (range_entries kind hm data),
         map proj (range_entries kind hm data)).
Proof.
  intros Hk Hmin Hmax Hb.
  erewrite for_each_pure with
    (g := fun st ir => (fold_left max_step (range_row_entries kind hm ir) (fst st),
                        snd st ++ map proj (range_row_entries kind hm ir))).
  - rewrite fold_pair_map. reflexivity.
  - intros [mr acc] [row_no r] _. rewrite Hb. simpl.
    rewrite cell_at_mem by assumption. unfold range_row_entries. simpl.
    destruct (String.eqb _ ""); [now rewrite app_nil_r|].
    rewrite !cell_at_mem by assumption. simpl.
    destruct (_to_int (cell_of hm r "min")) as [mi|]; [|now rewrite app_nil_r].
    destruct (_to_int (cell_of hm r "max")) as [ma|]; [|now rewrite app_nil_r].
    reflexivity.
Qed.

Lemma rows_weight_pure {S} kind hm (data : DataRows) (proj : Entry -> S)
      (body : list S -> nat * Row -> Res (list S)) :
  hm_mem kind hm = true -> hm_mem "weight" hm = true ->
  (forall st ir,
      body st ir =
        bindR (cell_at hm (snd ir) kind) (fun ct =>
          let t := _cell_str ct in
          if String.eqb t "" then Val st
          else
            bindR (cell_at hm (snd ir) "weight") (fun cw =>
              match _to_int cw with
              | Some w => if w <=? 0 then Val st
                          else Val (st ++ [proj (weight_entry w t)])
              | None => Val st
              end))) ->
  for_each body data [] = Val (map proj (weight_entries kind hm data)).
Proof.
  intros Hk Hw Hb.
  erewrite for_each_pure with
    (g := fun st ir => st ++ map proj (weight_row_entries kind hm ir)).
  - rewrite fold_app_map. reflexivity.
  - intros acc [row_no r] _. rewrite Hb. simpl.
    rewrite cell_at_mem by assumption. unfold weight_row_entries. simpl.
    destruct (String.eqb _ ""); [now rewrite app_nil_r|].
    rewrite cell_at_mem by assumption. simpl.
    destruct (_to_int (cell_of hm r "weight")) as [w|]; [|now rewrite app_nil_r].
    destruct (w <=? 0); [now rewrite app_nil_r|reflexivity].
Qed.

Lemma rows_uniform_pure {S} kind hm (data : DataRows) (proj : Entry -> S)
      (body : list S -> nat * Row -> Res (list S)) :
  hm_mem kind hm = true ->
  (forall st ir,
      body st ir =
        bindR (cell_at hm (snd ir) kind) (fun ct =>
          let t := _cell_str ct in
          if String.eqb t "" then Val st
          else Val (st ++ [proj (uniform_entry t)]))) ->
  for_each body data [] = Val (map proj (uniform_entries kind hm data)).
Proof.
  intros Hk Hb.
  erewrite for_each_pure with
    (g := fun st ir => st ++ map proj (uniform_row_entries kind hm ir)).
  - rewrite fold_app_map. reflexivity.
  - intros acc [row_no r] _. rewrite Hb. simpl.
    rewrite cell_at_mem by assumption. unfold uniform_row_entries. simpl.
    destruct (String.eqb _ ""); [now rewrite app_nil_r|reflexivity].
Qed.

Lemma map_id_entries (l : list Entry) : map (fun e => e) l = l.
Proof. apply map_id. Qed.

Lemma result_rows_uniform_pure hm data :
  hm_mem "result" hm = true ->
  result_rows_uniform hm data = Val (uniform_entries "result" hm data).
Proof.
  intros Hr. unfold result_rows_uniform.
  rewrite <- (map_id_entries (uniform_entries "result" hm data)).
  apply rows_uniform_pure; [assumption|]. intros st [row_no r]. reflexivity.
Qed.

Lemma type_rows_range_pure hm data :
  hm_mem "type" hm = true -> hm_mem "min" hm = true -> hm_mem "max" hm = true ->
  type_rows_range hm data
  = Val (range_max (range_entries "type" hm data),
         map e_result (range_entries "type" hm data)).
Proof.
  intros Ht Hmin Hmax. unfold type_rows_range.
  apply rows_range_pure; try assumption. intros [mr types] [row_no r]. reflexivity.
Qed.

Lemma type_rows_weight_pure hm data :
  hm_mem "type" hm = true -> hm_mem "weight" hm = true ->
  type_rows_weight hm data = Val (map e_result (weight_entries "type" hm data)).
Proof.
  intros Ht Hw. unfold type_rows_weight.
  apply rows_weight_pure; try assumption. intros st [row_no r]. reflexivity.
Qed.

Lemma type_rows_uniform_pure hm data :
  hm_mem "type" hm = true ->
  type_rows_uniform hm data = Val (map e_result (uniform_entries "type" hm data)).
Proof.
  intros Ht. unfold type_rows_uniform.
  apply rows_uniform_pure; try assumption. intros st [row_no r]. reflexivity.
Qed.

Lemma mode_three mode hm : header_mode hm = Some mode ->
  mode = ROLL_RANGE \/ mode = ROLL_WEIGHT \/ mode = ROLL_UNIFORM.
Proof.
  intros H. apply header_mode_cases in H as [(-> & _)|[(-> & _)|(-> & _)]]; auto.
Qed.

Lemma parse_result_tab_paired wb tab ws hm data mode :
  Xl.get_sheet wb tab = Val ws ->
  _read_sheet_rows ws = (hm, data) ->
  hm_mem "result" hm = true ->
  header_mode hm = Some mode ->
  let entries := mode_entries mode "result" hm data in
  _parse_result_tab wb tab
  = Val (mode, entries, mode_max_roll mode entries,
         mode_errors mode tab hm data ++ no_results tab entries).
Proof.
  intros Hg Hr Hres Hm entries. subst entries.
  apply header_mode_cases in Hm
    as [(-> & Hmin & Hmax)|[(-> & Hmin & Hmax & Hw)|(-> & Hmin & Hmax & Hw)]].
  - erewrite parse_result_tab_range by eassumption. reflexivity.
  - erewrite parse_result_tab_weight by eassumption. reflexivity.
  - unfold _parse_result_tab.
    assert (Hs : Xl.has_sheet wb tab = true) by (apply has_sheet_get; eauto).
    rewrite Hs, Hg. simpl. rewrite Hr, Hres. simpl.
    unfold _detect_mode. rewrite Hmin, Hmax, Hw. simpl.
    rewrite result_rows_uniform_pure by assumption. simpl.
    unfold mode_entries, no_results. simpl.
    destruct (uniform_entries "result" hm data); reflexivity.
Qed.

Lemma parse_type_tab_paired wb tab ws hm data mode :
  Xl.get_sheet wb tab = Val ws ->
  _read_sheet_rows ws = (hm, data) ->
  hm_mem "type" hm = true ->
  header_mode hm = Some mode ->
  let entries := mode_entries mode "type" hm data in
  let types := dedupe [] (map e_result entries) in
  _parse_type_tab wb tab
  = Val (mode, types, mode_max_roll mode entries,
         mode_errors mode tab hm data ++ no_types tab types).
Proof.
  intros Hg Hr Ht Hm entries types. subst types entries.
  unfold _parse_type_tab.
  assert (Hs : Xl.has_sheet wb tab = true) by (apply has_sheet_get; eauto).
  rewrite Hs, Hg. simpl. rewrite Hr, Ht. simpl.
  rewrite (@detect_mode_paired tab hm data mode Hm). cbn [bindR].
  apply header_mode_cases in Hm
    as [(-> & Hmin & Hmax)|[(-> & Hmin & Hmax & Hw)|(-> & Hmin & Hmax & Hw)]].
  - simpl (_ =? _)%string. cbv iota.
    rewrite validate_ranges_pure by assumption. cbn [bindR].
    rewrite type_rows_range_pure by assumption. cbn [bindR].
    unfold mode_entries, mode_errors, mode_max_roll, max_roll_of, no_types.
    simpl (_ =? _)%string. cbv iota.
    destruct (dedupe [] (map e_result (range_entries "type" hm data)));
      [reflexivity|now rewrite app_nil_r].
  - simpl (_ =? _)%string. cbv iota.
    rewrite type_rows_weight_pure by assumption. cbn [bindR].
    unfold mode_entries, mode_errors, mode_max_roll, no_types.
    simpl (_ =? _)%string. cbv iota.
    destruct (dedupe [] (map e_result (weight_entries "type" hm data)));
      [reflexivity|now rewrite app_nil_r].
  - simpl (_ =? _)%string. cbv iota.
    rewrite type_rows_uniform_pure by assumption. cbn [bindR].
    unfold mode_entries, mode_errors, mode_max_roll, no_types.
    simpl (_ =? _)%string. cbv iota.
    destruct (dedupe [] (map e_result (uniform_entries "type" hm data))); reflexivity.
Qed.

Lemma build_type_entries_paired wb rid ws hm data mode :
  Xl.get_sheet wb (_enc_type_tab rid) = Val ws ->
  _read_sheet_rows ws = (hm, data) ->
  hm_mem "type" hm = true ->
  header_mode hm = Some mode ->
  build_type_entries_from_sheet wb rid = Val (mode_entries mode "type" hm data).
Proof.
  intros Hg Hr Ht Hm. unfold build_type_entries_from_sheet.
  rewrite Hg. cbn [bindR]. rewrite Hr.
  rewrite (@detect_mode_paired (_enc_type_tab rid) hm data mode Hm). cbn [bindR].
  rewrite <- (map_id_entries (mode_entries mode "type" hm data)).
  apply header_mode_cases in Hm
    as [(-> & Hmin & Hmax)|[(-> & Hmin & Hmax & Hw)|(-> & Hmin & Hmax & Hw)]];
    unfold mode_entries; simpl (_ =? _)%string; cbv iota.
  - erewrite for_each_pure with
      (g := fun st ir => st ++ map (fun e => e) (range_row_entries "type" hm ir)).
    + rewrite fold_app_map. reflexivity.
    + intros acc [row_no r] _. rewrite cell_at_mem by assumption.
      unfold range_row_entries. simpl.
      destruct (String.eqb _ ""); [now rewrite app_nil_r|].
      rewrite !cell_at_mem by assumption. simpl.
      destruct (_to_int (cell_of hm r "min")) as [mi|]; [|now rewrite app_nil_r].
      destruct (_to_int (cell_of hm r "max")) as [ma|]; [|now rewrite app_nil_r].
      reflexivity.
  - apply rows_weight_pure; try assumption. intros st [row_no r]. reflexivity.
  - apply rows_uniform_pure; try assumption. intros st [row_no r]. reflexivity.
Qed.

(** A sheet parsed without errors: what is known of it. *)
Lemma parse_result_tab_inv wb tab mode entries mr :
  _parse_result_tab wb tab = Val (mode, entries, mr, []) ->
  exists ws hm data,
    Xl.get_sheet wb tab = Val ws /\ _read_sheet_rows ws = (hm, data)
    /\ hm_mem "result" hm = true /\ header_mode hm = Some mode
    /\ entries = mode_entries mode "result" hm data /\ entries <> []
    /\ mr = mode_max_roll mode entries
    /\ mode_errors mode tab hm data = [].
Proof.
  intros H. destruct (Xl.has_sheet wb tab) eqn:Hs.
  2: { unfold _parse_result_tab in H. rewrite Hs in H. discriminate. }
  apply has_sheet_get in Hs as [ws Hg].
  destruct (_read_sheet_rows ws) as [hm data] eqn:Hr.
  destruct (hm_mem "result" hm) eqn:Hres.
  2: { unfold _parse_result_tab in H.
       assert (Hs : Xl.has_sheet wb tab = true) by (apply has_sheet_get; eauto).
       rewrite Hs, Hg in H. simpl in H. rewrite Hr, Hres in H. discriminate. }
  destruct (header_mode hm) as [m|] eqn:Hm.
  - rewrite (@parse_result_tab_paired wb tab ws hm data m Hg Hr Hres Hm) in H.
    injection H as <- <- <- He. apply app_eq_nil in He as [He1 He2].
    exists ws, hm, data. repeat (split; [assumption || reflexivity|]).
    split; [|split; [reflexivity|assumption]].
    unfold no_results in He2. destruct (mode_entries m "result" hm data); discriminate.
  - unfold _parse_result_tab in H.
    assert (Hs : Xl.has_sheet wb tab = true) by (apply has_sheet_get; eauto).
    rewrite Hs, Hg in H. simpl in H. rewrite Hr, Hres in H. simpl in H.
    rewrite detect_mode_unpaired in H by assumption. cbn [bindR] in H.
    simpl (_ =? _)%string in H. cbv iota in H.
    apply bindR_val in H as ([[errors es] m] & Ha & H).
    apply bindR_val in Ha as (verrs & _ & Ha).
    apply bindR_val in Ha as ([mr0 ents] & _ & Ha). injection Ha as <- <- <-.
    injection H as _ _ _ H. destruct ents; discriminate.
Qed.

Lemma parse_type_tab_inv wb rid mode types mr :
  _parse_type_tab wb (_enc_type_tab rid) = Val (mode, types, mr, []) ->
  exists ws hm data,
    Xl.get_sheet wb (_enc_type_tab rid) = Val ws /\ _read_sheet_rows ws = (hm, data)
    /\ hm_mem "type" hm = true /\ header_mode hm = Some mode
    /\ types = dedupe [] (map e_result (mode_entries mode "type" hm data))
    /\ types <> []
    /\ mr = mode_max_roll mode (mode_entries mode "type" hm data)
    /\ mode_errors mode (_enc_type_tab rid) hm data = []
    /\ build_type_entries_from_sheet wb rid = Val (mode_entries mode "type" hm data).
Proof.
  intros H. set (tab := _enc_type_tab rid) in *.
  destruct (Xl.has_sheet wb tab) eqn:Hs.
  2: { unfold _parse_type_tab in H. rewrite Hs in H. discriminate. }
  apply has_sheet_get in Hs as [ws Hg].
  destruct (_read_sheet_rows ws) as [hm data] eqn:Hr.
  destruct (hm_mem "type" hm) eqn:Ht.
  2: { unfold _parse_type_tab in H.
       assert (Hs : Xl.has_sheet wb tab = true) by (apply has_sheet_get; eauto).
       rewrite Hs, Hg in H. simpl in H. rewrite Hr, Ht in H. discriminate. }
  destruct (header_mode hm) as [m|] eqn:Hm.
  - rewrite (@parse_type_tab_paired wb tab ws hm data m Hg Hr Ht Hm) in H.
    injection H as <- <- <- He. apply app_eq_nil in He as [He1 He2].
    exists ws, hm, data. repeat (split; [assumption || reflexivity|]).
    split; [|split; [reflexivity|split; [assumption|]]].
    + unfold no_types in He2.
      destruct (dedupe [] (map e_result (mode_entries m "type" hm data))); discriminate.
    + eapply build_type_entries_paired; eassumption.
  - unfold _parse_type_tab in H.
    assert (Hs : Xl.has_sheet wb tab = true) by (apply has_sheet_get; eauto).
    rewrite Hs, Hg in H. simpl in H. rewrite Hr, Ht in H. simpl in H.
    rewrite detect_mode_unpaired in H by assumption. cbn [bindR] in H.
    simpl (_ =? _)%string in H. cbv iota in H.
    apply bindR_val in H as ([[errors es] m] & Ha & H).
    apply bindR_val in Ha as (verrs & _ & Ha).
    apply bindR_val in Ha as ([mr0 ents] & _ & Ha). injection Ha as <- <- <-.
    injection H as _ _ _ H. destruct (dedupe [] ents); discriminate.
Qed.

(** ** The tables a valid workbook holds *)

Lemma dict_get_set_same {V} (d : Dict V) k v : dict_get (dict_set d k v) k = Val v.
Proof.
  unfold dict_get. induction d as [|[k' v'] t IH]; simpl.
  - now rewrite String.eqb_refl.
  - destruct (String.eqb_spec k' k) as [->|Hne]; simpl.
    + now rewrite String.eqb_refl.
    + destruct (String.eqb_spec k' k); [contradiction|]. exact IH.
Qed.

Lemma dict_get_set_other {V} (d : Dict V) k k' v :
  k' <> k -> dict_get (dict_set d k v) k' = dict_get d k'.
Proof.
  intros Hne. unfold dict_get. induction d as [|[k0 v0] t IH]; simpl.
  - destruct (String.eqb_spec k k'); [congruence|reflexivity].
  - destruct (String.eqb_spec k0 k) as [->|Hk]; simpl.
    + destruct (String.eqb_spec k k'); [congruence|reflexivity].
    + destruct (String.eqb_spec k0 k'); [reflexivity|exact IH].
Qed.

Lemma parse_tables_inv wb tab_of types :
  forall errs0 tables0 errs tables,
    for_each (fun '(errors, tables) t =>
        let tb := tab_of t in
        bindR (_parse_result_tab wb tb) (fun x =>
          let '(mode, entries, max_roll, tab_errs) := x in
          Val (errors ++ tab_errs,
               dict_set tables t {| tb_tab := tb; tb_mode := mode;
                                    tb_entries := entries;
                                    tb_max_roll := max_roll |})))
      types (errs0, tables0) = Val (errs, tables) ->
    errs = [] ->
    errs0 = []
    /\ (forall t, In t types ->
                  clean_result wb (tab_of t)
                  /\ dict_get tables t = Val (result_blob wb (tab_of t)))
    /\ (forall t, ~ In t types -> dict_get tables t = dict_get tables0 t).
Proof.
  induction types as [|t l IH]; intros errs0 tables0 errs tables H He.
  - simpl in H. injection H as <- <-. split; [assumption|].
    split; [contradiction|reflexivity].
  - simpl in H. apply bindR_val in H as ([e1 t1] & H1 & H).
    apply bindR_val in H1 as ([[[mode entries] mr] tab_errs] & Hp & H1).
    injection H1 as <- <-.
    apply IH in H as (H0 & Hin & Hout); [|assumption].
    apply app_eq_nil in H0 as [-> ->].
    assert (Hblob : result_blob wb (tab_of t)
                    = {| tb_tab := tab_of t; tb_mode := mode; tb_entries := entries;
                         tb_max_roll := mr |})
      by (unfold result_blob; now rewrite Hp).
    split; [reflexivity|]. split.
    + intros t' [<-|Ht']; [|now apply Hin].
      split; [exists mode, entries, mr; exact Hp|].
      destruct (in_dec string_dec t l) as [Hl|Hl]; [now apply Hin|].
      rewrite (Hout _ Hl), dict_get_set_same. now rewrite Hblob.
    + intros t' Hn. rewrite Hout by (intros Hl; apply Hn; now right).
      apply dict_get_set_other. intros ->. apply Hn. now left.
Qed.

Lemma parse_tables_clean wb tab_of types tables :
  parse_tables wb tab_of types [] = Val ([], tables) ->
  forall t, In t types ->
            clean_result wb (tab_of t)
            /\ dict_get tables t = Val (result_blob wb (tab_of t)).
Proof.
  intros H. unfold parse_tables in H.
  eapply parse_tables_inv in H as (_ & Hin & _); [exact Hin|reflexivity].
Qed.

Lemma parse_tables_errors wb tab_of types errs0 errs tables :
  parse_tables wb tab_of types errs0 = Val (errs, tables) -> errs = [] -> errs0 = [].
Proof.
  intros H He. unfold parse_tables in H.
  now eapply parse_tables_inv in H as (H0 & _ & _).
Qed.

Lemma region_step_inv wb st rid st' :
  region_step wb st rid = Val st' -> p_errors st' = [] ->
  p_errors st = []
  /\ exists blob, p_parsed st' = p_parsed st ++ [blob] /\ region_ok wb rid blob.
Proof.
  intros H He. unfold region_step in H.
  apply bindR_val in H as ([[[mode types] mr] type_errs] & Hp & H).
  destruct type_errs as [|te tes].
  2: { injection H as <-. simpl in He. apply app_eq_nil in He as [_ He]. discriminate. }
  destruct ((p_errors st ++ []) ++ missing_tabs wb rid types) as [|m ms] eqn:Em.
  2: { injection H as <-. simpl in He. discriminate. }
  apply app_eq_nil in Em as [E1 Em]. apply app_eq_nil in E1 as [E1 _].
  apply bindR_val in H as ([errors1 enc] & Henc & H).
  apply bindR_val in H as ([errors2 rew] & Hrew & H).
  destruct errors2 as [|e2 es2].
  2: { injection H as <-. simpl in He. discriminate. }
  pose proof (parse_tables_errors _ _ _ _ Hrew eq_refl) as ->.
  apply bindR_val in H as (ne & _ & H). apply bindR_val in H as (nr & _ & H).
  injection H as <-. simpl. split; [assumption|].
  eexists. split; [reflexivity|].
  exists mode, types, mr. simpl. repeat split; try assumption.
  - eapply parse_tables_clean in Henc as [Hc _]; eauto.
  - eapply parse_tables_clean in Henc as [_ Hc]; eauto.
  - eapply parse_tables_clean in Hrew as [Hc _]; eauto.
  - eapply parse_tables_clean in Hrew as [_ Hc]; eauto.
Qed.

Lemma region_loop_inv wb rids :
  forall st0 st,
    for_each (region_step wb) rids st0 = Val st -> p_errors st = [] ->
    p_errors st0 = []
    /\ exists blobs, p_parsed st = p_parsed st0 ++ blobs
                     /\ Forall2 (region_ok wb) rids blobs.
Proof.
  induction rids as [|rid l IH]; intros st0 st H He; simpl in H.
  - injection H as <-. split; [assumption|]. exists []. split; [|constructor].
    now rewrite app_nil_r.
  - apply bindR_val in H as (st1 & H1 & H).
    apply IH in H as (He1 & blobs & Hp & Hf); [|assumption].
    apply region_step_inv in H1 as (He0 & blob & Hp1 & Hok); [|assumption].
    split; [assumption|]. exists (blob :: blobs). split; [|now constructor].
    rewrite Hp, Hp1, <- app_assoc. reflexivity.
Qed.

Lemma phase1_blobs wb regions rm st :
  phase1 wb = Val (Parsed regions rm st) -> p_errors st = [] ->
  Forall2 (region_ok wb) (region_ids rm regions) (p_parsed st)
  /\ _parse_regions_tab wb = Val (regions, [])
  /\ rm = Xl.has_sheet wb "Regions".
Proof.
  intros Hp He. unfold phase1 in Hp.
  destruct (_parse_regions_tab wb) as [[regs errs]|e] eqn:Er; [|discriminate].
  cbn [bindR] in Hp. unfold region_ids. destruct (Xl.has_sheet wb "Regions").
  - destruct errs as [|e0 errs']; [|discriminate].
    destruct regs as [|r0 regs']; [discriminate|].
    match type of Hp with context [for_each ?f ?l ?s] =>
      destruct (for_each f l s) as [st1|e] eqn:E end; [|discriminate].
    cbn [bindR] in Hp. injection Hp as <- <- <-.
    apply region_loop_inv in E as (_ & blobs & Hb & Hf); [|assumption].
    simpl in Hb. subst. auto.
  - match type of Hp with context [for_each ?f ?l ?s] =>
      destruct (for_each f l s) as [st1|e] eqn:E end; [|discriminate].
    cbn [bindR] in Hp. injection Hp as <- <- <-.
    apply region_loop_inv in E as (He0 & blobs & Hb & Hf); [|assumption].
    simpl in Hb, He0. subst. auto.
Qed.

Lemma typed_loop_specs wb blob rid types :
  rb_region_id blob = rid ->
  (forall t, In t types ->
        dict_get (rb_enc_tables blob) t = Val (result_blob wb (_enc_tab rid t))
        /\ dict_get (rb_rew_tables blob) t = Val (result_blob wb (_rew_tab rid t))) ->
  forall acc,
    for_each (fun acc t =>
        bindR (dict_get (rb_enc_tables blob) t) (fun enc =>
        bindR (dict_get (rb_rew_tables blob) t) (fun rew =>
        Val (acc ++ [typed_spec "encounter" (rb_region_id blob) t enc;
                     typed_spec "reward" (rb_region_id blob) t rew]))))
      types acc
    = Val (acc ++ flat_map (typed_specs wb rid) types).
Proof.
  intros Hrid. induction types as [|t l IH]; intros Hd acc; simpl.
  - now rewrite app_nil_r.
  - destruct (Hd t (or_introl eq_refl)) as [He Hr]. rewrite He, Hr. cbn [bindR].
    rewrite IH by (intros; apply Hd; now right).
    rewrite <- app_assoc, Hrid. reflexivity.
Qed.

Lemma region_ok_types wb rid blob :
  region_ok wb rid blob -> et_types (rb_enc_type blob) = types_of wb rid.
Proof.
  intros (mode & types & mr & Hp & _ & _ & _ & _ & Het).
  unfold types_of. now rewrite Hp, Het.
Qed.

Lemma region_ok_valid wb rid blob : region_ok wb rid blob -> region_valid wb rid.
Proof.
  intros (mode & types & mr & Hp & _ & Henc & Hrew & _ & _). split; [eauto|].
  unfold types_of. rewrite Hp. intros t Ht. split; [apply Henc|apply Hrew]; assumption.
Qed.

Lemma region_ok_specs wb rid blob :
  region_ok wb rid blob -> blob_specs wb blob = Val (region_specs wb rid).
Proof.
  intros Hok. pose proof (region_ok_types Hok) as Hty.
  destruct Hok as (mode & types & mr & Hp & _ & Henc & Hrew & Hrid & Het).
  apply parse_type_tab_inv in Hp as Hinv.
  destruct Hinv as (ws & hm & data & _ & _ & _ & _ & _ & _ & _ & _ & Hb).
  unfold blob_specs.
  assert (Hb' : build_type_entries_from_sheet wb (rb_region_id blob)
                = build_type_entries_from_sheet wb rid) by now rewrite Hrid.
  rewrite Hb', Hb. cbn [bindR].
  rewrite (@typed_loop_specs wb blob rid (et_types (rb_enc_type blob)) Hrid).
  - cbn [bindR app]. unfold region_specs, type_spec. rewrite Hty, Hp, Hb, Hrid, Het.
    reflexivity.
  - rewrite Het. simpl. intros t Ht. split; [apply Henc|apply Hrew]; assumption.
Qed.

Lemma all_specs_ok wb rids blobs :
  Forall2 (region_ok wb) rids blobs ->
  all_specs wb blobs = Val (flat_map (region_specs wb) rids).
Proof.
  induction 1 as [|rid blob rids blobs Hok _ IH]; simpl; [reflexivity|].
  rewrite (region_ok_specs Hok), IH. reflexivity.
Qed.

Lemma import_store g wb u c counts errors c' :
  import_workbook_bytes g wb u c = (Val (Some counts, errors), c') ->
  exists regions,
    _parse_regions_tab wb = Val (regions, [])
    /\ (Xl.has_sheet wb "Regions" = true -> regions <> [])
    /\ Forall (region_valid wb) (region_ids (Xl.has_sheet wb "Regions") regions)
    /\ committed c' = imported g u wb regions (committed c)
    /\ txn c' = None.
Proof.
  intros H. apply import_success_store in H
    as (regions & rm & st & specs & Hp & He & Hs & Hc & Ht & _ & _).
  pose proof (phase1_regional _ Hp) as [_ Hne].
  apply phase1_blobs in Hp as (Hf & Hr & ->); [|assumption].
  exists regions. split; [assumption|]. split; [assumption|].
  rewrite (all_specs_ok Hf) in Hs. injection Hs as <-.
  split; [|split; assumption].
  clear - Hf. induction Hf; constructor; [eapply region_ok_valid; eassumption|assumption].
Qed.

(** ** The inserted tables, with their ids *)

Lemma max_id_nonneg defs : 0 <= max_id defs.
Proof. unfold max_id. induction defs; simpl; lia. Qed.

Lemma max_id_app a b : max_id (a ++ b) = Z.max (max_id a) (max_id b).
Proof.
  unfold max_id. induction a as [|x t IH]; simpl.
  - pose proof (max_id_nonneg b). unfold max_id in H. lia.
  - rewrite IH. lia.
Qed.

Lemma max_id_upper defs d : In d defs -> td_id d <= max_id defs.
Proof.
  unfold max_id. induction defs as [|x t IH]; simpl; [contradiction|].
  intros [<-|H]; [lia|]. specialize (IH H). lia.
Qed.

Lemma next_rowid_eq db : Sql.next_rowid db = 1 + max_id (db_table_def db).
Proof. reflexivity. Qed.

Lemma next_rowid_add g u db s :
  Sql.next_rowid (add_table g u db s) = Sql.next_rowid db + 1.
Proof.
  rewrite !next_rowid_eq. unfold add_table. cbn [db_table_def].
  rewrite max_id_app. rewrite next_rowid_eq.
  change (max_id [spec_def g u (1 + max_id (db_table_def db)) s])
    with (Z.max (1 + max_id (db_table_def db)) 0).
  pose proof (max_id_nonneg (db_table_def db)). lia.
Qed.

Lemma fold_add_tables g u specs :
  forall db,
    fold_left (add_table g u) specs db
    = {| db_region := db_region db;
         db_table_def := db_table_def db ++ new_defs g u (Sql.next_rowid db) specs;
         db_table_entry := db_table_entry db ++ new_entries (Sql.next_rowid db) specs;
         db_guild_config := db_guild_config db |}.
Proof.
  induction specs as [|s t IH]; intros db; simpl.
  - unfold new_defs, new_entries. simpl. rewrite !app_nil_r. now destruct db.
  - rewrite IH, next_rowid_add. unfold add_table, new_defs, new_entries. simpl.
    rewrite <- !app_assoc. reflexivity.
Qed.

Lemma in_number base specs id s :
  In (id, s) (number base specs) -> base <= id /\ In s specs.
Proof.
  revert base; induction specs as [|x t IH]; intros base; simpl; [contradiction|].
  intros [[= <- <-]|H]; [split; [lia|now left]|].
  apply IH in H as [H1 H2]. split; [lia|now right].
Qed.

Lemma number_ids_nodup base specs : NoDup (map fst (number base specs)).
Proof.
  revert base; induction specs as [|x t IH]; intros base; simpl; constructor.
  - intros H. apply in_map_iff in H as ([id s] & Hid & Hin). simpl in Hid. subst id.
    apply in_number in Hin as [Hin _]. lia.
  - apply IH.
Qed.

Lemma in_number_inv base specs s :
  In s specs -> exists id, In (id, s) (number base specs).
Proof.
  revert base; induction specs as [|x t IH]; intros base; simpl; [contradiction|].
  intros [<-|H]; [exists base; now left|].
  destruct (IH (base + 1) H) as [id Hid]. exists id. now right.
Qed.

(** ** Looking the inserted tables up *)

Lemma select_table_def_find db g grp rid ty :
  Sql.select_table_def db g grp rid ty = find (key_match g grp rid ty) (db_table_def db).
Proof. reflexivity. Qed.

Lemma is_Z_eq a b : Sql.is_Z a b = true <-> a = b.
Proof.
  destruct a, b; simpl; split; try discriminate; try reflexivity.
  - intros H. apply Z.eqb_eq in H. now subst.
  - intros [= ->]. apply Z.eqb_refl.
Qed.

Lemma is_str_eq a b : Sql.is_str a b = true <-> a = b.
Proof.
  destruct a, b; simpl; split; try discriminate; try reflexivity.
  - intros H. apply String.eqb_eq in H. now subst.
  - intros [= ->]. apply String.eqb_refl.
Qed.

Lemma key_match_spec g u id s g' grp rid ty :
  key_match g' grp rid ty (spec_def g u id s) = true
  <-> g = g' /\ spec_key s = (grp, rid, ty).
Proof.
  unfold key_match, spec_key. simpl.
  rewrite !andb_true_iff, Z.eqb_eq, String.eqb_eq, is_Z_eq, is_str_eq.
  split.
  - intros [[[-> ->] ->] ->]. auto.
  - intros [-> [= -> -> ->]]. auto.
Qed.

Lemma find_app {A} (p : A -> bool) l1 l2 :
  find p (l1 ++ l2) = match find p l1 with Some x => Some x | None => find p l2 end.
Proof.
  induction l1 as [|a t IH]; simpl; [reflexivity|]. destruct (p a); [reflexivity|exact IH].
Qed.

Lemma find_none_iff {A} (p : A -> bool) l :
  find p l = None <-> forall x, In x l -> p x = false.
Proof.
  split; [apply find_none|]. induction l as [|a t IH]; simpl; [reflexivity|].
  intros H. rewrite (H a) by now left. apply IH. intros; apply H; now right.
Qed.

(** Among tables with distinct keys, the one with the key is found. *)
Lemma find_new_def g u base specs id s :
  NoDup (map spec_key specs) ->
  In (id, s) (number base specs) ->
  find (key_match g (ts_group s) (ts_region s) (ts_type s)) (new_defs g u base specs)
  = Some (spec_def g u id s).
Proof.
  unfold new_defs. revert base.
  induction specs as [|x t IH]; intros base Hnd Hin; simpl in *; [contradiction|].
  inversion Hnd as [|? ? Hx Ht]; subst.
  destruct Hin as [[= <- <-]|Hin].
  - assert (H : key_match g (ts_group x) (ts_region x) (ts_type x)
                  (spec_def g u base x) = true)
      by (apply key_match_spec; auto).
    now rewrite H.
  - destruct (key_match g (ts_group s) (ts_region s) (ts_type s) (spec_def g u base x))
      eqn:E.
    + apply key_match_spec in E as [_ E]. exfalso. apply Hx.
      apply in_number in Hin as [_ Hin]. rewrite E.
      change (ts_group s, ts_region s, ts_type s) with (spec_key s).
      now apply in_map.
    + now apply IH.
Qed.

Lemma find_new_def_none g u base specs grp rid ty :
  ~ In (grp, rid, ty) (map spec_key specs) ->
  find (key_match g grp rid ty) (new_defs g u base specs) = None.
Proof.
  intros Hn. apply find_none_iff. intros d Hd. unfold new_defs in Hd.
  apply in_map_iff in Hd as ([id s] & <- & Hin). simpl.
  destruct (key_match g grp rid ty (spec_def g u id s)) eqn:E; [|reflexivity].
  apply key_match_spec in E as [_ E]. exfalso. apply Hn. rewrite <- E.
  apply in_map. now apply in_number in Hin as [_ Hin].
Qed.

(** The rows of one table come back in the order of the entries. *)
Lemma entry_rows_sorted id entries :
  StronglySorted (fun a b => (te_sort_order a <=? te_sort_order b) = true)
                 (entry_rows id entries).
Proof.
  unfold entry_rows. generalize 0%nat as n.
  induction entries as [|e t IH]; intros n; simpl; constructor; [apply IH|].
  apply Forall_forall. intros r Hr.
  apply in_map_iff in Hr as ([i e'] & <- & Hin). simpl.
  apply Z.leb_le.
  assert (Hge : forall A (l : list A) k i x, In (i, x) (enumerate k l) -> (k <= i)%nat).
  { clear. intros A l. induction l as [|a t IH]; intros k i x; simpl; [contradiction|].
    intros [[= <- <-]|H]; [lia|]. apply IH in H. lia. }
  apply Hge in Hin. lia.
Qed.

Lemma entry_rows_table id entries r : In r (entry_rows id entries) -> te_table_id r = id.
Proof.
  unfold entry_rows. intros H. apply in_map_iff in H as ([i e] & <- & _). reflexivity.
Qed.

Lemma filter_all {A} (p : A -> bool) l : (forall x, In x l -> p x = true) -> filter p l = l.
Proof.
  induction l as [|a t IH]; simpl; intros H; [reflexivity|].
  rewrite (H a) by now left. f_equal. apply IH. intros; apply H; now right.
Qed.

Lemma filter_none {A} (p : A -> bool) l :
  (forall x, In x l -> p x = false) -> filter p l = [].
Proof.
  induction l as [|a t IH]; simpl; intros H; [reflexivity|].
  rewrite (H a) by now left. apply IH. intros; apply H; now right.
Qed.

Lemma filter_new_entries base specs id s :
  In (id, s) (number base specs) ->
  filter (fun e => te_table_id e =? id) (new_entries base specs)
  = entry_rows id (ts_entries s).
Proof.
  unfold new_entries. revert base.
  induction specs as [|x t IH]; intros base Hin; simpl in *; [contradiction|].
  rewrite filter_app. destruct Hin as [[= <- <-]|Hin].
  - rewrite filter_all
      by (intros r Hr; apply entry_rows_table in Hr; now apply Z.eqb_eq).
    rewrite filter_none; [now rewrite app_nil_r|].
    intros r Hr. apply in_flat_map in Hr as ([id' s'] & Hin' & Hr). simpl in Hr.
    apply entry_rows_table in Hr. apply in_number in Hin' as [Hge _].
    apply Z.eqb_neq. lia.
  - rewrite filter_none.
    + simpl. now apply IH.
    + intros r Hr. apply entry_rows_table in Hr. apply in_number in Hin as [Hge _].
      apply Z.eqb_neq. lia.
Qed.

(** ** Stores the program can produce *)

Lemma tables_ok_empty : tables_ok empty_db.
Proof. constructor; simpl; try contradiction. constructor. Qed.

Lemma in_entry_rows id entries r :
  In r (entry_rows id entries) ->
  exists i e, In e entries /\ r = entry_row id i e.
Proof.
  unfold entry_rows. generalize 0%nat as n.
  induction entries as [|x t IH]; intros n; simpl; [contradiction|].
  intros [<-|H]; [exists n, x; auto|].
  apply IH in H as (i & e & He & ->). exists i, e. auto.
Qed.

Lemma entry_rows_nonempty id entries : entries <> [] -> entry_rows id entries <> [].
Proof. destruct entries; [contradiction|discriminate]. Qed.

Lemma NoDup_snoc {A} (l : list A) x : ~ In x l -> NoDup l -> NoDup (l ++ [x]).
Proof.
  intros Hx Hl. induction Hl as [|a t Ha Ht IH]; simpl.
  - constructor; [intros []|constructor].
  - constructor.
    + intros H. apply in_app_or in H as [H|[<-|[]]]; [contradiction|].
      apply Hx. now left.
    + apply IH. intros H. apply Hx. now right.
Qed.

Lemma tables_ok_add g u db s : tables_ok db -> spec_ok s -> tables_ok (add_table g u db s).
Proof.
  intros [Hfk Hids Hne Hmr Hw] (Se & Sm & Sw).
  assert (Hfresh : forall d, In d (db_table_def db) -> td_id d < Sql.next_rowid db).
  { intros d Hd. apply max_id_upper in Hd. rewrite next_rowid_eq. lia. }
  constructor; unfold add_table; cbn [db_table_def db_table_entry].
  - intros e He. apply in_app_or in He as [He|He].
    + destruct (Hfk e He) as (d & Hd & Hid). exists d. split; [|assumption].
      apply in_or_app. now left.
    + apply entry_rows_table in He. eexists. split; [apply in_or_app; right; now left|].
      simpl. now rewrite He.
  - rewrite map_app. simpl. apply NoDup_snoc; [|assumption].
    intros Hin. apply in_map_iff in Hin as (d & Hid & Hd). apply Hfresh in Hd. lia.
  - intros d Hd. apply in_app_or in Hd as [Hd|[<-|[]]].
    + destruct (Hne d Hd) as (e & He & Hid). exists e. split; [|assumption].
      apply in_or_app. now left.
    + cbn [td_id spec_def].
      destruct (entry_rows (Sql.next_rowid db) (ts_entries s)) as [|r l] eqn:E.
      * exfalso. eapply entry_rows_nonempty; eassumption.
      * exists r. split; [apply in_or_app; right; now left|].
        eapply entry_rows_table. rewrite E. now left.
  - intros d Hd. apply in_app_or in Hd as [Hd|[<-|[]]]; [now apply Hmr|exact Sm].
  - intros d e Hd Hmode He Hid. apply in_app_or in Hd as [Hd|[<-|[]]];
      apply in_app_or in He as [He|He].
    + eapply Hw; eassumption.
    + apply entry_rows_table in He. apply Hfresh in Hd. lia.
    + simpl in Hid. destruct (Hfk e He) as (d' & Hd' & Hid'). apply Hfresh in Hd'. lia.
    + simpl in Hmode. apply in_entry_rows in He as (i & e' & He' & ->). simpl.
      now apply Sw.
Qed.

Lemma tables_ok_ext db db' :
  db_table_def db' = db_table_def db -> db_table_entry db' = db_table_entry db ->
  tables_ok db -> tables_ok db'.
Proof.
  intros Hd He [Hfk Hids Hne Hmr Hw]. constructor; rewrite ?Hd, ?He; assumption.
Qed.

Lemma tables_ok_delete g db : tables_ok db -> tables_ok (Sql.delete_table_defs g db).
Proof.
  intros [Hfk Hids Hne Hmr Hw]. unfold Sql.delete_table_defs.
  constructor; cbn [db_table_def db_table_entry].
  - intros e He. apply filter_In in He as [He Hk].
    destruct (Hfk e He) as (d & Hd & Hid). exists d. split; [|assumption].
    apply filter_In. split; [assumption|].
    destruct (td_guild d =? g) eqn:Eg; [|reflexivity].
    exfalso. apply negb_true_iff in Hk.
    assert (Hx : existsb (fun d0 => td_id d0 =? te_table_id e)
                   (filter (fun d0 => td_guild d0 =? g) (db_table_def db)) = true).
    { apply existsb_exists. exists d. split; [apply filter_In; auto|].
      now apply Z.eqb_eq. }
    congruence.
  - clear - Hids. induction (db_table_def db) as [|d l IH]; simpl; [constructor|].
    inversion Hids; subst. destruct (negb (td_guild d =? g)); simpl; [|now apply IH].
    constructor; [|now apply IH].
    intros H. apply in_map_iff in H as (d' & Hid & Hd'). apply filter_In in Hd' as [Hd' _].
    match goal with H : ~ In _ _ |- _ => apply H end. rewrite <- Hid. now apply in_map.
  - intros d Hd. apply filter_In in Hd as [Hd Hk].
    destruct (Hne d Hd) as (e & He & Hid). exists e. split; [|assumption].
    apply filter_In. split; [assumption|]. apply negb_true_iff.
    destruct (existsb _ _) eqn:Ex; [|reflexivity].
    apply existsb_exists in Ex as (d' & Hd' & Hid'). apply Z.eqb_eq in Hid'.
    apply filter_In in Hd' as [Hd' Hg'].
    assert (d' = d).
    { clear - Hids Hd Hd' Hid Hid'. assert (Heq : td_id d' = td_id d) by congruence.
      clear Hid Hid'. induction (db_table_def db) as [|x l IH]; [contradiction|].
      inversion Hids as [|? ? Hx Hl]; subst.
      destruct Hd as [->|Hd], Hd' as [->|Hd']; auto.
      - exfalso. apply Hx. rewrite <- Heq. now apply in_map.
      - exfalso. apply Hx. rewrite Heq. now apply in_map. }
    subst d'. rewrite Hg' in Hk. discriminate.
  - intros d Hd. apply filter_In in Hd as [Hd _]. now apply Hmr.
  - intros d e Hd Hmode He Hid. apply filter_In in Hd as [Hd _].
    apply filter_In in He as [He _]. eapply Hw; eassumption.
Qed.

Lemma tables_ok_cleared g u rows db : tables_ok db -> tables_ok (cleared g u rows db).
Proof.
  intros H. apply tables_ok_ext with (db := Sql.delete_table_defs g db);
    [reflexivity|reflexivity|]. now apply tables_ok_delete.
Qed.

Lemma tables_ok_fold g u specs :
  Forall spec_ok specs -> forall db, tables_ok db -> tables_ok (fold_left (add_table g u) specs db).
Proof.
  induction 1 as [|s l Hs _ IH]; intros db Hdb; simpl; [assumption|].
  apply IH. now apply tables_ok_add.
Qed.

(** ** The tables of a valid region are fit to insert *)

Lemma max_roll_of_ok mr :
  max_roll_of mr = None \/ exists m, max_roll_of mr = Some m /\ 0 < m.
Proof.
  unfold max_roll_of. destruct (Z.ltb_spec 0 mr); [right; eauto|now left].
Qed.

Lemma mode_max_roll_ok mode entries :
  mode_max_roll mode entries = None
  \/ exists m, mode_max_roll mode entries = Some m /\ 0 < m.
Proof.
  unfold mode_max_roll. destruct (String.eqb mode ROLL_RANGE);
    [apply max_roll_of_ok|now left].
Qed.

Lemma mode_entries_weight kind hm data e :
  In e (mode_entries "weight" kind hm data) -> exists w, e_weight e = Some w /\ 0 < w.
Proof.
  unfold mode_entries. simpl. intros H.
  apply in_weight_entries in H as (row_no & r & w & _ & _ & _ & Hw & ->).
  exists w. auto.
Qed.

Lemma clean_result_spec_ok wb grp rid t tab :
  clean_result wb tab -> spec_ok (typed_spec grp rid t (result_blob wb tab)).
Proof.
  intros (mode & entries & mr & Hp). unfold result_blob. rewrite Hp.
  apply parse_result_tab_inv in Hp as (ws & hm & data & _ & _ & _ & _ & -> & Hne & -> & _).
  unfold spec_ok, typed_spec. simpl. split; [assumption|].
  split; [apply mode_max_roll_ok|]. intros ->. apply mode_entries_weight.
Qed.

Lemma type_spec_ok wb rid :
  (exists mode types mr,
      _parse_type_tab wb (_enc_type_tab rid) = Val (mode, types, mr, [])) ->
  spec_ok (type_spec wb rid).
Proof.
  intros (mode & types & mr & Hp). unfold type_spec. rewrite Hp.
  apply parse_type_tab_inv in Hp
    as (ws & hm & data & _ & _ & _ & _ & -> & Hne & -> & _ & ->).
  unfold spec_ok. simpl. split.
  - intros E. rewrite E in Hne. now apply Hne.
  - split; [apply mode_max_roll_ok|]. intros ->. apply mode_entries_weight.
Qed.

Lemma region_specs_ok wb rid : region_valid wb rid -> Forall spec_ok (region_specs wb rid).
Proof.
  intros [Ht Hr]. unfold region_specs. constructor; [now apply type_spec_ok|].
  apply Forall_forall. intros s Hs. apply in_flat_map in Hs as (t & Ht' & Hs).
  destruct (Hr t Ht') as [He Hw]. unfold typed_specs in Hs.
  destruct Hs as [<-|[<-|[]]]; now apply clean_result_spec_ok.
Qed.

Lemma all_region_specs_ok wb rids :
  Forall (region_valid wb) rids -> Forall spec_ok (flat_map (region_specs wb) rids).
Proof.
  induction 1 as [|rid l Hv _ IH]; cbn [flat_map]; [constructor|].
  apply Forall_app. split; [now apply region_specs_ok|assumption].
Qed.

Lemma tables_ok_imported g u wb regions db :
  Forall (region_valid wb) (region_ids (Xl.has_sheet wb "Regions") regions) ->
  tables_ok db -> tables_ok (imported g u wb regions db).
Proof.
  intros Hv Hdb. unfold imported, replaced.
  apply tables_ok_fold; [now apply all_region_specs_ok|]. now apply tables_ok_cleared.
Qed.

(** ** The tenant's regions and tables after an import *)

Lemma filter_filter_keep {A} (p q : A -> bool) l :
  (forall x, p x = true -> q x = true) -> filter p (filter q l) = filter p l.
Proof.
  intros H. induction l as [|a t IH]; simpl; [reflexivity|].
  destruct (q a) eqn:Eq; simpl.
  - destruct (p a); [f_equal|]; exact IH.
  - destruct (p a) eqn:Ep; [apply H in Ep; congruence|exact IH].
Qed.

Lemma filter_filter_drop {A} (p q : A -> bool) l :
  (forall x, p x = true -> q x = false) -> filter p (filter q l) = [].
Proof.
  intros H. apply filter_none. intros x Hx. apply filter_In in Hx as [_ Hq].
  destruct (p x) eqn:Ep; [apply H in Ep; congruence|reflexivity].
Qed.

Lemma find_filter_keep {A} (p q : A -> bool) l :
  (forall x, p x = true -> q x = true) -> find p (filter q l) = find p l.
Proof.
  intros H. induction l as [|a t IH]; simpl; [reflexivity|].
  destruct (q a) eqn:Eq; simpl.
  - destruct (p a); [reflexivity|exact IH].
  - destruct (p a) eqn:Ep; [apply H in Ep; congruence|exact IH].
Qed.

Lemma replaced_closed g u regions rm specs db :
  replaced g u regions rm specs db
  = {| db_region := filter (fun r => negb (rg_guild r =? g)) (db_region db)
                      ++ (if rm then region_rows g regions else []);
       db_table_def := kept_defs g db ++ new_defs g u (import_base g db) specs;
       db_table_entry := kept_entries g db ++ new_entries (import_base g db) specs;
       db_guild_config :=
         db_guild_config (Sql.upsert_guild_config g u db) |}.
Proof. unfold replaced. rewrite fold_add_tables. reflexivity. Qed.

Lemma new_defs_guild g u base specs d : In d (new_defs g u base specs) -> td_guild d = g.
Proof.
  unfold new_defs. intros H. apply in_map_iff in H as ([id s] & <- & _). reflexivity.
Qed.

Lemma region_rows_guild g regions r : In r (region_rows g regions) -> rg_guild r = g.
Proof.
  unfold region_rows. intros H. apply in_map_iff in H as ([i p] & <- & _). reflexivity.
Qed.

Lemma replaced_other_guild g u regions rm specs db g' :
  g' <> g ->
  regions_of (replaced g u regions rm specs db) g' = regions_of db g'
  /\ Sql.table_defs_of (replaced g u regions rm specs db) g' = Sql.table_defs_of db g'
  /\ forall grp rid ty,
       Sql.select_table_def (replaced g u regions rm specs db) g' grp rid ty
       = Sql.select_table_def db g' grp rid ty.
Proof.
  intros Hne. rewrite replaced_closed.
  unfold regions_of, Sql.table_defs_of, Sql.select_table_def, kept_defs.
  cbn [db_region db_table_def]. split; [|split].
  - rewrite filter_app, filter_filter_keep.
    + rewrite (@filter_none _ _ (if rm then region_rows g regions else []));
        [now rewrite app_nil_r|].
      intros r Hr. apply Z.eqb_neq. destruct rm; [|contradiction].
      apply region_rows_guild in Hr. congruence.
    + intros r Hr. apply Z.eqb_eq in Hr. apply negb_true_iff, Z.eqb_neq. congruence.
  - rewrite filter_app, filter_filter_keep.
    + rewrite (@filter_none _ _ (new_defs g u (import_base g db) specs));
        [now rewrite app_nil_r|].
      intros d Hd. apply Z.eqb_neq. apply new_defs_guild in Hd. congruence.
    + intros d Hd. apply Z.eqb_eq in Hd. apply negb_true_iff, Z.eqb_neq. congruence.
  - intros grp rid ty. rewrite find_app, find_filter_keep.
    + destruct (find _ (db_table_def db)); [reflexivity|].
      apply find_none_iff. intros d Hd. apply new_defs_guild in Hd.
      apply andb_false_iff. left. apply andb_false_iff. left.
      apply andb_false_iff. left. apply Z.eqb_neq. congruence.
    + intros d Hd. apply andb_true_iff in Hd as [Hd _].
      apply andb_true_iff in Hd as [Hd _]. apply andb_true_iff in Hd as [Hd _].
      apply Z.eqb_eq in Hd. apply negb_true_iff, Z.eqb_neq. congruence.
Qed.

Lemma replaced_same_guild g u regions rm specs db :
  regions_of (replaced g u regions rm specs db) g
  = (if rm then region_rows g regions else [])
  /\ Sql.table_defs_of (replaced g u regions rm specs db) g
     = new_defs g u (import_base g db) specs
  /\ forall grp rid ty,
       Sql.select_table_def (replaced g u regions rm specs db) g grp rid ty
       = find (key_match g grp rid ty) (new_defs g u (import_base g db) specs).
Proof.
  rewrite replaced_closed.
  unfold regions_of, Sql.table_defs_of, Sql.select_table_def, kept_defs.
  cbn [db_region db_table_def]. split; [|split].
  - rewrite filter_app, filter_filter_drop.
    + cbn [app]. apply filter_all. intros r Hr. apply Z.eqb_eq.
      destruct rm; [|contradiction]. now apply region_rows_guild in Hr.
    + intros r Hr. apply negb_false_iff. exact Hr.
  - rewrite filter_app, filter_filter_drop.
    + cbn [app]. apply filter_all. intros d Hd. apply Z.eqb_eq.
      now apply new_defs_guild in Hd.
    + intros d Hd. apply negb_false_iff. exact Hd.
  - intros grp rid ty. rewrite find_app.
    replace (find _ (filter _ (db_table_def db))) with (@None TableDef); [reflexivity|].
    symmetry. apply find_none_iff. intros d Hd. apply filter_In in Hd as [_ Hd].
    apply negb_true_iff in Hd.
    apply andb_false_iff. left. apply andb_false_iff. left.
    apply andb_false_iff. left. exact Hd.
Qed.

Lemma guild_ok_imported g u wb regions db :
  (Xl.has_sheet wb "Regions" = true -> regions <> []) ->
  (forall g', guild_ok db g') ->
  forall g', guild_ok (imported g u wb regions db) g'.
Proof.
  intros Hne Hdb g'. unfold imported. set (rm := Xl.has_sheet wb "Regions") in *.
  set (specs := flat_map (region_specs wb) (region_ids rm regions)).
  destruct (Z.eq_dec g' g) as [->|Hg].
  - destruct (replaced_same_guild g u regions rm specs db) as (Hr & Hd & Hs).
    unfold guild_ok. rewrite Hr, Hd, Hs.
    assert (Hspecs : exists rid rest, specs = type_spec wb rid :: rest
                                      /\ (rm = false -> rid = None)).
    { unfold specs, region_ids. destruct rm.
      - destruct regions as [|r0 rs]; [now specialize (Hne eq_refl)|].
        simpl. eexists; eexists; split; [reflexivity|discriminate].
      - simpl. eexists; eexists; split; [reflexivity|reflexivity]. }
    destruct Hspecs as (rid & rest & -> & Hrid). split.
    + intros _. unfold new_defs. cbn [number map]. discriminate.
    + intros Hnil _. destruct rm.
      * destruct regions; [now specialize (Hne eq_refl)|discriminate].
      * rewrite (Hrid eq_refl). unfold new_defs. cbn [number map find].
        assert (Hk : key_match g "encounter_type" None None
                       (spec_def g u (import_base g db) (type_spec wb None)) = true)
          by (apply key_match_spec; split; reflexivity).
        cbn [fst snd]. rewrite Hk. discriminate.
  - destruct (replaced_other_guild u regions rm specs db Hg) as (Hr & Hd & Hs).
    unfold guild_ok. rewrite Hr, Hd, Hs. apply Hdb.
Qed.

(** ** Deleting a tenant *)

Lemma tables_ok_deleted g db : tables_ok db -> tables_ok (deleted g db).
Proof.
  intros H. apply tables_ok_ext with (db := Sql.delete_table_defs g db);
    [reflexivity|reflexivity|]. now apply tables_ok_delete.
Qed.

Lemma guild_ok_deleted g db :
  (forall g', guild_ok db g') -> forall g', guild_ok (deleted g db) g'.
Proof.
  intros Hdb g'. unfold guild_ok, regions_of, Sql.table_defs_of, Sql.select_table_def,
    deleted. cbn [db_region db_table_def Sql.delete_guild_config Sql.delete_table_defs
                    Sql.delete_regions].
  destruct (Z.eq_dec g' g) as [->|Hg].
  - rewrite !filter_filter_drop by (intros x Hx; apply negb_false_iff; exact Hx).
    split; [intros H; now contradiction H|intros _ H; now contradiction H].
  - assert (Hk : forall A (f : A -> Z) (x : A),
               (f x =? g') = true -> negb (f x =? g) = true).
    { intros A f x Hx. apply Z.eqb_eq in Hx. apply negb_true_iff, Z.eqb_neq. congruence. }
    rewrite !filter_filter_keep by (intros x; apply (Hk _ _ x)).
    rewrite find_filter_keep.
    + apply Hdb.
    + intros d Hd. apply andb_true_iff in Hd as [Hd _].
      apply andb_true_iff in Hd as [Hd _]. apply andb_true_iff in Hd as [Hd _].
      now apply (Hk _ td_guild).
Qed.

Lemma delete_guild_data_committed g c r c' :
  txn c = None ->
  delete_guild_data g c = (r, c') ->
  committed c' = committed c \/ committed c' = deleted g (committed c).
Proof.
  intros Ht. unfold delete_guild_data.
  destruct (begin c) as [[[]|e] c1] eqn:Eb.
  2: { intros [= <- <-]. left. now apply begin_exc in Eb. }
  apply begin_val in Eb as (Hc1 & _ & Ht1).
  match goal with |- context [bindM ?m ?k c1] => destruct (bindM m k c1) as [[[]|e] c2] eqn:E end.
  - intros [= <- <-]. right.
    apply bindM_val in E as ([] & c3 & H3 & E). apply execute_val in H3 as [H3 _].
    apply bindM_val in E as ([] & c4 & H4 & E). apply execute_val in H4 as [H4 _].
    apply bindM_val in E as ([] & c5 & H5 & E). apply execute_val in H5 as [H5 _].
    apply commit_val in E as [E _]. rewrite E, H5, H4, H3. unfold working.
    rewrite Ht1. reflexivity.
  - intros [= <- <-]. left. simpl. rewrite <- Hc1.
    apply bindM_exc in E as [E|([] & c3 & H3 & E)];
      [now apply keeps_execute in E|]. apply keeps_execute in H3.
    apply bindM_exc in E as [E|([] & c4 & H4 & E)];
      [apply keeps_execute in E; congruence|]. apply keeps_execute in H4.
    apply bindM_exc in E as [E|([] & c5 & H5 & E)];
      [apply keeps_execute in E; congruence|]. apply keeps_execute in H5.
    apply commit_exc in E. congruence.
Qed.

Lemma import_committed g wb u c r c' :
  import_workbook_bytes g wb u c = (r, c') ->
  committed c' = committed c \/ exists counts errors, r = Val (Some counts, errors).
Proof.
  unfold import_workbook_bytes.
  destruct (phase1 wb) as [[errs|regions rm st]|e]; try (intros [= <- <-]; now left).
  destruct (p_errors st); [|intros [= <- <-]; now left].
  destruct (begin c) as [[[]|e] c1] eqn:Eb.
  2: { intros [= <- <-]. left. now apply begin_exc in Eb. }
  destruct (replace_tenant _ _ _ _ _ _ c1) as [[cn|e] c2] eqn:Er.
  - intros [= <- <-]. right. eauto.
  - intros [= <- <-]. left. apply replace_tenant_exc in Er. apply begin_val in Eb as [Eb _].
    simpl. congruence.
Qed.

(** Every store the program produces satisfies the invariant. *)
Lemma reachable_store_ok db : reachable db -> store_ok db.
Proof.
  induction 1 as [|db g wb u f r c' Hr IH Hi|db g f r c' Hr IH Hd].
  - split; [apply tables_ok_empty|].
    intros g. split; [intros H|intros _ H]; exfalso; apply H; reflexivity.
  - destruct (import_committed _ _ _ _ Hi) as [Hc|(counts & errors & ->)].
    + rewrite Hc. exact IH.
    + apply import_store in Hi as (regions & _ & Hne & Hv & Hc & _).
      rewrite Hc. destruct IH as [Ht Hg]. split.
      * now apply tables_ok_imported.
      * now apply guild_ok_imported.
  - apply delete_guild_data_committed in Hd as [Hc|Hc]; [| |reflexivity].
    + rewrite Hc. exact IH.
    + rewrite Hc. destruct IH as [Ht Hg]. split.
      * now apply tables_ok_deleted.
      * now apply guild_ok_deleted.
Qed.

(** ** Rolls and exports on the stores the program produces *)

Lemma sample_db_reachable : reachable sample_db.
Proof.
  exact (@reach_import _ _ _ _ _ _ _ reach_empty sample_db_imported).
Qed.

Lemma stable_sort_nil_iff {A} (leb : A -> A -> bool) l : stable_sort leb l = [] <-> l = [].
Proof.
  split; [|intros ->; reflexivity]. intros H.
  pose proof (stable_sort_perm leb l) as P. rewrite H in P.
  now apply Permutation_nil in P.
Qed.

Lemma select_table_def_in db g grp rid ty t :
  Sql.select_table_def db g grp rid ty = Some t ->
  In t (db_table_def db) /\ td_guild t = g.
Proof.
  unfold Sql.select_table_def. intros H. apply find_some in H as [Hin Hk].
  split; [assumption|].
  apply andb_true_iff in Hk as [Hk _]. apply andb_true_iff in Hk as [Hk _].
  apply andb_true_iff in Hk as [Hk _]. now apply Z.eqb_eq.
Qed.

Lemma table_has_entries db t :
  tables_ok db -> In t (db_table_def db) -> Sql.select_table_entries db (td_id t) <> [].
Proof.
  intros Hok Hin H. unfold Sql.select_table_entries in H.
  apply stable_sort_nil_iff in H.
  destruct (@ok_nonempty _ Hok t Hin) as (e & He & Hid).
  assert (Hf : In e (filter (fun e => te_table_id e =? td_id t) (db_table_entry db)))
    by (apply filter_In; split; [assumption|now apply Z.eqb_eq]).
  rewrite H in Hf. contradiction.
Qed.

Lemma select_table_entries_in db id r :
  In r (Sql.select_table_entries db id) ->
  In r (db_table_entry db) /\ te_table_id r = id.
Proof.
  unfold Sql.select_table_entries. intros H.
  apply (Permutation_in _ (stable_sort_perm _ _)) in H.
  apply filter_In in H as [Hin Hid]. split; [assumption|now apply Z.eqb_eq].
Qed.

Lemma total_weight_pos items :
  items <> [] -> (forall v w, In (v, w) items -> 0 < w) -> 1 <= total_weight items.
Proof.
  destruct items as [|[v w] t]; [contradiction|]. intros _ H.
  rewrite total_weight_cons. simpl.
  assert (0 < w) by (apply (H v); now left).
  assert (0 <= total_weight t).
  { clear H0. induction t as [|[v' w'] t IH]; [unfold total_weight; simpl; lia|].
    rewrite total_weight_cons. simpl.
    assert (0 < w') by (apply (H v'); right; now left).
    assert (0 <= total_weight t); [|lia].
    apply IH. intros v0 w0 [E|Hin]; [apply (H v0); now left|].
    apply (H v0). right. now right. }
  lia.
Qed.

(** On a store the program produced, a weight-mode table always has
    candidates, and their weights sum to at least 1: the roll on it never
    fails. *)
Lemma weight_table_positive db guild_id group_key region_id type_key t :
  reachable db ->
  Sql.select_table_def db guild_id group_key region_id type_key = Some t ->
  td_roll_mode t = "weight" ->
  let rows := Sql.select_table_entries db (td_id t) in
  rows <> [] /\ weighted_items rows <> [] /\ 1 <= total_weight (weighted_items rows).
Proof.
  intros Hr Hsel Hmode rows.
  apply reachable_store_ok in Hr as [Hok _].
  pose proof (@select_table_def_in _ _ _ _ _ _ Hsel) as [Hin _].
  pose proof (@table_has_entries _ _ Hok Hin) as Hrows. fold rows in Hrows.
  assert (Hw : forall r, In r rows -> exists w, te_weight r = Some w /\ 0 < w).
  { intros r Hr. apply select_table_entries_in in Hr as [Hr Hid].
    exact (@ok_weights _ Hok t r Hin Hmode Hr Hid). }
  assert (Hitems : weighted_items rows <> []).
  { destruct rows as [|r rest] eqn:E; [contradiction|].
    destruct (Hw r (or_introl eq_refl)) as (w & Hrw & _).
    intros Hnil.
    assert (Hi : In (te_result r, w) (weighted_items (r :: rest)))
      by (apply in_weighted_items; exists r; split; [now left|auto]).
    rewrite Hnil in Hi. contradiction. }
  split; [assumption|]. split; [assumption|].
  apply total_weight_pos; [assumption|].
  intros v w Hi. apply in_weighted_items in Hi as (r & Hr & Hrw & _).
  destruct (Hw r Hr) as (w' & Hrw' & Hpos). congruence.
Qed.



Lemma weight_roll_witness :
  exists r val,
    randint 2 1 4 = Val r /\ 1 <= r <= 4
    /\ first_reaching r [("goblins", 3); ("dragon", 1)] val
    /\ roll_from_table sample_db 2 7 "encounter" None (Some "Combat")
       = Val (val, "weight").
Proof.
  pose (t := {| td_id := 2; td_guild := 7; td_group_key := "encounter";
                td_region_id := None; td_type_key := Some "Combat";
                td_roll_mode := "weight"; td_max_roll := None;
                td_updated_at := "t0" |}).
  destruct (@weight_roll sample_db 2 7 "encounter" None (Some "Combat") t
              eq_refl eq_refl) as (_ & _ & H).
  - vm_compute. discriminate.
  - apply H; [vm_compute; discriminate|vm_compute; discriminate].
Defined.

Lemma summary_counts_witness :
  reward_types {| encounter_types := 1; encounter_entries := 2; reward_types := 1;
                  reward_entries := 2; regions := 0 |} = 1%nat
  /\ (0%nat = 0%nat <-> Xl.has_sheet sample_wb "Regions" = false).
Proof.
  exact (@summary_counts _ _ _ _ _ _ _ sample_db_imported).
Defined.

(** ** Export *)

Lemma fetch_regions_nil db g : _fetch_regions db g = [] <-> regions_of db g = [].
Proof.
  unfold _fetch_regions, Sql.select_regions, regions_of. split.
  - intros H. apply map_eq_nil in H. now apply stable_sort_nil_iff in H.
  - intros ->. reflexivity.
Qed.

Lemma export_cases db g :
  (regions_of db g <> [] -> exists wb, build_workbook_bytes db g = Val wb)
  /\ (regions_of db g = [] ->
      match Sql.select_table_def db g "encounter_type" None None with
      | None => build_workbook_bytes db g = Exc no_data
      | Some _ => exists wb, build_workbook_bytes db g = Val wb
      end).
Proof.
  unfold build_workbook_bytes. split.
  - intros H. destruct (_fetch_regions db g) as [|r l] eqn:E.
    + apply fetch_regions_nil in E. contradiction.
    + cbn [List.length Nat.ltb Nat.leb]. eauto.
  - intros H. apply fetch_regions_nil in H. rewrite H. cbn [List.length Nat.ltb Nat.leb].
    unfold _fetch_table_def.
    destruct (Sql.select_table_def db g "encounter_type" None None); eauto.
Qed.

(** C8. On a store the program produced, the export of a tenant fails with
    "no data" exactly when the tenant has no table definition, and returns
    a workbook whenever it has one. *)
Theorem export_no_data db guild_id :
  reachable db ->
  (build_workbook_bytes db guild_id = Exc no_data
   <-> Sql.table_defs_of db guild_id = [])
  /\ (Sql.table_defs_of db guild_id <> [] ->
      exists wb, build_workbook_bytes db guild_id = Val wb).
Proof.
  intros Hr. apply reachable_store_ok in Hr as [_ Hg].
  destruct (Hg guild_id) as [Hreg Hdef].
  destruct (export_cases db guild_id) as [Hc1 Hc2].
  assert (Hfound : forall d, Sql.select_table_def db guild_id "encounter_type" None None
                             = Some d -> Sql.table_defs_of db guild_id <> []).
  { intros d Hd Hnil. apply select_table_def_in in Hd as [Hin Hgd].
    assert (In d (Sql.table_defs_of db guild_id))
      by (apply filter_In; split; [assumption|now apply Z.eqb_eq]).
    rewrite Hnil in H. contradiction. }
  destruct (regions_of db guild_id) as [|r0 rs] eqn:Er.
  - specialize (Hc2 eq_refl).
    destruct (Sql.select_table_def db guild_id "encounter_type" None None) as [d|] eqn:Es.
    + destruct Hc2 as [wb Hwb]. split; [|eauto].
      split; [rewrite Hwb; discriminate|]. intros Hnil. exfalso. exact (Hfound d eq_refl Hnil).
    + split; [split; [|intros _; exact Hc2]|].
      * intros _. destruct (Sql.table_defs_of db guild_id) eqn:Ed; [reflexivity|].
        exfalso. apply Hdef; [reflexivity|discriminate|reflexivity].
      * intros Hne. exfalso. apply Hdef; [reflexivity|assumption|reflexivity].
  - destruct Hc1 as [wb Hwb]; [discriminate|]. split; [|eauto].
    split; [rewrite Hwb; discriminate|]. intros Hnil. exfalso.
    apply Hreg; [discriminate|assumption].
Qed.

Lemma export_no_data_witness :
  (build_workbook_bytes empty_db 7 = Exc no_data <-> Sql.table_defs_of empty_db 7 = [])
  /\ exists wb, build_workbook_bytes sample_db 7 = Val wb.
Proof.
  split.
  - exact (proj1 (@export_no_data empty_db 7 reach_empty)).
  - apply (proj2 (@export_no_data sample_db 7 sample_db_reachable)).
    vm_compute. discriminate.
Defined.

(** ** Import, then export *)

Example reexport_sample : 
  reexport 7 sample_wb = Val sample_wb.
Proof. vm_compute. reflexivity. Qed.

Example reexport_sample_regional :
  reexport 7 sample_regional_wb = Val sample_regional_wb.
Proof. vm_compute. reflexivity. Qed.

(** C1 fails on a types sheet that repeats a type.  The importer keeps the
    first occurrence of each type ("preserve order, remove duplicates") and
    accepts the workbook; the exporter walks the stored rows of the types
    table without doing so, and asks for the sheets of [Boss] twice.
    openpyxl gives the second pair the titles of [Boss1], so that in the
    exported workbook the encounter table of [Boss1] holds the entries of
    [Boss]. *)
Lemma repeated_type_breaks_round_trip :
  fst (import_workbook_bytes 7 repeated_type_wb "t0" (connect empty_db no_fault))
  = Val (Some {| encounter_types := 2; encounter_entries := 2; reward_types := 2;
                 reward_entries := 2; regions := 0 |}, [])
  /\ reexport 7 repeated_type_wb = Val repeated_type_export
  /\ _parse_result_tab repeated_type_wb "Encounter - Boss1"
     = Val (ROLL_UNIFORM, [uniform_entry "ogre"], None, [])
  /\ _parse_result_tab repeated_type_export "Encounter - Boss1"
     = Val (ROLL_UNIFORM, [uniform_entry "lich"], None, []).
Proof. repeat split; vm_compute; reflexivity. Qed.

(** ** The roller: uniform mode and the weighted pick *)

Lemma choice_nth {A} (l : list A) (d : A) (i : nat) :
  (i < List.length l)%nat -> choice (Z.of_nat i) l d = nth i l d.
Proof.
  intros H. unfold choice. rewrite Z.mod_small by lia. now rewrite Nat2Z.id.
Qed.

Lemma choice_in {A} raw (l : list A) (d : A) : l <> [] -> In (choice raw l d) l.
Proof.
  intros H. unfold choice. apply nth_In.
  assert (0 < Z.of_nat (List.length l)) by (destruct l; [contradiction|simpl; lia]).
  pose proof (Z.mod_pos_bound raw (Z.of_nat (List.length l)) H0). lia.
Qed.

Lemma two_types_db_reachable : reachable two_types_db.
Proof. eapply reach_import; [exact reach_empty|apply surjective_pairing]. Qed.

(** On a store the program produced, a roll on a uniform-mode table never
    fails: it returns the result of one of the table's rows, under the
    label "uniform". *)
Theorem uniform_roll db raw guild_id group_key region_id type_key t :
  reachable db ->
  Sql.select_table_def db guild_id group_key region_id type_key = Some t ->
  td_roll_mode t = "uniform" ->
  exists r, In r (Sql.select_table_entries db (td_id t))
            /\ roll_from_table db raw guild_id group_key region_id type_key
               = Val (te_result r, "uniform").
Proof.
  intros Hr Hsel Hmode. apply reachable_store_ok in Hr as [Hok _].
  pose proof (@select_table_def_in _ _ _ _ _ _ Hsel) as [Hin _].
  pose proof (@table_has_entries _ _ Hok Hin) as Hrows.
  unfold roll_from_table. rewrite Hsel, Hmode.
  destruct (Sql.select_table_entries db (td_id t)) as [|first rest]; [contradiction|].
  cbv beta iota. simpl (_ =? _)%string. cbv beta iota.
  exists (choice raw (first :: rest) first). split; [|reflexivity].
  apply choice_in. discriminate.
Qed.

Lemma uniform_roll_witness :
  List.length (Sql.select_table_entries two_types_db 1) = 2%nat
  /\ exists r, In r (Sql.select_table_entries two_types_db 1)
               /\ roll_from_table two_types_db 1 7 "encounter_type" None None
                  = Val (te_result r, "uniform").
Proof.
  split; [vm_compute; reflexivity|].
  apply (@uniform_roll two_types_db 1 7 "encounter_type" None None
           {| td_id := 1; td_guild := 7; td_group_key := "encounter_type";
              td_region_id := None; td_type_key := None;
              td_roll_mode := "uniform"; td_max_roll := None;
              td_updated_at := "t3" |} two_types_db_reachable).
  - vm_compute. reflexivity.
  - reflexivity.
Defined.

Lemma pick_loop_skip r acc pre rest :
  (forall v x, In (v, x) pre -> 0 <= x) ->
  acc + total_weight pre < r ->
  pick_loop r acc (pre ++ rest) = pick_loop r (acc + total_weight pre) rest.
Proof.
  revert acc; induction pre as [|[v x] pre IH]; intros acc Hpos Hlt.
  - simpl. f_equal. unfold total_weight. simpl. lia.
  - rewrite total_weight_cons in Hlt. simpl in Hlt.
    assert (0 <= x) by (apply (Hpos v); now left).
    assert (0 <= total_weight pre).
    { assert (Hp : forall v0 x0, In (v0, x0) pre -> 0 <= x0)
        by (intros v0 x0 Hi; apply (Hpos v0); now right).
      clear - Hp. induction pre as [|[v' x'] pre IH]; [unfold total_weight; simpl; lia|].
      rewrite total_weight_cons. simpl.
      assert (0 <= x') by (apply (Hp v'); now left).
      assert (0 <= total_weight pre); [|lia].
      apply IH. intros v0 x0 Hi. apply (Hp v0). now right. }
    simpl. destruct (Z.leb_spec r (acc + x)) as [Hle|Hgt]; [lia|].
    rewrite IH.
    + rewrite total_weight_cons. simpl. f_equal. lia.
    + intros v0 x0 Hi. apply (Hpos v0). now right.
    + lia.
Qed.

(** [_pick_weighted] gives every candidate the draws of its own slot: with
    positive weights, the candidate that follows the candidates [pre] and
    has the weight [w] is returned for each draw [r] with
    [total pre < r <= total pre + w], that is for exactly [w] of the draws
    from 1 to the total, and it is the loop that returns it.  The loop
    returns for every draw: the fallback after it is never reached. *)
Theorem pick_weighted_slots items pre val w post r :
  (forall v x, In (v, x) items -> 0 < x) ->
  items = pre ++ (val, w) :: post ->
  total_weight pre < r <= total_weight pre + w ->
  randint (r - 1) 1 (total_weight items) = Val r
  /\ pick_loop r 0 items = Some val
  /\ _pick_weighted (r - 1) items = Val val
  /\ forall raw, exists r' v,
       randint raw 1 (total_weight items) = Val r'
       /\ pick_loop r' 0 items = Some v
       /\ _pick_weighted raw items = Val v.
Proof.
  intros Hpos -> Hr.
  assert (Hpost : 0 <= total_weight post).
  { assert (Hp : forall v x, In (v, x) post -> 0 < x)
      by (intros v x Hi; apply (Hpos v); apply in_or_app; right; now right).
    clear - Hp. induction post as [|[v' x'] post IH]; [unfold total_weight; simpl; lia|].
    rewrite total_weight_cons. simpl.
    assert (0 < x') by (apply (Hp v'); now left).
    assert (0 <= total_weight post); [|lia].
    apply IH. intros v0 x0 Hi. apply (Hp v0). now right. }
  assert (Hpre : 0 <= total_weight pre).
  { assert (Hp : forall v x, In (v, x) pre -> 0 < x)
      by (intros v x Hi; apply (Hpos v); apply in_or_app; now left).
    clear - Hp. induction pre as [|[v' x'] pre IH]; [unfold total_weight; simpl; lia|].
    rewrite total_weight_cons. simpl.
    assert (0 < x') by (apply (Hp v'); now left).
    assert (0 <= total_weight pre); [|lia].
    apply IH. intros v0 x0 Hi. apply (Hp v0). now right. }
  assert (Htot : total_weight (pre ++ (val, w) :: post)
                 = total_weight pre + w + total_weight post).
  { rewrite total_weight_app, total_weight_cons. simpl. lia. }
  assert (Hrand : randint (r - 1) 1 (total_weight (pre ++ (val, w) :: post)) = Val r).
  { unfold randint. rewrite Htot.
    destruct (Z.ltb_spec (total_weight pre + w + total_weight post) 1); [lia|].
    rewrite Z.mod_small by lia. f_equal. lia. }
  assert (Hloop : pick_loop r 0 (pre ++ (val, w) :: post) = Some val).
  { rewrite pick_loop_skip.
    - simpl. destruct (Z.leb_spec r (total_weight pre + w)); [reflexivity|lia].
    - intros v x Hi. assert (0 < x); [|lia]. apply (Hpos v). apply in_or_app. now left.
    - lia. }
  split; [exact Hrand|]. split; [exact Hloop|]. split.
  - unfold _pick_weighted. change (fold_left Z.add (map snd ?l) 0) with (total_weight l).
    rewrite Hrand. cbn [bindR]. now rewrite Hloop.
  - intros raw.
    destruct (@randint_in_range raw 1 (total_weight (pre ++ (val, w) :: post)))
      as (r' & Hr' & Hrange & _); [lia|].
    destruct (@pick_loop_reaches r' 0 (pre ++ (val, w) :: post)) as [v Hv];
      [lia|destruct pre; discriminate|].
    exists r', v. split; [exact Hr'|]. split; [exact Hv|].
    unfold _pick_weighted. change (fold_left Z.add (map snd ?l) 0) with (total_weight l).
    rewrite Hr'. cbn [bindR]. now rewrite Hv.
Qed.

Lemma pick_weighted_slots_witness :
  randint 3 1 4 = Val 4
  /\ pick_loop 4 0 [("goblins", 3); ("dragon", 1)] = Some "dragon"
  /\ _pick_weighted 3 [("goblins", 3); ("dragon", 1)] = Val "dragon".
Proof.
  destruct (@pick_weighted_slots [("goblins", 3); ("dragon", 1)]
              [("goblins", 3)] "dragon" 1 [] 4) as (H1 & H2 & H3 & _).
  - intros v x [[= <- <-]|[[= <- <-]|[]]]; lia.
  - reflexivity.
  - vm_compute. split; [reflexivity|discriminate].
  - split; [exact H1|split; [exact H2|exact H3]].
Defined.

(** ** What the sheet readers guarantee *)

Lemma hm_mem_in key hm : hm_mem key hm = true <-> exists i, In (key, i) hm.
Proof.
  unfold hm_mem. rewrite existsb_exists. split.
  - intros ([k i] & Hin & Hk). simpl in Hk. apply String.eqb_eq in Hk. subst. eauto.
  - intros (i & Hin). exists (key, i). split; [assumption|]. simpl. apply String.eqb_refl.
Qed.

Lemma hm_ok_step header hm n :
  (n < List.length header)%nat ->
  hm_ok header hm n ->
  let key := _norm_header (nth n header CNone) in
  hm_ok header
        (if negb (String.eqb key "") && negb (hm_mem key hm)
         then hm ++ [(key, n)] else hm) (S n).
Proof.
  intros Hn [Hnd Hf Ha] key.
  destruct (String.eqb_spec key "") as [Ek|Ek]; simpl.
  { constructor; [assumption| |].
    - intros k i Hi. destruct (Hf k i Hi) as (? & ? & ? & ?). repeat split; auto.
    - intros j Hj Hne. destruct (Nat.eq_dec j n) as [->|Hjn].
      + exfalso. exact (Hne Ek).
      + apply Ha; [lia|assumption]. }
  destruct (hm_mem key hm) eqn:Em; simpl.
  { constructor; [assumption| |].
    - intros k i Hi. destruct (Hf k i Hi) as (? & ? & ? & ?). repeat split; auto.
    - intros j Hj Hne. destruct (Nat.eq_dec j n) as [->|Hjn].
      + apply hm_mem_in. exact Em.
      + apply Ha; [lia|assumption]. }
  assert (Hnot : forall i, ~ In (key, i) hm).
  { intros i Hi. assert (hm_mem key hm = true) by (apply hm_mem_in; eauto). congruence. }
  constructor.
  - rewrite map_app. simpl. apply NoDup_snoc; [|assumption].
    intros Hin. apply in_map_iff in Hin as ([k i] & Hk & Hin). simpl in Hk. subst k.
    exact (Hnot i Hin).
  - intros k i Hi. apply in_app_or in Hi as [Hi|[[= <- <-]|[]]].
    + destruct (Hf k i Hi) as (? & ? & ? & ?). repeat split; auto.
    + repeat split; [assumption|lia|].
      intros j Hj Hjk. destruct (Ha j Hj) as [i Hi].
      * rewrite Hjk. assumption.
      * rewrite Hjk in Hi. exact (Hnot i Hi).
  - intros j Hj Hne. destruct (Nat.eq_dec j n) as [->|Hjn].
    + exists n. apply in_or_app. right. now left.
    + destruct (Ha j) as [i Hi]; [lia|assumption|]. exists i. apply in_or_app. now left.
Qed.

Lemma header_scan_ok pre rest hm :
  hm_ok (pre ++ rest) hm (List.length pre) ->
  hm_ok (pre ++ rest) (header_scan (List.length pre) rest hm)
        (List.length (pre ++ rest)).
Proof.
  revert pre hm; induction rest as [|h t IH]; intros pre hm H.
  - simpl. now rewrite app_nil_r in *.
  - cbn [header_scan].
    assert (Hn : nth (List.length pre) (pre ++ h :: t) CNone = h)
      by (rewrite app_nth2 by lia; now rewrite Nat.sub_diag).
    pose proof (@hm_ok_step (pre ++ h :: t) hm (List.length pre)) as Hs.
    rewrite Hn in Hs. cbv zeta in Hs.
    specialize (Hs ltac:(rewrite length_app; simpl; lia) H).
    replace (pre ++ h :: t) with ((pre ++ [h]) ++ t) in * by (now rewrite <- app_assoc).
    replace (S (List.length pre)) with (List.length (pre ++ [h])) in *
      by (rewrite length_app; simpl; lia).
    now apply IH.
Qed.

Lemma in_enumerate {A} (l : list A) start n a :
  In (n, a) (enumerate start l) <-> (start <= n)%nat /\ nth_error l (n - start) = Some a.
Proof.
  revert start; induction l as [|x t IH]; intros start; simpl.
  - split; [contradiction|]. intros [_ H]. destruct (n - start)%nat; discriminate.
  - rewrite IH. split.
    + intros [[= <- <-]|[Hle H]].
      * split; [lia|]. now rewrite Nat.sub_diag.
      * split; [lia|]. replace (n - start)%nat with (S (n - S start)) by lia. exact H.
    + intros [Hle H]. destruct (Nat.eq_dec n start) as [->|Hne].
      * left. rewrite Nat.sub_diag in H. simpl in H. now injection H as ->.
      * right. split; [lia|].
        replace (n - start)%nat with (S (n - S start)) in H by lia. exact H.
Qed.

Lemma enumerate_sorted {A} (l : list A) start :
  StronglySorted (fun a b => (fst a < fst b)%nat) (enumerate start l).
Proof.
  revert start; induction l as [|x t IH]; intros start; simpl; constructor.
  - apply IH.
  - apply Forall_forall. intros [n a] Hin. apply in_enumerate in Hin as [Hle _].
    simpl. lia.
Qed.

Lemma filter_sorted {A} (R : A -> A -> Prop) p l :
  StronglySorted R l -> StronglySorted R (filter p l).
Proof.
  induction 1 as [|a l Hs IH Hf]; simpl; [constructor|].
  destruct (p a); [|assumption]. constructor; [assumption|].
  apply Forall_forall. intros x Hx. apply filter_In in Hx as [Hx _].
  rewrite Forall_forall in Hf. now apply Hf.
Qed.

(** [_read_sheet_rows] on a sheet with a header row.  The header map has
    one key per distinct non-empty normalised header, mapped to the first
    column that carries it.  The data rows are the rows below the header
    that are not blank, each under its row number in the sheet (the first
    one below the header is row 2), in increasing order of row number. *)
Theorem read_sheet_rows_sound ws header rest hm data :
  Xl.iter_rows ws = header :: rest ->
  _read_sheet_rows ws = (hm, data) ->
  hm_ok header hm (List.length header)
  /\ (forall n r, In (n, r) data <->
        (2 <= n)%nat /\ nth_error rest (n - 2) = Some r /\ forallb blank_cell r = false)
  /\ StronglySorted (fun a b => (fst a < fst b)%nat) data.
Proof.
  intros Hrows. unfold _read_sheet_rows. rewrite Hrows. intros [= <- <-].
  split; [|split].
  - apply (@header_scan_ok [] header []). constructor; simpl.
    + constructor.
    + contradiction.
    + intros j Hj. lia.
  - intros n r. rewrite filter_In, in_enumerate. simpl.
    rewrite negb_true_iff. tauto.
  - apply filter_sorted, enumerate_sorted.
Qed.

Lemma read_sheet_rows_sound_witness :
  hm_ok [CStr "weight"; CStr "result"] [("weight", 0%nat); ("result", 1%nat)] 2
  /\ StronglySorted (fun a b : nat * Row => (fst a < fst b)%nat)
       [ (2%nat, [CStr "abc"; CStr "wolf"]);
         (3%nat, [CFloat (S754_finite false 7 (-1)); CStr "bear"]);
         (4%nat, [CInt 2; CStr "dragon"]) ].
Proof.
  destruct (@read_sheet_rows_sound cx_sheet
              [CStr "weight"; CStr "result"]
              [ [CStr "abc"; CStr "wolf"];
                [CFloat (S754_finite false 7 (-1)); CStr "bear"];
                [CInt 2; CStr "dragon"] ]
              [("weight", 0%nat); ("result", 1%nat)]
              [ (2%nat, [CStr "abc"; CStr "wolf"]);
                (3%nat, [CFloat (S754_finite false 7 (-1)); CStr "bear"]);
                (4%nat, [CInt 2; CStr "dragon"]) ]
              eq_refl eq_refl) as (H1 & _ & H3).
  split; [exact H1|exact H3].
Defined.

(** ** The regions sheet *)

Lemma existsb_Zeqb rid seen : existsb (Z.eqb rid) seen = true <-> In rid seen.
Proof.
  rewrite existsb_exists. split.
  - intros (x & Hin & Hx). apply Z.eqb_eq in Hx. now subst.
  - intros H. exists rid. split; [assumption|apply Z.eqb_refl].
Qed.

Lemma regions_loop hm data st st' :
  hm_mem "region_id" hm = true -> hm_mem "region_name" hm = true ->
  for_each (fun '(regions, seen, errs) '(row_no, r) =>
      bindR (cell_at hm r "region_id") (fun crid =>
      bindR (cell_at hm r "region_name") (fun cname =>
      let name := _cell_str cname in
      match _to_int crid with
      | None =>
          Val (regions, seen,
               errs ++ [err "Regions" (Some row_no) "region_id must be an integer."])
      | Some rid =>
          if rid <=? 0 then
            Val (regions, seen,
                 errs ++ [err "Regions" (Some row_no)
                            "region_id must be a positive integer."])
          else if String.eqb name "" then
            Val (regions, seen,
                 errs ++ [err "Regions" (Some row_no) "region_name is required."])
          else if existsb (Z.eqb rid) seen then
            Val (regions, seen,
                 errs ++ [err "Regions" (Some row_no)
                            ("Duplicate region_id " ++ Py.str_int rid ++ ".")])
          else Val (regions ++ [(rid, name)], rid :: seen, errs)
      end))) data st = Val st' ->
  (regions_inv st -> regions_inv st')
  /\ (List.length (fst (fst st')) + List.length (snd st')
      = List.length (fst (fst st)) + List.length (snd st) + List.length data)%nat.
Proof.
  intros Hid Hname. revert st; induction data as [|[row_no r] t IH]; intros st.
  - simpl. intros [= <-]. split; [auto|lia].
  - cbn [for_each]. intros H. apply bindR_val in H as (s1 & H1 & H).
    apply IH in H as [Hinv Hlen]. destruct st as [[regions seen] errs].
    rewrite !cell_at_mem in H1 by assumption. cbn [bindR] in H1.
    assert (Hstep : (regions_inv (regions, seen, errs) -> regions_inv s1)
                    /\ (List.length (fst (fst s1)) + List.length (snd s1)
                        = List.length regions + List.length errs + 1)%nat).
    { destruct (_to_int (cell_of hm r "region_id")) as [rid|].
      2: { injection H1 as <-. simpl. rewrite length_app. simpl. split; [auto|lia]. }
      destruct (Z.leb_spec rid 0).
      { injection H1 as <-. simpl. rewrite length_app. simpl. split; [auto|lia]. }
      destruct (String.eqb_spec (_cell_str (cell_of hm r "region_name")) "").
      { injection H1 as <-. simpl. rewrite length_app. simpl. split; [auto|lia]. }
      destruct (existsb (Z.eqb rid) seen) eqn:Es.
      { injection H1 as <-. simpl. rewrite length_app. simpl. split; [auto|lia]. }
      injection H1 as <-. simpl. rewrite length_app. simpl. split; [|lia].
      intros (Hnd & Hseen & Hall).
      assert (Hnot : ~ In rid seen).
      { intros Hi. apply existsb_Zeqb in Hi. congruence. }
      split; [|split].
      - rewrite map_app. simpl. apply NoDup_snoc; [|assumption].
        intros Hi. apply Hseen in Hi. contradiction.
      - intros x. rewrite map_app. simpl. rewrite in_app_iff. simpl.
        rewrite <- Hseen. tauto.
      - apply Forall_app. split; [assumption|]. constructor; [|constructor].
        simpl. split; [lia|assumption]. }
    destruct Hstep as [Hs1 Hl1]. split; [auto|]. simpl in *. lia.
Qed.

Lemma parse_regions_facts wb regions errs :
  _parse_regions_tab wb = Val (regions, errs) ->
  NoDup (map fst regions)
  /\ Forall (fun r => 0 < fst r /\ snd r <> "") regions
  /\ (Xl.has_sheet wb "Regions" = false -> regions = [] /\ errs = [])
  /\ (forall ws hm data,
        Xl.get_sheet wb "Regions" = Val ws -> _read_sheet_rows ws = (hm, data) ->
        hm_mem "region_id" hm = true -> hm_mem "region_name" hm = true ->
        (List.length regions + List.length errs = List.length data)%nat).
Proof.
  unfold _parse_regions_tab. destruct (Xl.has_sheet wb "Regions") eqn:Hs; simpl.
  2: { intros [= <- <-]. split; [constructor|]. split; [constructor|].
       split; [auto|]. intros ws hm data Hg.
       assert (Xl.has_sheet wb "Regions" = true) by (apply has_sheet_get; eauto).
       congruence. }
  apply has_sheet_get in Hs as [ws Hg]. rewrite Hg. cbn [bindR].
  destruct (_read_sheet_rows ws) as [hm data] eqn:Hr.
  destruct (hm_mem "region_id" hm) eqn:Hid; simpl.
  2: { intros [= <- <-]. split; [constructor|]. split; [constructor|].
       split; [discriminate|].
       intros ws' hm' data' [= <-]. rewrite Hr. intros [= <- <-]. congruence. }
  destruct (hm_mem "region_name" hm) eqn:Hname; simpl.
  2: { intros [= <- <-]. split; [constructor|]. split; [constructor|].
       split; [discriminate|].
       intros ws' hm' data' [= <-]. rewrite Hr. intros [= <- <-]. congruence. }
  intros H. apply bindR_val in H as ([[rs seen] es] & Hloop & H).
  injection H as <- <-.
  apply regions_loop in Hloop as [Hinv Hlen]; try assumption.
  destruct Hinv as (Hnd & _ & Hall).
  { simpl. split; [constructor|]. split; [tauto|constructor]. }
  split; [assumption|]. split; [assumption|]. split; [discriminate|].
  intros ws' hm' data' [= <-]. rewrite Hr. intros [= <- <-] _ _. simpl in Hlen. lia.
Qed.

(** [_parse_regions_tab] returns regions with pairwise distinct, positive
    ids and non-empty names, and returns nothing without a [Regions]
    sheet.  On a sheet with both columns, every data row gives either one
    region or one error. *)
Theorem parse_regions_sound wb regions errs :
  _parse_regions_tab wb = Val (regions, errs) ->
  NoDup (map fst regions)
  /\ Forall (fun r => 0 < fst r /\ snd r <> "") regions
  /\ (Xl.has_sheet wb "Regions" = false -> regions = [] /\ errs = [])
  /\ (forall ws hm data,
        Xl.get_sheet wb "Regions" = Val ws -> _read_sheet_rows ws = (hm, data) ->
        hm_mem "region_id" hm = true -> hm_mem "region_name" hm = true ->
        (List.length regions + List.length errs = List.length data)%nat).
Proof. intros H. now apply parse_regions_facts. Qed.

Lemma parse_regions_sound_witness :
  NoDup (map fst [(1, "North"); (2, "South")])
  /\ Forall (fun r : Z * string => 0 < fst r /\ snd r <> "") [(1, "North"); (2, "South")].
Proof.
  destruct (@parse_regions_sound sample_regional_wb [(1, "North"); (2, "South")] [])
    as (H1 & H2 & _).
  - vm_compute. reflexivity.
  - split; assumption.
Defined.

(** ** Types and entries *)

Lemma dedupe_spec seen l :
  NoDup (dedupe seen l)
  /\ forall x, In x (dedupe seen l) <-> In x l /\ ~ In x seen.
Proof.
  revert seen; induction l as [|a t IH]; intros seen; simpl.
  - split; [constructor|]. tauto.
  - destruct (existsb (String.eqb a) seen) eqn:E.
    + destruct (IH seen) as [Hnd Hin]. split; [assumption|].
      apply existsb_exists in E as (y & Hy & Hay). apply String.eqb_eq in Hay. subst y.
      intros x. rewrite Hin. split; [tauto|]. intros [[<-|H] Hn]; [contradiction|tauto].
    + destruct (IH (a :: seen)) as [Hnd Hin].
      assert (Hna : ~ In a seen).
      { intros Hi. assert (existsb (String.eqb a) seen = true); [|congruence].
        apply existsb_exists. exists a. split; [assumption|apply String.eqb_refl]. }
      split.
      * constructor; [|assumption]. rewrite Hin. simpl. tauto.
      * intros x. simpl. rewrite Hin. simpl. split.
        -- intros [<-|[H1 H2]]; [tauto|]. tauto.
        -- intros [[<-|H1] H2]; [now left|]. destruct (String.eqb_spec a x); [now left|].
           right. tauto.
Qed.

Lemma dedupe_id seen l :
  NoDup l -> (forall x, In x l -> ~ In x seen) -> dedupe seen l = l.
Proof.
  revert seen; induction l as [|a t IH]; intros seen Hnd Hs; simpl; [reflexivity|].
  inversion Hnd as [|? ? Ha Ht]; subst.
  destruct (existsb (String.eqb a) seen) eqn:E.
  - apply existsb_exists in E as (y & Hy & Hay). apply String.eqb_eq in Hay. subst y.
    exfalso. apply (Hs a); [now left|assumption].
  - f_equal. apply IH; [assumption|]. intros x Hx [<-|Hi]; [contradiction|].
    apply (Hs x); [now right|assumption].
Qed.

Lemma in_uniform_entries kind hm data e :
  In e (uniform_entries kind hm data) <->
  exists row_no r, In (row_no, r) data
                   /\ _cell_str (cell_of hm r kind) <> ""
                   /\ e = uniform_entry (_cell_str (cell_of hm r kind)).
Proof.
  unfold uniform_entries. rewrite in_flat_map. split.
  - intros ([row_no r] & Hin & He). unfold uniform_row_entries in He. simpl in He.
    destruct (String.eqb_spec (_cell_str (cell_of hm r kind)) "") as [E|E];
      [contradiction|]. destruct He as [<-|[]]. eauto.
  - intros (row_no & r & Hin & Hne & ->). exists (row_no, r). split; [assumption|].
    unfold uniform_row_entries. simpl.
    destruct (String.eqb_spec (_cell_str (cell_of hm r kind)) "") as [E|E];
      [contradiction|now left].
Qed.

Lemma mode_entries_fit mode kind hm data e :
  In e (mode_entries mode kind hm data) -> entry_fits mode e.
Proof.
  unfold mode_entries, entry_fits.
  destruct (String.eqb mode ROLL_RANGE).
  - intros H. apply in_range_entries in H as (n & r & mi & ma & _ & Hne & _ & _ & ->).
    simpl. split; [assumption|]. split; [eauto|reflexivity].
  - destruct (String.eqb mode ROLL_WEIGHT).
    + intros H. apply in_weight_entries in H as (n & r & w & _ & Hne & _ & Hw & ->).
      simpl. split; [assumption|]. split; [reflexivity|]. split; [reflexivity|eauto].
    + intros H. apply in_uniform_entries in H as (n & r & _ & Hne & ->).
      simpl. auto.
Qed.

Lemma parse_type_tab_unpaired wb tab ws hm data mode types mr errors :
  Xl.get_sheet wb tab = Val ws -> _read_sheet_rows ws = (hm, data) ->
  hm_mem "type" hm = true -> header_mode hm = None ->
  _parse_type_tab wb tab = Val (mode, types, mr, errors) ->
  mode = ROLL_RANGE /\ types = [] /\ mr = None /\ errors <> [].
Proof.
  intros Hg Hr Ht Hm. unfold _parse_type_tab.
  assert (Hs : Xl.has_sheet wb tab = true) by (apply has_sheet_get; eauto).
  rewrite Hs, Hg. simpl. rewrite Hr, Ht. simpl.
  rewrite (@detect_mode_unpaired tab hm data Hm). cbn [bindR].
  simpl (_ =? _)%string. cbv iota.
  destruct data as [|[row_no r] rest].
  - simpl. intros [= <- <- <- <-]. repeat split. discriminate.
  - unfold _validate_ranges, collect_ranges. cbn [for_each bindR].
    unfold header_mode in Hm.
    destruct (hm_mem "min" hm) eqn:Hmin, (hm_mem "max" hm) eqn:Hmax;
      simpl in Hm; try discriminate.
    + rewrite (@cell_at_mem hm r _ Hmin). cbn [bindR].
      unfold cell_at. rewrite (@hm_get_not_mem hm _ Hmax). simpl. discriminate.
    + unfold cell_at at 1. rewrite (@hm_get_not_mem hm _ Hmin). simpl. discriminate.
    + destruct (hm_mem "weight" hm); discriminate.
Qed.

Lemma parse_type_tab_facts wb tab mode types mr errors :
  _parse_type_tab wb tab = Val (mode, types, mr, errors) ->
  NoDup types
  /\ Forall (fun t => t <> "") types
  /\ (mode = ROLL_RANGE \/ mode = ROLL_WEIGHT \/ mode = ROLL_UNIFORM)
  /\ (mr = None \/ exists m, mr = Some m /\ 0 < m)
  /\ (errors = [] -> types <> []).
Proof.
  intros H. destruct (Xl.has_sheet wb tab) eqn:Hs.
  2: { unfold _parse_type_tab in H. rewrite Hs in H. simpl in H.
       injection H as <- <- <- <-. repeat split; try constructor; auto; discriminate. }
  apply has_sheet_get in Hs as [ws Hg].
  destruct (_read_sheet_rows ws) as [hm data] eqn:Hr.
  destruct (hm_mem "type" hm) eqn:Ht.
  2: { unfold _parse_type_tab in H.
       assert (Hs : Xl.has_sheet wb tab = true) by (apply has_sheet_get; eauto).
       rewrite Hs, Hg in H. simpl in H. rewrite Hr, Ht in H. simpl in H.
       injection H as <- <- <- <-. repeat split; try constructor; auto; discriminate. }
  destruct (header_mode hm) as [m|] eqn:Hm.
  - rewrite (@parse_type_tab_paired wb tab ws hm data m Hg Hr Ht Hm) in H.
    injection H as <- <- <- <-.
    destruct (dedupe_spec [] (map e_result (mode_entries m "type" hm data)))
      as [Hnd Hin].
    split; [assumption|]. split; [|split; [|split]].
    + apply Forall_forall. intros t Hi. apply Hin in Hi as [Hi _].
      apply in_map_iff in Hi as (e & <- & He). apply mode_entries_fit in He. apply He.
    + apply mode_three in Hm. tauto.
    + apply mode_max_roll_ok.
    + intros He Hnil. apply app_eq_nil in He as [_ He]. rewrite Hnil in He. discriminate.
  - destruct (@parse_type_tab_unpaired wb tab ws hm data _ _ _ _ Hg Hr Ht Hm H) as (-> & -> & -> & He).
    repeat split; try constructor; auto.
Qed.

(** The types a types sheet yields are pairwise distinct and none is the
    empty text; the mode is one of the three, [max_roll] is absent or
    positive, and a sheet read without an error yields at least one type. *)
Theorem parse_type_tab_types wb tab mode types mr errors :
  _parse_type_tab wb tab = Val (mode, types, mr, errors) ->
  NoDup types
  /\ Forall (fun t => t <> "") types
  /\ (mode = ROLL_RANGE \/ mode = ROLL_WEIGHT \/ mode = ROLL_UNIFORM)
  /\ (mr = None \/ exists m, mr = Some m /\ 0 < m)
  /\ (errors = [] -> types <> []).
Proof. intros H. now apply parse_type_tab_facts in H. Qed.

Lemma parse_type_tab_types_witness :
  NoDup ["Boss"; "Boss1"] /\ Forall (fun t => t <> "") ["Boss"; "Boss1"].
Proof.
  destruct (@parse_type_tab_types repeated_type_wb "Encounter Types"
              ROLL_UNIFORM ["Boss"; "Boss1"] None []) as (H1 & H2 & _).
  - vm_compute. reflexivity.
  - split; assumption.
Defined.

(** ** Range sheets *)

Lemma FOP_perm {A} (R : A -> A -> Prop) l l' :
  (forall a b, R a b -> R b a) ->
  Permutation l l' -> ForallOrdPairs R l -> ForallOrdPairs R l'.
Proof.
  intros Hsym Hp. induction Hp as [|x l l' Hp IH|x y l|l l' l'' H1 IH1 H2 IH2]; intros H.
  - assumption.
  - inversion H as [|? ? Hf Hr]; subst. constructor; [|now apply IH].
    rewrite Forall_forall in *. intros z Hz. apply Hf.
    eapply Permutation_in; [symmetry; exact Hp|exact Hz].
  - inversion H as [|? ? Hf Hr]; subst. inversion Hr as [|? ? Hf' Hr']; subst.
    inversion Hf as [|? ? Hyx Hfy]; subst.
    constructor; [constructor; [now apply Hsym|assumption]|].
    constructor; assumption.
  - auto.
Qed.

(** With no neighbour overlapping in the sorted order, and no row with
    [min > max], every row lies strictly before every later one. *)
Lemma overlap_free_chain tab l :
  overlap_errors tab l = [] ->
  Forall (fun x => fst (fst x) <= snd (fst x)) l ->
  ForallOrdPairs (fun a b => snd (fst a) < fst (fst b)) l.
Proof.
  induction l as [|x t IH]; intros He Hw; [constructor|].
  destruct t as [|y t'].
  - constructor; constructor.
  - cbn [overlap_errors] in He. apply app_eq_nil in He as [He1 He2].
    inversion Hw as [|? ? Hx Hw']; subst.
    specialize (IH He2 Hw'). constructor; [|assumption].
    destruct (Z.leb_spec (fst (fst y)) (snd (fst x))) as [Hle|Hlt]; [discriminate|].
    inversion IH as [|? ? Hfy _]; subst. inversion Hw' as [|? ? Hy _]; subst.
    constructor; [assumption|].
    rewrite Forall_forall in *. intros z Hz. specialize (Hfy z Hz). lia.
Qed.

Lemma sheet_ranges_apart tab hm data :
  range_errors tab hm data = [] ->
  overlap_errors tab (stable_sort range_key_leb (sheet_ranges hm data)) = [] ->
  Forall (fun x => fst (fst x) <= snd (fst x)) (sheet_ranges hm data)
  /\ ForallOrdPairs ranges_apart (sheet_ranges hm data).
Proof.
  intros Hr Ho.
  assert (Hw : Forall (fun x => fst (fst x) <= snd (fst x)) (sheet_ranges hm data)).
  { apply Forall_forall. intros [[mi ma] n] Hin. simpl.
    destruct (Z.le_gt_cases mi ma) as [|Hgt]; [assumption|].
    apply in_sheet_ranges in Hin as (r & Hd & Hmi & Hma).
    assert (In (range_error tab n mi ma) (range_errors tab hm data)).
    { apply in_range_errors. exists n, r, mi, ma. repeat split; auto; lia. }
    rewrite Hr in H. contradiction. }
  split; [assumption|].
  pose proof (stable_sort_perm range_key_leb (sheet_ranges hm data)) as Hp.
  apply (FOP_perm (R := ranges_apart)) with (l := stable_sort range_key_leb (sheet_ranges hm data)).
  - unfold ranges_apart. tauto.
  - assumption.
  - assert (Hc : ForallOrdPairs (fun a b => snd (fst a) < fst (fst b))
                   (stable_sort range_key_leb (sheet_ranges hm data))).
    { apply (overlap_free_chain tab); [assumption|].
      apply Forall_forall. intros x Hx. rewrite Forall_forall in Hw. apply Hw.
      eapply Permutation_in; [exact Hp|exact Hx]. }
    clear - Hc. induction Hc as [|a l Hf Hr IH]; constructor; [|assumption].
    rewrite Forall_forall in *. intros z Hz. left. now apply Hf.
Qed.

Lemma range_entries_apart kind hm data :
  Forall (fun x => fst (fst x) <= snd (fst x)) (sheet_ranges hm data) ->
  ForallOrdPairs ranges_apart (sheet_ranges hm data) ->
  Forall (fun e => exists mi ma, interval e = Some (mi, ma) /\ mi <= ma)
         (range_entries kind hm data)
  /\ ForallOrdPairs apart (range_entries kind hm data).
Proof.
  unfold sheet_ranges, range_entries.
  induction data as [|[n r] t IH]; simpl; intros Hw Hp; [split; constructor|].
  apply Forall_app in Hw as [Hw1 Hw2].
  unfold range_row_triple, range_row_entries in *. simpl in *.
  destruct (_to_int (cell_of hm r "min")) as [mi|] eqn:Hmi.
  2: { destruct (String.eqb _ ""); simpl; apply IH; assumption. }
  destruct (_to_int (cell_of hm r "max")) as [ma|] eqn:Hma.
  2: { destruct (String.eqb _ ""); simpl; apply IH; assumption. }
  simpl in Hp. inversion Hp as [|? ? Hf Hr]; subst.
  destruct (IH Hw2 Hr) as [IH1 IH2].
  destruct (String.eqb _ ""); simpl; [split; assumption|].
  inversion Hw1 as [|? ? Hle _]; subst. simpl in Hle.
  split.
  - constructor; [|assumption]. exists mi, ma. split; [reflexivity|assumption].
  - constructor; [|assumption].
    apply Forall_forall. intros e He.
    apply in_range_entries in He as (n' & r' & mi' & ma' & Hd & _ & Hmi' & Hma' & ->).
    rewrite Forall_forall in Hf.
    specialize (Hf (mi', ma', n')). unfold ranges_apart in Hf. simpl in Hf.
    unfold apart. simpl. apply Hf.
    apply in_sheet_ranges. eauto.
Qed.

(** A range sheet that import accepts: every entry has an interval with
    [min <= max]; no two entries' intervals share a number, wherever they
    stand in the sheet; and [max_roll], when set, is positive, bounds every
    entry's [max] and is the [max] of one of them. *)
Theorem accepted_ranges_apart wb tab entries mr :
  _parse_result_tab wb tab = Val (ROLL_RANGE, entries, mr, []) ->
  entries <> []
  /\ Forall (fun e => exists mi ma, interval e = Some (mi, ma) /\ mi <= ma) entries
  /\ ForallOrdPairs apart entries
  /\ (mr = None \/
      exists m, mr = Some m /\ 0 < m
                /\ (forall e ma, In e entries -> e_max e = Some ma -> ma <= m)
                /\ exists e, In e entries /\ e_max e = Some m).
Proof.
  intros H. apply parse_result_tab_inv in H
    as (ws & hm & data & _ & _ & _ & _ & -> & Hne & -> & He).
  unfold mode_errors in He. simpl in He. apply app_eq_nil in He as [He1 He2].
  destruct (sheet_ranges_apart _ _ _ He1 He2) as [Hw Hp].
  destruct (range_entries_apart "result" hm data Hw Hp) as [H1 H2].
  unfold mode_entries in *. simpl in *.
  split; [assumption|]. split; [assumption|]. split; [assumption|].
  unfold mode_max_roll. simpl. unfold max_roll_of, range_max.
  destruct (Z.ltb_spec 0 (fold_left max_step (range_entries "result" hm data) 0));
    [|now left].
  right. eexists. split; [reflexivity|]. split; [assumption|]. split.
  - intros e ma Hin Hma. eapply range_max_upper; eassumption.
  - destruct (range_max_attained (range_entries "result" hm data) 0) as [Hz|Hex];
      [lia|assumption].
Qed.

Lemma accepted_ranges_apart_witness :
  ForallOrdPairs apart [range_entry 1 5 "copper"; range_entry 6 10 "gold"].
Proof.
  destruct (@accepted_ranges_apart sample_wb "Reward - Combat"
              [range_entry 1 5 "copper"; range_entry 6 10 "gold"] (Some 10))
    as (_ & _ & H & _).
  - vm_compute. reflexivity.
  - exact H.
Defined.

(** ** One tenant's rows *)

Lemma key_match_guild g grp rid ty d : key_match g grp rid ty d = true -> td_guild d = g.
Proof.
  unfold key_match. rewrite !andb_true_iff. intros [[[H _] _] _]. now apply Z.eqb_eq.
Qed.

Lemma select_def_tenant db g grp rid ty :
  Sql.select_table_def db g grp rid ty
  = find (key_match g grp rid ty) (Sql.table_defs_of db g).
Proof.
  rewrite select_table_def_find. unfold Sql.table_defs_of. symmetry.
  apply find_filter_keep. intros d Hd. apply key_match_guild in Hd. now apply Z.eqb_eq.
Qed.

Lemma select_def_in_tenant db g grp rid ty d :
  Sql.select_table_def db g grp rid ty = Some d -> In d (Sql.table_defs_of db g).
Proof.
  rewrite select_def_tenant. intros H. now apply find_some in H.
Qed.

Lemma same_tenant_refl db g : same_tenant db db g.
Proof. repeat split. Qed.

Lemma same_tenant_trans db1 db2 db3 g :
  same_tenant db1 db2 g -> same_tenant db2 db3 g -> same_tenant db1 db3 g.
Proof.
  intros (R1 & D1 & E1) (R2 & D2 & E2). split; [congruence|]. split; [congruence|].
  intros d Hd. rewrite E2 by (rewrite D1; exact Hd). now apply E1.
Qed.

Lemma same_tenant_select db db' g grp rid ty :
  same_tenant db db' g ->
  Sql.select_table_def db' g grp rid ty = Sql.select_table_def db g grp rid ty.
Proof. intros (_ & D & _). rewrite !select_def_tenant. now rewrite D. Qed.

Lemma same_tenant_regions db db' g :
  same_tenant db db' g -> _fetch_regions db' g = _fetch_regions db g.
Proof.
  intros (R & _ & _). unfold _fetch_regions, Sql.select_regions.
  unfold regions_of in R. now rewrite R.
Qed.

(** A roll reads the tenant's rows only. *)
Lemma same_tenant_roll db db' g raw grp rid ty :
  same_tenant db db' g ->
  roll_from_table db' raw g grp rid ty = roll_from_table db raw g grp rid ty.
Proof.
  intros H. unfold roll_from_table. rewrite (same_tenant_select grp rid ty H).
  destruct (Sql.select_table_def db g grp rid ty) as [t|] eqn:E; [|reflexivity].
  apply select_def_in_tenant in E. destruct H as (_ & _ & He). now rewrite (He t E).
Qed.

Lemma fold_left_agree {A B} (f f' : A -> B -> A) l a :
  (forall x b, In b l -> f x b = f' x b) -> fold_left f l a = fold_left f' l a.
Proof.
  revert a; induction l as [|b t IH]; intros a H; simpl; [reflexivity|].
  rewrite (H a b) by now left. apply IH. intros; apply H; now right.
Qed.

Lemma same_tenant_export_type db db' g rid wb t :
  same_tenant db db' g -> export_type db' g rid wb t = export_type db g rid wb t.
Proof.
  intros H. unfold export_type, _fetch_table_def, _fetch_table_entries.
  rewrite !(same_tenant_select _ _ _ H). destruct H as (_ & _ & He).
  destruct (Sql.select_table_def db g "encounter" rid (Some t)) as [d1|] eqn:E1;
    destruct (Sql.select_table_def db g "reward" rid (Some t)) as [d2|] eqn:E2;
    try reflexivity;
    repeat match goal with
           | E : Sql.select_table_def _ _ _ _ _ = Some ?d |- _ =>
               apply select_def_in_tenant in E; rewrite (He d E)
           end; reflexivity.
Qed.

Lemma same_tenant_export_tables db db' g rid d wb :
  same_tenant db db' g -> In d (Sql.table_defs_of db g) ->
  export_tables db' g rid d wb = export_tables db g rid d wb.
Proof.
  intros H Hd. unfold export_tables, _fetch_table_entries.
  destruct H as (R & D & He). rewrite (He d Hd).
  apply fold_left_agree. intros x t _. apply same_tenant_export_type.
  repeat split; assumption.
Qed.

(** The export reads the tenant's rows only. *)
Lemma same_tenant_export db db' g :
  same_tenant db db' g -> build_workbook_bytes db' g = build_workbook_bytes db g.
Proof.
  intros H. unfold build_workbook_bytes. rewrite (same_tenant_regions H).
  destruct (0 <? List.length (_fetch_regions db g))%nat.
  - f_equal. apply fold_left_agree. intros wb r _. unfold _fetch_table_def.
    rewrite (same_tenant_select _ _ _ H).
    destruct (Sql.select_table_def db g "encounter_type" (Some (fst r)) None) eqn:E;
      [|reflexivity].
    apply same_tenant_export_tables; [assumption|]. eapply select_def_in_tenant; eauto.
  - unfold _fetch_table_def. rewrite (same_tenant_select _ _ _ H).
    destruct (Sql.select_table_def db g "encounter_type" None None) eqn:E; [|reflexivity].
    f_equal. apply same_tenant_export_tables; [assumption|].
    eapply select_def_in_tenant; eauto.
Qed.

(** ** What a write for one tenant leaves of the others *)

Lemma NoDup_map_eq {A B} (f : A -> B) l a b :
  NoDup (map f l) -> In a l -> In b l -> f a = f b -> a = b.
Proof.
  induction l as [|x t IH]; simpl; [contradiction|].
  intros Hnd Ha Hb Hf. inversion Hnd as [|? ? Hx Ht]; subst.
  destruct Ha as [<-|Ha], Hb as [<-|Hb]; [reflexivity| | |now apply IH].
  - exfalso. apply Hx. rewrite Hf. now apply in_map.
  - exfalso. apply Hx. rewrite <- Hf. now apply in_map.
Qed.

Lemma in_new_entries base specs e :
  In e (new_entries base specs) -> base <= te_table_id e.
Proof.
  unfold new_entries. intros H. apply in_flat_map in H as ([id s] & Hin & He).
  apply entry_rows_table in He. apply in_number in Hin as [Hin _]. simpl in He. lia.
Qed.

(** The entries of a table of another tenant are not among those deleted
    with the tables of [g]. *)
Lemma kept_entries_other g db d :
  tables_ok db -> In d (db_table_def db) -> td_guild d <> g ->
  filter (fun e => te_table_id e =? td_id d) (kept_entries g db)
  = filter (fun e => te_table_id e =? td_id d) (db_table_entry db).
Proof.
  intros Hok Hd Hg. unfold kept_entries. apply filter_filter_keep.
  intros e He. apply Z.eqb_eq in He. apply negb_true_iff.
  destruct (existsb _ _) eqn:Ex; [|reflexivity]. exfalso.
  apply existsb_exists in Ex as (d' & Hd' & Hid). apply filter_In in Hd' as [Hd' Hg'].
  apply Z.eqb_eq in Hid, Hg'.
  assert (d' = d) by (apply (@NoDup_map_eq _ _ td_id (db_table_def db) d' d (ok_ids Hok)); auto; congruence).
  subst d'. contradiction.
Qed.

Lemma in_table_defs_of db g d :
  In d (Sql.table_defs_of db g) <-> In d (db_table_def db) /\ td_guild d = g.
Proof. unfold Sql.table_defs_of. rewrite filter_In, Z.eqb_eq. tauto. Qed.

Lemma replaced_other_tenant g u regions rm specs db g' :
  tables_ok db -> g' <> g -> same_tenant db (replaced g u regions rm specs db) g'.
Proof.
  intros Hok Hne.
  destruct (@replaced_other_guild g u regions rm specs db g' Hne) as (Hr & Hd & _).
  split; [assumption|]. split; [assumption|].
  intros d Hin. apply in_table_defs_of in Hin as [Hin Hg].
  rewrite replaced_closed. unfold Sql.select_table_entries. cbn [db_table_entry].
  f_equal. rewrite filter_app.
  rewrite (@filter_none _ _ (new_entries (import_base g db) specs)).
  - rewrite app_nil_r. apply kept_entries_other; [assumption|assumption|congruence].
  - intros e He. apply in_new_entries in He. apply Z.eqb_neq.
    assert (td_id d <= max_id (kept_defs g db)).
    { apply max_id_upper. unfold kept_defs. apply filter_In. split; [assumption|].
      apply negb_true_iff, Z.eqb_neq. congruence. }
    unfold import_base in He. lia.
Qed.

Lemma deleted_other_tenant g db g' :
  tables_ok db -> g' <> g -> same_tenant db (deleted g db) g'.
Proof.
  intros Hok Hne.
  assert (Hk : forall A (f : A -> Z) (x : A),
             (f x =? g') = true -> negb (f x =? g) = true).
  { intros A f x Hx. apply Z.eqb_eq in Hx. apply negb_true_iff, Z.eqb_neq. congruence. }
  unfold same_tenant, regions_of, Sql.table_defs_of, deleted.
  cbn [db_region db_table_def Sql.delete_guild_config Sql.delete_table_defs
         Sql.delete_regions].
  split; [apply filter_filter_keep; intros x; apply (Hk _ _ x)|].
  split; [apply filter_filter_keep; intros x; apply (Hk _ _ x)|].
  intros d Hin. apply filter_In in Hin as [Hin Hg]. apply Z.eqb_eq in Hg.
  unfold Sql.select_table_entries.
  cbn [db_table_entry Sql.delete_guild_config Sql.delete_table_defs Sql.delete_regions
         db_table_def].
  f_equal. apply (@kept_entries_other g db d); [assumption|assumption|congruence].
Qed.

Lemma deleted_tenant_empty g db : tenant_empty (deleted g db) g.
Proof.
  unfold tenant_empty, regions_of, Sql.table_defs_of, deleted.
  cbn [db_region db_table_def Sql.delete_guild_config Sql.delete_table_defs
         Sql.delete_regions].
  split; apply filter_filter_drop; intros x Hx; apply negb_false_iff; exact Hx.
Qed.

(** A tenant without rows: nothing to export, no table to roll on. *)
Lemma tenant_empty_reads db g :
  tenant_empty db g ->
  build_workbook_bytes db g = Exc no_data
  /\ forall raw grp rid ty,
       roll_from_table db raw g grp rid ty
       = Exc (RuntimeError ("Missing table: " ++ grp ++ " region="
                              ++ fmt_opt_Z rid ++ " type=" ++ fmt_opt_str ty)).
Proof.
  intros [Hr Hd]. split.
  - unfold build_workbook_bytes, _fetch_regions, Sql.select_regions.
    unfold regions_of in Hr. rewrite Hr. simpl.
    unfold _fetch_table_def. rewrite select_def_tenant, Hd. reflexivity.
  - intros raw grp rid ty. unfold roll_from_table.
    rewrite select_def_tenant, Hd. reflexivity.
Qed.

Lemma delete_guild_data_result g db f r c' :
  delete_guild_data g (connect db f) = (r, c') ->
  (r = Val tt /\ committed c' = deleted g db)
  \/ (exists e, r = Exc e) /\ committed c' = db.
Proof.
  unfold delete_guild_data.
  destruct (begin (connect db f)) as [[[]|e] c1] eqn:Eb.
  2: { intros [= <- <-]. right. split; [eauto|]. now apply begin_exc in Eb. }
  apply begin_val in Eb as (Hc1 & _ & Ht1).
  match goal with |- context [bindM ?m ?k c1] => destruct (bindM m k c1) as [[[]|e] c2] eqn:E end.
  - intros [= <- <-]. left. split; [reflexivity|].
    apply bindM_val in E as ([] & c3 & H3 & E). apply execute_val in H3 as [H3 _].
    apply bindM_val in E as ([] & c4 & H4 & E). apply execute_val in H4 as [H4 _].
    apply bindM_val in E as ([] & c5 & H5 & E). apply execute_val in H5 as [H5 _].
    apply commit_val in E as [E _]. rewrite E, H5, H4, H3. unfold working.
    rewrite Ht1. reflexivity.
  - intros [= <- <-]. right. split; [eauto|]. simpl in Hc1. simpl. rewrite <- Hc1.
    apply bindM_exc in E as [E|([] & c3 & H3 & E)];
      [now apply keeps_execute in E|]. apply keeps_execute in H3.
    apply bindM_exc in E as [E|([] & c4 & H4 & E)];
      [apply keeps_execute in E; congruence|]. apply keeps_execute in H4.
    apply bindM_exc in E as [E|([] & c5 & H5 & E)];
      [apply keeps_execute in E; congruence|]. apply keeps_execute in H5.
    apply commit_exc in E. congruence.
Qed.

(** Whatever its outcome, [delete_guild_data] leaves no transaction open:
    the commit closed it, or the rollback of the handler did. *)
Lemma delete_guild_data_closed g db f r c' :
  delete_guild_data g (connect db f) = (r, c') -> txn c' = None.
Proof.
  unfold delete_guild_data.
  destruct (begin (connect db f)) as [[[]|e] c1] eqn:Eb; [|discriminate Eb].
  match goal with |- context [bindM ?m ?k c1] => destruct (bindM m k c1) as [[[]|e] c2] eqn:E end.
  - intros [= <- <-].
    apply bindM_val in E as ([] & c3 & _ & E).
    apply bindM_val in E as ([] & c4 & _ & E).
    apply bindM_val in E as ([] & c5 & _ & E).
    now apply commit_val in E as [_ E].
  - intros [= <- <-]. reflexivity.
Qed.

(** ** Writes for the same tenant, one after the other *)

Lemma kept_defs_new g u base specs defs :
  filter (fun d => negb (td_guild d =? g))
         (filter (fun d => negb (td_guild d =? g)) defs ++ new_defs g u base specs)
  = filter (fun d => negb (td_guild d =? g)) defs.
Proof.
  rewrite filter_app, filter_filter_keep by auto.
  rewrite (@filter_none _ _ (new_defs g u base specs)); [apply app_nil_r|].
  intros d Hd. apply new_defs_guild in Hd. apply negb_false_iff. now apply Z.eqb_eq.
Qed.

Lemma tenant_defs_new g u base specs defs :
  filter (fun d => td_guild d =? g)
         (filter (fun d => negb (td_guild d =? g)) defs ++ new_defs g u base specs)
  = new_defs g u base specs.
Proof.
  rewrite filter_app, filter_filter_drop.
  - simpl. apply filter_all. intros d Hd. apply new_defs_guild in Hd. now apply Z.eqb_eq.
  - intros d Hd. apply negb_false_iff. exact Hd.
Qed.

Lemma new_entries_def g u base specs e :
  In e (new_entries base specs) ->
  exists d, In d (new_defs g u base specs) /\ td_id d = te_table_id e.
Proof.
  unfold new_entries, new_defs. intros H. apply in_flat_map in H as ([id s] & Hin & He).
  apply entry_rows_table in He. exists (spec_def g u id s). split.
  - apply in_map_iff. exists (id, s). auto.
  - simpl in *. congruence.
Qed.

(** The entries an import for [g] keeps are those it kept before, whatever
    it has inserted for [g] since. *)
Lemma kept_entries_new g u base specs db :
  tables_ok db -> base = import_base g db ->
  filter (fun e => negb (existsb (fun d => td_id d =? te_table_id e)
                           (new_defs g u base specs)))
         (kept_entries g db ++ new_entries base specs)
  = kept_entries g db.
Proof.
  intros Hok ->. rewrite filter_app.
  rewrite (@filter_none _ _ (new_entries (import_base g db) specs)).
  - rewrite app_nil_r. apply filter_all. intros e He. apply negb_true_iff.
    destruct (existsb _ _) eqn:Ex; [|reflexivity]. exfalso.
    apply existsb_exists in Ex as (d & Hd & Hid). apply Z.eqb_eq in Hid.
    unfold new_defs in Hd. apply in_map_iff in Hd as ([id s] & <- & Hin).
    apply in_number in Hin as [Hin _]. simpl in Hid.
    unfold kept_entries in He. apply filter_In in He as [He Hk].
    destruct (ok_fk Hok e He) as (d & Hd & Hde).
    assert (td_guild d <> g).
    { intros Hg. apply negb_true_iff in Hk.
      assert (existsb (fun d0 => td_id d0 =? te_table_id e)
                (filter (fun d0 => td_guild d0 =? g) (db_table_def db)) = true);
        [|congruence].
      apply existsb_exists. exists d. split; [|now apply Z.eqb_eq].
      apply filter_In. split; [assumption|now apply Z.eqb_eq]. }
    assert (td_id d <= max_id (kept_defs g db)).
    { apply max_id_upper. unfold kept_defs. apply filter_In. split; [assumption|].
      now apply negb_true_iff, Z.eqb_neq. }
    unfold import_base in Hin. lia.
  - intros e He. apply negb_false_iff.
    apply (new_entries_def g u) in He as (d & Hd & Hid).
    apply existsb_exists. exists d. split; [assumption|now apply Z.eqb_eq].
Qed.

Lemma deleted_replaced g u r rm specs db :
  tables_ok db -> deleted g (replaced g u r rm specs db) = deleted g db.
Proof.
  intros Hok. unfold deleted, Sql.delete_guild_config, Sql.delete_table_defs,
    Sql.delete_regions. cbn [db_region db_table_def db_table_entry db_guild_config].
  rewrite (replaced_closed g u r rm specs db).
  cbn [db_region db_table_def db_table_entry db_guild_config].
  unfold kept_defs. rewrite kept_defs_new, tenant_defs_new.
  fold (kept_defs g db). 
  rewrite (kept_entries_new g u specs Hok eq_refl).
  f_equal.
  - rewrite filter_app, filter_filter_keep by auto.
    rewrite (@filter_none _ _ (if rm then region_rows g r else [])); [apply app_nil_r|].
    intros x Hx. apply negb_false_iff, Z.eqb_eq. destruct rm; [|contradiction].
    now apply region_rows_guild in Hx.
  - unfold Sql.upsert_guild_config. cbn [db_guild_config].
    destruct (existsb (fun r0 => fst r0 =? g) (db_guild_config db)) eqn:E.
    + induction (db_guild_config db) as [|[k v] t IH]; simpl; [reflexivity|].
      destruct (Z.eqb_spec k g); simpl.
      * rewrite Z.eqb_refl. simpl.
        destruct (existsb (fun r0 => fst r0 =? g) t) eqn:Et; [now apply IH|].
        clear IH E. induction t as [|[k' v'] t' IH']; simpl; [reflexivity|].
        simpl in Et. apply orb_false_iff in Et as [Ek Et].
        simpl in Ek. rewrite Ek. simpl. rewrite Ek. simpl. f_equal. now apply IH'.
      * destruct (Z.eqb_spec k g); [contradiction|]. simpl. f_equal.
        apply IH. simpl in E. destruct (Z.eqb_spec k g); [contradiction|exact E].
    + rewrite filter_app. simpl. rewrite Z.eqb_refl. simpl. apply app_nil_r.
Qed.

Lemma pair_eta {A B} (x : A * B) a : fst x = a -> x = (a, snd x).
Proof. destruct x. simpl. now intros ->. Qed.

(** An import for one tenant, whatever its outcome, changes nothing of
    what another tenant has stored: its regions, its table definitions and
    their entries are as before, and so are its export and every roll on
    its tables. *)
Theorem import_isolation db g wb u f r c' g' :
  reachable db ->
  import_workbook_bytes g wb u (connect db f) = (r, c') ->
  g' <> g ->
  same_tenant db (committed c') g'
  /\ build_workbook_bytes (committed c') g' = build_workbook_bytes db g'
  /\ forall raw grp rid ty,
       roll_from_table (committed c') raw g' grp rid ty
       = roll_from_table db raw g' grp rid ty.
Proof.
  intros Hr Hi Hne.
  assert (Hs : same_tenant db (committed c') g').
  { destruct (import_committed _ _ _ _ Hi) as [Hc|(counts & errors & ->)].
    - rewrite Hc. apply same_tenant_refl.
    - apply import_store in Hi as (regions & _ & _ & _ & Hc & _).
      rewrite Hc. unfold imported. apply replaced_other_tenant; [|assumption].
      now apply reachable_store_ok in Hr as [Hok _]. }
  split; [assumption|]. split; [now apply same_tenant_export|].
  intros. now apply same_tenant_roll.
Qed.

Lemma import_isolation_witness :
  build_workbook_bytes
    (committed (snd (import_workbook_bytes 8 sample_regional_wb "t1"
                       (connect sample_db no_fault)))) 7
  = build_workbook_bytes sample_db 7.
Proof.
  apply (@import_isolation sample_db 8 sample_regional_wb "t1" no_fault
           (fst (import_workbook_bytes 8 sample_regional_wb "t1"
                   (connect sample_db no_fault))) _ 7).
  - exact sample_db_reachable.
  - apply pair_eta. reflexivity.
  - lia.
Defined.

(** [delete_guild_data] either commits or raises.  When it commits, the
    tenant has no region and no table left, its export fails with "no
    data" and every roll for it fails with "Missing table".  When it
    raises, the transaction is rolled back: the store is the one before
    the call.  In both cases no transaction is left open, and no other
    tenant's rows, export or rolls change. *)
Theorem delete_guild_data_effect db g f r c' :
  reachable db ->
  delete_guild_data g (connect db f) = (r, c') ->
  ((r = Val tt
    /\ tenant_empty (committed c') g
    /\ build_workbook_bytes (committed c') g = Exc no_data
    /\ forall raw grp rid ty,
         roll_from_table (committed c') raw g grp rid ty
         = Exc (RuntimeError ("Missing table: " ++ grp ++ " region="
                                ++ fmt_opt_Z rid ++ " type=" ++ fmt_opt_str ty)))
   \/ ((exists e c2, r = Exc e /\ c' = rollback c2) /\ committed c' = db))
  /\ txn c' = None
  /\ forall g', g' <> g ->
       same_tenant db (committed c') g'
       /\ build_workbook_bytes (committed c') g' = build_workbook_bytes db g'
       /\ forall raw grp rid ty,
            roll_from_table (committed c') raw g' grp rid ty
            = roll_from_table db raw g' grp rid ty.
Proof.
  intros Hr Hd. apply reachable_store_ok in Hr as [Hok _].
  pose proof (delete_guild_data_closed _ _ _ Hd) as Ht.
  pose proof Hd as Hd'.
  apply delete_guild_data_result in Hd as [[-> Hc]|[[e He] Hc]].
  - rewrite Hc. split; [|split; [assumption|]].
    + left. split; [reflexivity|]. split; [apply deleted_tenant_empty|].
      apply tenant_empty_reads, deleted_tenant_empty.
    + intros g' Hne.
      pose proof (deleted_other_tenant Hok Hne) as Hs.
      split; [assumption|]. split; [now apply same_tenant_export|].
      intros raw grp rid ty. now apply same_tenant_roll.
  - split; [|split; [assumption|]].
    + right. split; [|assumption]. subst r.
      unfold delete_guild_data in Hd'.
      destruct (begin (connect db f)) as [[[]|e0] c1] eqn:Eb; [|discriminate Eb].
      match type of Hd' with
      | context [bindM ?m ?k c1] => destruct (bindM m k c1) as [[[]|e1] c2] eqn:E
      end; [discriminate Hd'|].
      injection Hd' as <- <-. exists e1, c2. auto.
    + rewrite Hc. intros g' _. split; [apply same_tenant_refl|]. split; reflexivity.
Qed.

Lemma delete_guild_data_effect_witness :
  build_workbook_bytes
    (committed (snd (delete_guild_data 7 (connect sample_db no_fault)))) 7
  = Exc no_data
  /\ txn (snd (delete_guild_data 7 (connect sample_db no_fault))) = None.
Proof.
  destruct (@delete_guild_data_effect sample_db 7 no_fault
              (fst (delete_guild_data 7 (connect sample_db no_fault)))
              (snd (delete_guild_data 7 (connect sample_db no_fault)))
              sample_db_reachable (pair_eta _ eq_refl))
    as [[(_ & _ & H & _)|[(e & c2 & He & _) _]] [Ht _]].
  - split; [exact H|exact Ht].
  - vm_compute in He. discriminate He.
Defined.

(** Deleting a tenant after an import for it leaves the store that the
    deletion alone would have left: nothing of the import survives. *)
Theorem delete_after_import db g wb u f1 n e c1 f2 c2 f3 c3 :
  reachable db ->
  import_workbook_bytes g wb u (connect db f1) = (Val (Some n, e), c1) ->
  delete_guild_data g (connect (committed c1) f2) = (Val tt, c2) ->
  delete_guild_data g (connect db f3) = (Val tt, c3) ->
  committed c2 = committed c3.
Proof.
  intros Hr H1 H2 H3. apply reachable_store_ok in Hr as [Hok _].
  pose proof (import_success_store _ _ _ _ H1)
    as (r1 & rm1 & st1 & s1 & _ & _ & _ & Hc1 & _).
  apply delete_guild_data_result in H2 as [[_ Hc2]|[[x Hx] _]]; [|discriminate].
  apply delete_guild_data_result in H3 as [[_ Hc3]|[[x Hx] _]]; [|discriminate].
  rewrite Hc2, Hc3, Hc1. simpl. now apply deleted_replaced.
Qed.

Lemma delete_after_import_witness :
  committed (snd (delete_guild_data 7 (connect sample_db no_fault)))
  = committed (snd (delete_guild_data 7 (connect empty_db no_fault))).
Proof.
  refine (@delete_after_import empty_db 7 sample_wb "t0" no_fault _ _ _
            no_fault _ no_fault _ reach_empty sample_db_imported _ _).
  - apply pair_eta. vm_compute. reflexivity.
  - apply pair_eta. vm_compute. reflexivity.
Defined.

(** ** Where a tenant's rows come from *)

Lemma map_flat_map {A B C} (f : A -> list B) (h : B -> C) l :
  map h (flat_map f l) = flat_map (fun x => map h (f x)) l.
Proof.
  induction l as [|a t IH]; simpl; [reflexivity|]. now rewrite map_app, IH.
Qed.

Lemma NoDup_flat_map {A B} (f : A -> list B) l :
  NoDup l ->
  (forall x, In x l -> NoDup (f x)) ->
  (forall x y b, In x l -> In y l -> In b (f x) -> In b (f y) -> x = y) ->
  NoDup (flat_map f l).
Proof.
  induction l as [|a t IH]; simpl; intros Hnd Hf Hd; [constructor|].
  inversion Hnd as [|? ? Ha Ht]; subst.
  apply NoDup_app.
  - apply Hf. now left.
  - apply IH; [assumption| |]; intros; eauto 6.
  - intros b Hb Hb'. apply in_flat_map in Hb' as (y & Hy & Hby).
    assert (a = y) by (apply (Hd a y b); auto). subst. contradiction.
Qed.

Lemma region_keys wb rid :
  map spec_key (region_specs wb rid)
  = ("encounter_type", rid, None)
      :: flat_map (fun t => [("encounter", rid, Some t); ("reward", rid, Some t)])
                  (types_of wb rid).
Proof.
  unfold region_specs. cbn [map]. f_equal. rewrite map_flat_map. reflexivity.
Qed.

Lemma region_keys_region wb rid k :
  In k (map spec_key (region_specs wb rid)) -> snd (fst k) = rid.
Proof.
  rewrite region_keys. intros [<-|H]; [reflexivity|].
  apply in_flat_map in H as (t & _ & [<-|[<-|[]]]); reflexivity.
Qed.

Lemma types_of_nodup wb rid : NoDup (types_of wb rid).
Proof.
  unfold types_of.
  destruct (_parse_type_tab wb (_enc_type_tab rid)) as [[[[mode types] mr] errs]|e] eqn:E;
    [|constructor].
  now apply parse_type_tab_facts in E as [H _].
Qed.

Lemma region_keys_nodup wb rid : NoDup (map spec_key (region_specs wb rid)).
Proof.
  rewrite region_keys. constructor.
  - intros H. apply in_flat_map in H as (t & _ & [H|[H|[]]]); discriminate.
  - apply NoDup_flat_map.
    + apply types_of_nodup.
    + intros t _. constructor; [intros [H|[]]; discriminate|].
      constructor; [intros []|constructor].
    + intros x y b _ _ [<-|[<-|[]]] [H|[H|[]]]; congruence.
Qed.

Lemma region_ids_nodup rm regions :
  NoDup (map fst regions) -> NoDup (region_ids rm regions).
Proof.
  unfold region_ids. destruct rm; [|intros _; constructor; [intros []|constructor]].
  induction regions as [|[rid name] t IH]; simpl; intros H; [constructor|].
  inversion H as [|? ? Hn Ht]; subst. constructor; [|now apply IH].
  intros Hin. apply in_map_iff in Hin as ([rid' name'] & [= ->] & Hin).
  apply Hn. change rid with (fst (rid, name')). now apply in_map.
Qed.

Lemma wb_specs_keys_nodup wb regions :
  accepted wb regions -> NoDup (map spec_key (wb_specs wb regions)).
Proof.
  intros (Hp & _ & _). apply parse_regions_facts in Hp as (Hnd & _).
  unfold wb_specs. rewrite map_flat_map. apply NoDup_flat_map.
  - now apply region_ids_nodup.
  - intros rid _. apply region_keys_nodup.
  - intros x y k _ _ Hx Hy. apply region_keys_region in Hx, Hy. congruence.
Qed.

Lemma region_rows_sorted g regions :
  StronglySorted
    (fun a b => ((rg_sort_order a <? rg_sort_order b)
                 || ((rg_sort_order a =? rg_sort_order b)
                     && (rg_region_id a <=? rg_region_id b))) = true)
    (region_rows g regions).
Proof.
  unfold region_rows. generalize 0%nat as n.
  induction regions as [|r t IH]; intros n; simpl; constructor; [apply IH|].
  apply Forall_forall. intros x Hx. apply in_map_iff in Hx as ([i p] & <- & Hi).
  apply in_enumerate in Hi as [Hle _]. simpl.
  apply orb_true_iff. left. apply Z.ltb_lt. lia.
Qed.

(** What the exporter and the bot read of the tenant's regions. *)
Lemma holds_regions db g wb regions :
  tenant_holds db g wb regions ->
  _fetch_regions db g = (if Xl.has_sheet wb "Regions" then regions else []).
Proof.
  intros (u & base & Hr & _). unfold _fetch_regions, Sql.select_regions.
  unfold regions_of in Hr. rewrite Hr. destruct (Xl.has_sheet wb "Regions"); [|reflexivity].
  rewrite stable_sort_id by apply region_rows_sorted.
  unfold region_rows. rewrite map_map. cbn [rg_region_id rg_region_name].
  clear Hr. generalize 0%nat as n. induction regions as [|[rid name] t IH]; intros n;
    cbn [enumerate map fst snd]; [reflexivity|]. f_equal. apply IH.
Qed.

(** The lookup of a table of the workbook finds its definition and, under
    its id, the entries of the sheet in sheet order. *)
Lemma holds_select db g wb regions s :
  accepted wb regions -> tenant_holds db g wb regions ->
  In s (wb_specs wb regions) ->
  exists d, Sql.select_table_def db g (ts_group s) (ts_region s) (ts_type s) = Some d
            /\ td_roll_mode d = ts_mode s /\ td_max_roll d = ts_max_roll s
            /\ Sql.select_table_entries db (td_id d) = entry_rows (td_id d) (ts_entries s).
Proof.
  intros Ha (u & base & _ & Hd & He) Hs.
  destruct (@in_number_inv base _ _ Hs) as [id Hid].
  exists (spec_def g u id s). rewrite select_def_tenant, Hd.
  rewrite (@find_new_def g u base (wb_specs wb regions) id s (wb_specs_keys_nodup Ha) Hid).
  split; [reflexivity|]. split; [reflexivity|]. split; [reflexivity|].
  simpl. now apply He.
Qed.

Lemma holds_select_none db g wb regions grp rid ty :
  tenant_holds db g wb regions ->
  ~ In (grp, rid, ty) (map spec_key (wb_specs wb regions)) ->
  Sql.select_table_def db g grp rid ty = None.
Proof.
  intros (u & base & _ & Hd & _) Hn. rewrite select_def_tenant, Hd.
  now apply find_new_def_none.
Qed.

Lemma same_tenant_holds db db' g wb regions :
  same_tenant db db' g -> tenant_holds db g wb regions -> tenant_holds db' g wb regions.
Proof.
  intros (R & D & E) (u & base & Hr & Hd & He). exists u, base.
  split; [congruence|]. split; [congruence|].
  intros id s Hin. rewrite <- (He id s Hin).
  apply (E (spec_def g u id s)). rewrite Hd. unfold new_defs.
  apply in_map_iff. exists (id, s). auto.
Qed.

Lemma same_tenant_empty db db' g :
  same_tenant db db' g -> tenant_empty db g -> tenant_empty db' g.
Proof. intros (R & D & _) [Hr Hd]. split; congruence. Qed.

(** The store after a successful import holds the workbook for the tenant. *)
Lemma imported_holds g u wb regions db :
  tables_ok db -> tenant_holds (imported g u wb regions db) g wb regions.
Proof.
  intros Hok. exists u, (import_base g db). unfold imported.
  fold (wb_specs wb regions).
  destruct (replaced_same_guild g u regions (Xl.has_sheet wb "Regions")
              (wb_specs wb regions) db) as (Hr & Hd & _).
  split; [assumption|]. split; [assumption|].
  intros id s Hin. rewrite replaced_closed. unfold Sql.select_table_entries.
  cbn [db_table_entry]. rewrite filter_app.
  rewrite (@filter_none _ _ (kept_entries g db)).
  - cbn [app]. rewrite (@filter_new_entries _ _ _ _ Hin).
    apply stable_sort_id, entry_rows_sorted.
  - intros e He. apply Z.eqb_neq. intros Hid.
    unfold kept_entries in He. apply filter_In in He as [He Hk].
    destruct (ok_fk Hok e He) as (d & Hd' & Hde).
    assert (td_guild d <> g).
    { intros Hg. apply negb_true_iff in Hk.
      assert (existsb (fun d0 => td_id d0 =? te_table_id e)
                (filter (fun d0 => td_guild d0 =? g) (db_table_def db)) = true);
        [|congruence].
      apply existsb_exists. exists d. split; [|now apply Z.eqb_eq].
      apply filter_In. split; [assumption|now apply Z.eqb_eq]. }
    assert (td_id d <= max_id (kept_defs g db)).
    { apply max_id_upper. unfold kept_defs. apply filter_In. split; [assumption|].
      now apply negb_true_iff, Z.eqb_neq. }
    apply in_number in Hin as [Hin _]. unfold import_base in Hin. lia.
Qed.

(** Every tenant of a store the program produced either has no row, or
    holds an accepted workbook. *)
Lemma reachable_tenants db :
  reachable db ->
  forall g, tenant_empty db g
            \/ exists wb regions, accepted wb regions /\ tenant_holds db g wb regions.
Proof.
  induction 1 as [|db g0 wb u f r c' Hr IH Hi|db g0 f r c' Hr IH Hd]; intros g.
  - left. split; reflexivity.
  - pose proof (reachable_store_ok Hr) as [Hok _].
    destruct (import_committed _ _ _ _ Hi) as [Hc|(counts & errors & ->)].
    + rewrite Hc. apply IH.
    + apply import_store in Hi as (regions & Hp & Hne & Hv & Hc & _). rewrite Hc.
      destruct (Z.eq_dec g g0) as [->|Hg].
      * right. exists wb, regions. split; [repeat split; assumption|].
        now apply imported_holds.
      * assert (Hs : same_tenant db (imported g0 u wb regions db) g)
          by (apply replaced_other_tenant; assumption).
        destruct (IH g) as [He|(wb0 & regs0 & Ha & Hh)].
        -- left. eapply same_tenant_empty; eauto.
        -- right. exists wb0, regs0. split; [assumption|].
           eapply same_tenant_holds; eauto.
  - pose proof (reachable_store_ok Hr) as [Hok _].
    apply delete_guild_data_result in Hd as [[_ Hc]|[_ Hc]]; rewrite Hc; [|apply IH].
    destruct (Z.eq_dec g g0) as [->|Hg].
    + left. apply deleted_tenant_empty.
    + pose proof (deleted_other_tenant Hok Hg) as Hs.
      destruct (IH g) as [He|(wb0 & regs0 & Ha & Hh)].
      * left. eapply same_tenant_empty; eauto.
      * right. exists wb0, regs0. split; [assumption|].
        eapply same_tenant_holds; eauto.
Qed.

(** ** What an import leaves to look up *)

Lemma in_wb_specs wb regions s :
  In s (wb_specs wb regions) <->
  exists rid, In rid (region_ids (Xl.has_sheet wb "Regions") regions)
              /\ (s = type_spec wb rid
                  \/ exists t, In t (types_of wb rid)
                               /\ (s = typed_spec "encounter" rid t
                                         (result_blob wb (_enc_tab rid t))
                                   \/ s = typed_spec "reward" rid t
                                            (result_blob wb (_rew_tab rid t)))).
Proof.
  unfold wb_specs. rewrite in_flat_map. split.
  - intros (rid & Hr & Hs). exists rid. split; [assumption|].
    unfold region_specs in Hs. destruct Hs as [<-|Hs]; [now left|]. right.
    apply in_flat_map in Hs as (t & Ht & [<-|[<-|[]]]); eauto.
  - intros (rid & Hr & Hs). exists rid. split; [assumption|].
    unfold region_specs. destruct Hs as [Hs|(t & Ht & Hs)]; [subst s; now left|]. right.
    apply in_flat_map. exists t. split; [assumption|].
    destruct Hs as [Hs|Hs]; subst s; [now left|right; now left].
Qed.

Lemma holds_stored db g wb regions s :
  accepted wb regions -> tenant_holds db g wb regions -> In s (wb_specs wb regions) ->
  stored db g (ts_group s) (ts_region s) (ts_type s) (ts_mode s) (ts_max_roll s)
         (ts_entries s).
Proof. intros Ha Hh Hs. exact (@holds_select db g wb regions s Ha Hh Hs). Qed.

(** After a successful import the store answers with the workbook: the
    regions read from the [Regions] sheet, in sheet order; for every region
    the types table with the mode and [max_roll] of the types sheet and one
    row per kept row of that sheet; and for every type of the region the
    encounter and the reward table, each with the mode, the [max_roll] and
    the entries of its sheet, in sheet order. *)
Theorem import_then_lookup db g wb u f n e c' :
  reachable db ->
  import_workbook_bytes g wb u (connect db f) = (Val (Some n, e), c') ->
  exists regions,
    _parse_regions_tab wb = Val (regions, [])
    /\ _fetch_regions (committed c') g
       = (if Xl.has_sheet wb "Regions" then regions else [])
    /\ forall rid, In rid (region_ids (Xl.has_sheet wb "Regions") regions) ->
         (exists mode types mr es,
             _parse_type_tab wb (_enc_type_tab rid) = Val (mode, types, mr, [])
             /\ build_type_entries_from_sheet wb rid = Val es
             /\ stored (committed c') g "encounter_type" rid None mode mr es)
         /\ forall t, In t (types_of wb rid) ->
              (exists mode entries mr,
                  _parse_result_tab wb (_enc_tab rid t) = Val (mode, entries, mr, [])
                  /\ stored (committed c') g "encounter" rid (Some t) mode mr entries)
              /\ (exists mode entries mr,
                     _parse_result_tab wb (_rew_tab rid t) = Val (mode, entries, mr, [])
                     /\ stored (committed c') g "reward" rid (Some t) mode mr entries).
Proof.
  intros Hr Hi. apply reachable_store_ok in Hr as [Hok _].
  apply import_store in Hi as (regions & Hp & Hne & Hv & Hc & _).
  assert (Ha : accepted wb regions) by (repeat split; assumption).
  assert (Hh : tenant_holds (committed c') g wb regions)
    by (rewrite Hc; now apply imported_holds).
  exists regions. split; [assumption|]. split; [now apply holds_regions|].
  intros rid Hrid. rewrite Forall_forall in Hv. destruct (Hv rid Hrid) as [Hty Hres].
  split.
  - destruct Hty as (mode & types & mr & Hty).
    pose proof (@parse_type_tab_inv _ _ _ _ _ Hty)
      as (ws & hm & data & _ & _ & _ & _ & _ & _ & _ & _ & Hb).
    exists mode, types, mr, (mode_entries mode "type" hm data).
    split; [assumption|]. split; [assumption|].
    assert (Hs : In (type_spec wb rid) (wb_specs wb regions))
      by (apply in_wb_specs; eauto).
    pose proof (@holds_stored _ _ _ _ _ Ha Hh Hs) as H. unfold type_spec in H. simpl in H.
    rewrite Hty, Hb in H. exact H.
  - intros t Ht. destruct (Hres t Ht) as [(m1 & e1 & r1 & H1) (m2 & e2 & r2 & H2)].
    split.
    + exists m1, e1, r1. split; [assumption|].
      assert (Hs : In (typed_spec "encounter" rid t (result_blob wb (_enc_tab rid t)))
                      (wb_specs wb regions))
        by (apply in_wb_specs; exists rid; split; [assumption|]; right; eauto).
      pose proof (@holds_stored _ _ _ _ _ Ha Hh Hs) as H. unfold typed_spec, result_blob in H.
      simpl in H. rewrite H1 in H. exact H.
    + exists m2, e2, r2. split; [assumption|].
      assert (Hs : In (typed_spec "reward" rid t (result_blob wb (_rew_tab rid t)))
                      (wb_specs wb regions))
        by (apply in_wb_specs; exists rid; split; [assumption|]; right; eauto).
      pose proof (@holds_stored _ _ _ _ _ Ha Hh Hs) as H. unfold typed_spec, result_blob in H.
      simpl in H. rewrite H2 in H. exact H.
Qed.

Lemma import_then_lookup_witness :
  exists regions,
    _parse_regions_tab sample_wb = Val (regions, [])
    /\ _fetch_regions sample_db 7 = (if Xl.has_sheet sample_wb "Regions" then regions else []).
Proof.
  destruct (@import_then_lookup empty_db 7 sample_wb "t0" no_fault _ _ _
              reach_empty sample_db_imported) as (regions & H1 & H2 & _).
  exists regions. split; [exact H1|exact H2].
Defined.

(** ** Rolls on any store and on the stores the program produces *)

Lemma randint_val raw a b r : randint raw a b = Val r -> a <= r <= b.
Proof.
  unfold randint. destruct (Z.ltb_spec b a); [discriminate|]. intros [= <-].
  pose proof (Z.mod_pos_bound raw (b - a + 1)). lia.
Qed.

Lemma pick_weighted_in raw items val :
  items <> [] -> _pick_weighted raw items = Val val -> exists w, In (val, w) items.
Proof.
  intros Hne. unfold _pick_weighted. intros H. apply bindR_val in H as (r & _ & H).
  destruct (pick_loop r 0 items) as [v|] eqn:E.
  - injection H as <-. apply pick_loop_some in E as (pre & w & post & -> & _).
    exists w. apply in_or_app. right. now left.
  - injection H as <-. destruct (exists_last Hne) as (l' & [v w] & ->).
    rewrite last_last. exists w. apply in_or_app. right. now left.
Qed.

Lemma roll_val_cases db raw guild_id group_key region_id type_key res label :
  roll_from_table db raw guild_id group_key region_id type_key = Val (res, label) ->
  exists t r,
    Sql.select_table_def db guild_id group_key region_id type_key = Some t
    /\ In r (Sql.select_table_entries db (td_id t))
    /\ te_result r = res
    /\ ((td_roll_mode t = "uniform" /\ label = "uniform")
        \/ (td_roll_mode t = "weight" /\ label = "weight" /\ te_weight r <> None)
        \/ (td_roll_mode t = "range"
            /\ exists m roll,
                 td_max_roll t = Some m /\ 1 <= roll <= m /\ contains roll r
                 /\ label = ("range d" ++ Py.str_int m ++ "=" ++ Py.str_int roll)%string)).
Proof.
  unfold roll_from_table.
  destruct (Sql.select_table_def db guild_id group_key region_id type_key) as [t|];
    [|discriminate].
  destruct (Sql.select_table_entries db (td_id t)) as [|first rest] eqn:Er; [discriminate|].
  destruct (String.eqb_spec (td_roll_mode t) "uniform") as [Hu|Hu].
  { intros [= <- <-]. exists t, (choice raw (first :: rest) first).
    split; [reflexivity|]. split; [rewrite Er; apply choice_in; discriminate|].
    split; [reflexivity|]. now left. }
  destruct (String.eqb_spec (td_roll_mode t) "weight") as [Hw|Hw].
  { destruct (weighted_items (first :: rest)) as [|i0 items] eqn:Ei; [discriminate|].
    intros H. apply bindR_val in H as (val & Hp & [= <- <-]).
    apply pick_weighted_in in Hp as [w Hin]; [|discriminate].
    rewrite <- Ei in Hin. apply in_weighted_items in Hin as (r & Hr & Hrw & Hres).
    exists t, r. split; [reflexivity|]. split; [rewrite Er; assumption|].
    split; [assumption|]. right. left.
    repeat split; try assumption. congruence. }
  destruct (String.eqb_spec (td_roll_mode t) "range") as [Hg|Hg]; [|discriminate].
  destruct (td_max_roll t) as [m|] eqn:Em; [|discriminate].
  destruct (Z.eqb_spec m 0); [discriminate|].
  intros H. apply bindR_val in H as (roll & Hroll & H).
  destruct (range_loop roll (first :: rest)) as [result|] eqn:El; [|discriminate].
  injection H as <- <-. apply range_loop_some in El as (r & Hfc & Hres).
  destruct Hfc as (pre & post & Hrows & Hc & _).
  exists t, r. split; [reflexivity|].
  split; [rewrite Er, Hrows; apply in_or_app; right; now left|].
  split; [assumption|]. right. right. split; [assumption|].
  exists m, roll. repeat split; try assumption; apply randint_val in Hroll; lia.
Qed.

(** A roll that returns, returns the result of a row of the table it
    looked up, under the label of the table's mode: in weight mode a row
    with a weight, in range mode a row whose interval holds the draw, the
    draw lying between 1 and [max_roll]. *)
Theorem roll_returns_row db raw guild_id group_key region_id type_key res label :
  roll_from_table db raw guild_id group_key region_id type_key = Val (res, label) ->
  exists t r,
    Sql.select_table_def db guild_id group_key region_id type_key = Some t
    /\ In r (Sql.select_table_entries db (td_id t))
    /\ te_result r = res
    /\ ((td_roll_mode t = "uniform" /\ label = "uniform")
        \/ (td_roll_mode t = "weight" /\ label = "weight" /\ te_weight r <> None)
        \/ (td_roll_mode t = "range"
            /\ exists m roll,
                 td_max_roll t = Some m /\ 1 <= roll <= m /\ contains roll r
                 /\ label = ("range d" ++ Py.str_int m ++ "=" ++ Py.str_int roll)%string)).
Proof. intros H. exact (roll_val_cases _ _ _ _ _ _ H). Qed.

Lemma roll_returns_row_witness :
  exists t r,
    Sql.select_table_def sample_db 7 "reward" None (Some "Combat") = Some t
    /\ In r (Sql.select_table_entries sample_db (td_id t))
    /\ te_result r = "gold".
Proof.
  destruct (@roll_returns_row sample_db 6 7 "reward" None (Some "Combat")
              "gold" "range d10=7") as (t & r & H1 & H2 & H3 & _).
  - vm_compute. reflexivity.
  - exists t, r. auto.
Defined.

(** ** The tables of an accepted workbook *)

Lemma mode_entries_sound mode kind tab hm data :
  header_mode hm = Some mode ->
  mode_entries mode kind hm data <> [] ->
  mode_errors mode tab hm data = [] ->
  forall grp rid ty,
    spec_sound {| ts_group := grp; ts_region := rid; ts_type := ty; ts_mode := mode;
                  ts_max_roll := mode_max_roll mode (mode_entries mode kind hm data);
                  ts_entries := mode_entries mode kind hm data |}.
Proof.
  intros Hm Hne He grp rid ty. constructor; cbn [ts_mode ts_entries].
  - now apply mode_three in Hm.
  - assumption.
  - apply Forall_forall. intros e. apply mode_entries_fit.
  - intros ->. unfold mode_errors in He. simpl in He.
    apply app_eq_nil in He as [He1 He2].
    destruct (sheet_ranges_apart _ _ _ He1 He2) as [Hw Hp].
    exact (range_entries_apart kind hm data Hw Hp).
Qed.

Lemma wb_specs_sound wb regions s :
  accepted wb regions -> In s (wb_specs wb regions) -> spec_sound s.
Proof.
  intros (_ & _ & Hv) Hs. apply in_wb_specs in Hs as (rid & Hrid & Hs).
  rewrite Forall_forall in Hv. destruct (Hv rid Hrid) as [Hty Hres].
  destruct Hs as [->|(t & Ht & Hs)].
  - destruct Hty as (mode & types & mr & Hty).
    pose proof (@parse_type_tab_inv _ _ _ _ _ Hty)
      as (ws & hm & data & _ & _ & _ & Hm & Htypes & Hne & Hmr & He & Hb).
    unfold type_spec. rewrite Hty, Hb, Hmr.
    apply mode_entries_sound with (tab := _enc_type_tab rid); try assumption.
    intros Hnil. apply Hne. rewrite Htypes, Hnil. reflexivity.
  - destruct (Hres t Ht) as [(m1 & e1 & r1 & H1) (m2 & e2 & r2 & H2)].
    destruct Hs as [->| ->]; unfold typed_spec, result_blob.
    + rewrite H1. cbn [tb_mode tb_entries tb_max_roll].
      apply parse_result_tab_inv in H1
        as (ws & hm & data & _ & _ & _ & Hm & -> & Hne & -> & He).
      now apply mode_entries_sound with (tab := _enc_tab rid t).
    + rewrite H2. cbn [tb_mode tb_entries tb_max_roll].
      apply parse_result_tab_inv in H2
        as (ws & hm & data & _ & _ & _ & Hm & -> & Hne & -> & He).
      now apply mode_entries_sound with (tab := _rew_tab rid t).
Qed.

(** A table definition of a tenant that holds a workbook is one of the
    workbook's tables, with its entries as rows. *)
Lemma holds_def db g wb regions d :
  tenant_holds db g wb regions -> In d (Sql.table_defs_of db g) ->
  exists s, In s (wb_specs wb regions)
            /\ td_group_key d = ts_group s /\ td_region_id d = ts_region s
            /\ td_type_key d = ts_type s
            /\ td_roll_mode d = ts_mode s /\ td_max_roll d = ts_max_roll s
            /\ Sql.select_table_entries db (td_id d) = entry_rows (td_id d) (ts_entries s).
Proof.
  intros (u & base & _ & Hd & He) Hin. rewrite Hd in Hin. unfold new_defs in Hin.
  apply in_map_iff in Hin as ([id s] & <- & Hin). exists s.
  split; [now apply in_number in Hin|]. simpl. repeat split. now apply He.
Qed.

(** What is known of a table a lookup finds in a store the program
    produced. *)
Lemma reachable_def db g grp rid ty d :
  reachable db -> Sql.select_table_def db g grp rid ty = Some d ->
  exists s, spec_sound s
            /\ td_roll_mode d = ts_mode s /\ td_max_roll d = ts_max_roll s
            /\ Sql.select_table_entries db (td_id d) = entry_rows (td_id d) (ts_entries s).
Proof.
  intros Hr Hsel. apply select_def_in_tenant in Hsel.
  destruct (@reachable_tenants _ Hr g) as [[_ He]|(wb & regions & Ha & Hh)].
  - rewrite He in Hsel. contradiction.
  - destruct (@holds_def _ _ _ _ _ Hh Hsel) as (s & Hs & _ & _ & _ & Hm & Hmr & Hrows).
    exists s. split; [eapply wb_specs_sound; eauto|auto].
Qed.

(** ** Failures of a roll on a store the program produced *)

Lemma roll_exc_cases db raw guild_id group_key region_id type_key e :
  reachable db ->
  roll_from_table db raw guild_id group_key region_id type_key = Exc e ->
  (Sql.select_table_def db guild_id group_key region_id type_key = None
   /\ e = RuntimeError ("Missing table: " ++ group_key ++ " region="
                          ++ fmt_opt_Z region_id ++ " type=" ++ fmt_opt_str type_key))
  \/ (exists t, Sql.select_table_def db guild_id group_key region_id type_key = Some t
                /\ td_roll_mode t = "range" /\ range_failure e).
Proof.
  intros Hr. unfold roll_from_table.
  destruct (Sql.select_table_def db guild_id group_key region_id type_key) as [t|] eqn:Hsel.
  2: { intros [= <-]. left. split; reflexivity. }
  intros H. right. exists t. split; [reflexivity|].
  pose proof (@reachable_def _ _ _ _ _ _ Hr Hsel) as (s & Hs & Hm & Hmr & Hrows).
  pose proof (@reachable_store_ok _ Hr) as [Hok _].
  pose proof (@select_table_def_in _ _ _ _ _ _ Hsel) as [Hin _].
  pose proof (@table_has_entries _ _ Hok Hin) as Hne.
  destruct (Sql.select_table_entries db (td_id t)) as [|first rest] eqn:Er;
    [contradiction|].
  destruct (String.eqb_spec (td_roll_mode t) "uniform") as [Hu|Hu]; [discriminate|].
  destruct (String.eqb_spec (td_roll_mode t) "weight") as [Hw|Hw].
  { exfalso.
    destruct (@weight_table_positive db guild_id group_key region_id type_key t
                Hr Hsel Hw) as (_ & Hitems & Htot).
    rewrite Er in Hitems, Htot.
    destruct (weighted_items (first :: rest)) as [|i0 items]; [contradiction|].
    unfold _pick_weighted in H.
    change (fold_left Z.add (map snd ?l) 0) with (total_weight l) in H.
    destruct (@randint_in_range raw 1 (total_weight (i0 :: items)) Htot)
      as (r & Hrand & _).
    rewrite Hrand in H. cbn [bindR] in H.
    destruct (pick_loop r 0 (i0 :: items)); discriminate. }
  destruct (String.eqb_spec (td_roll_mode t) "range") as [Hg|Hg].
  2: { exfalso. destruct (ss_mode Hs) as [H1|[H1|H1]]; rewrite <- Hm in H1;
       unfold ROLL_RANGE, ROLL_WEIGHT, ROLL_UNIFORM in H1; contradiction. }
  split; [assumption|].
  destruct (td_max_roll t) as [m|] eqn:Em; [|injection H as <-; now left].
  destruct (Z.eqb_spec m 0); [injection H as <-; now left|].
  destruct (@ok_max_roll _ Hok t Hin) as [Hn|(m' & Hm' & Hpos)]; [congruence|].
  assert (m' = m) by congruence. subst m'.
  destruct (@randint_in_range raw 1 m ltac:(lia)) as (roll & Hrand & _).
  rewrite Hrand in H. cbn [bindR] in H.
  destruct (range_loop roll (first :: rest)); [discriminate|].
  injection H as <-. right. exists roll. reflexivity.
Qed.

(** On a store the program produced a roll fails in three ways only: the
    table is not there ("Missing table"), or it is a range table without a
    [max_roll], or no interval of a range table holds the draw.  It never
    fails for an empty table, for a weight table without candidates, for an
    unknown mode or inside the random generator. *)
Theorem roll_failures db raw guild_id group_key region_id type_key e :
  reachable db ->
  roll_from_table db raw guild_id group_key region_id type_key = Exc e ->
  (Sql.select_table_def db guild_id group_key region_id type_key = None
   /\ e = RuntimeError ("Missing table: " ++ group_key ++ " region="
                          ++ fmt_opt_Z region_id ++ " type=" ++ fmt_opt_str type_key))
  \/ (exists t, Sql.select_table_def db guild_id group_key region_id type_key = Some t
                /\ td_roll_mode t = "range" /\ range_failure e).
Proof. intros Hr H. exact (roll_exc_cases _ _ _ _ _ Hr H). Qed.

Lemma roll_failures_witness :
  Sql.select_table_def sample_db 7 "encounter" None (Some "Social") = None.
Proof.
  destruct (@roll_failures sample_db 0 7 "encounter" None (Some "Social")
              (RuntimeError "Missing table: encounter region=None type=Social")
              sample_db_reachable) as [[H _]|(t & H & _)].
  - vm_compute. reflexivity.
  - exact H.
  - vm_compute in H. discriminate H.
Defined.

(** ** Range tables hold disjoint intervals *)

Lemma enumerate_apart entries n :
  ForallOrdPairs apart entries ->
  ForallOrdPairs (fun a b : nat * Entry => apart (snd a) (snd b)) (enumerate n entries).
Proof.
  intros H. revert n. induction H as [|e l Hf Hr IH]; intros n; simpl; constructor.
  - apply Forall_forall. intros [i x] Hi. apply in_enumerate in Hi as [_ Hi].
    apply nth_error_In in Hi. rewrite Forall_forall in Hf. now apply Hf.
  - apply IH.
Qed.

Lemma FOP_map {A B} (R : A -> A -> Prop) (R' : B -> B -> Prop) (f : A -> B) l :
  (forall a b, R a b -> R' (f a) (f b)) ->
  ForallOrdPairs R l -> ForallOrdPairs R' (map f l).
Proof.
  intros H. induction 1 as [|a l Hf Hr IH]; simpl; constructor; [|assumption].
  apply Forall_forall. intros y Hy. apply in_map_iff in Hy as (x & <- & Hx).
  rewrite Forall_forall in Hf. apply H. now apply Hf.
Qed.

Lemma range_rows_unique db guild_id group_key region_id type_key t roll r1 r2 :
  reachable db ->
  Sql.select_table_def db guild_id group_key region_id type_key = Some t ->
  td_roll_mode t = "range" ->
  In r1 (Sql.select_table_entries db (td_id t)) ->
  In r2 (Sql.select_table_entries db (td_id t)) ->
  contains roll r1 -> contains roll r2 ->
  r1 = r2.
Proof.
  intros Hr Hsel Hmode H1 H2 Hc1 Hc2.
  pose proof (@reachable_def _ _ _ _ _ _ Hr Hsel) as (s & Hs & Hm & _ & Hrows).
  rewrite Hrows in H1, H2. rewrite Hmode in Hm.
  destruct (ss_apart Hs (eq_sym Hm)) as [_ Hap].
  assert (Hfop : ForallOrdPairs
                   (fun a b => forall k, contains k a -> contains k b -> False)
                   (entry_rows (td_id t) (ts_entries s))).
  { unfold entry_rows.
    apply FOP_map with (R := fun a b : nat * Entry => apart (snd a) (snd b));
      [|now apply enumerate_apart].
    intros [i a] [j b] Hab k (mi & ma & Hmi & Hma & Hk) (mi' & ma' & Hmi' & Hma' & Hk').
    unfold apart, interval in Hab. simpl in *.
    rewrite Hmi, Hma, Hmi', Hma' in Hab. lia. }
  destruct (ForallOrdPairs_In Hfop _ _ H1 H2) as [E|[E|E]]; [assumption| |];
    exfalso; eapply E; eassumption.
Qed.

(** On a store the program produced, at most one row of a range table
    holds a given draw, so that the loop of a range roll returns the result
    of the row that holds the draw wherever that row stands among the
    rows: the order of the rows does not decide the result. *)
Theorem range_rows_disjoint db guild_id group_key region_id type_key t roll r :
  reachable db ->
  Sql.select_table_def db guild_id group_key region_id type_key = Some t ->
  td_roll_mode t = "range" ->
  In r (Sql.select_table_entries db (td_id t)) ->
  contains roll r ->
  range_loop roll (Sql.select_table_entries db (td_id t)) = Some (te_result r)
  /\ forall r', In r' (Sql.select_table_entries db (td_id t)) ->
                contains roll r' -> r' = r.
Proof.
  intros Hr Hsel Hmode Hin Hc.
  assert (Hu : forall r', In r' (Sql.select_table_entries db (td_id t)) ->
                          contains roll r' -> r' = r)
    by (intros r' Hin' Hc'; eapply range_rows_unique; eassumption).
  split; [|exact Hu].
  destruct (range_loop roll (Sql.select_table_entries db (td_id t))) as [res|] eqn:El.
  - apply range_loop_some in El as (r0 & (pre & post & Hrows & Hc0 & _) & <-).
    rewrite (Hu r0); [reflexivity| |assumption].
    rewrite Hrows. apply in_or_app. right. now left.
  - exfalso. exact (@range_loop_none _ _ El r Hin Hc).
Qed.

Lemma range_rows_disjoint_witness :
  range_loop 7 (Sql.select_table_entries sample_db 3) = Some "gold".
Proof.
  refine (proj1 (@range_rows_disjoint sample_db 7 "reward" None (Some "Combat")
                   {| td_id := 3; td_guild := 7; td_group_key := "reward";
                      td_region_id := None; td_type_key := Some "Combat";
                      td_roll_mode := "range"; td_max_roll := Some 10;
                      td_updated_at := "t0" |} 7
                   {| te_table_id := 3; te_min_roll := Some 6; te_max_roll := Some 10;
                      te_weight := None; te_result := "gold"; te_sort_order := 1 |}
                   sample_db_reachable eq_refl eq_refl _ _)).
  - vm_compute. right. now left.
  - exists 6, 10. repeat split; simpl; lia.
Defined.

(** ** What a reader sees of a tenant *)

Lemma select_key db g grp rid ty d :
  Sql.select_table_def db g grp rid ty = Some d ->
  td_group_key d = grp /\ td_region_id d = rid /\ td_type_key d = ty.
Proof.
  rewrite select_table_def_find. intros H. apply find_some in H as [_ H].
  unfold key_match in H. rewrite !andb_true_iff in H. destruct H as [[[_ H1] H2] H3].
  apply String.eqb_eq in H1. apply is_Z_eq in H2. apply is_str_eq in H3. auto.
Qed.

Lemma row_view_entry_rows id id' es :
  map row_view (entry_rows id es) = map row_view (entry_rows id' es).
Proof. unfold entry_rows. rewrite !map_map. apply map_ext. intros [i e]. reflexivity. Qed.

Lemma holds_view_some db db' g wb regions grp rid ty d :
  accepted wb regions -> tenant_holds db g wb regions -> tenant_holds db' g wb regions ->
  Sql.select_table_def db g grp rid ty = Some d ->
  exists d', Sql.select_table_def db' g grp rid ty = Some d'
             /\ td_roll_mode d' = td_roll_mode d /\ td_max_roll d' = td_max_roll d
             /\ map row_view (Sql.select_table_entries db' (td_id d'))
                = map row_view (Sql.select_table_entries db (td_id d)).
Proof.
  intros Ha Hh Hh' E.
  pose proof (@select_key _ _ _ _ _ _ E) as (Hg & Hr & Ht).
  pose proof (@select_def_in_tenant _ _ _ _ _ _ E) as Hin.
  destruct (@holds_def _ _ _ _ _ Hh Hin) as (s & Hs & Hsg & Hsr & Hst & Hm & Hmr & Hrows).
  destruct (@holds_select _ _ _ _ _ Ha Hh' Hs) as (d' & Hd' & Hm' & Hmr' & Hrows').
  rewrite <- Hsg, <- Hsr, <- Hst, Hg, Hr, Ht in Hd'.
  exists d'. split; [assumption|]. split; [congruence|]. split; [congruence|].
  rewrite Hrows, Hrows'. apply row_view_entry_rows.
Qed.

(** Two stores that hold the same workbook for a tenant read the same. *)
Lemma holds_same_reads db db' g wb regions :
  accepted wb regions -> tenant_holds db g wb regions -> tenant_holds db' g wb regions ->
  same_reads db db' g.
Proof.
  intros Ha Hh Hh'. split.
  - now rewrite (holds_regions Hh), (holds_regions Hh').
  - intros grp rid ty. unfold table_view.
    destruct (Sql.select_table_def db g grp rid ty) as [d|] eqn:E.
    + destruct (@holds_view_some _ _ _ _ _ _ _ _ _ Ha Hh Hh' E) as (d' & -> & Hm & Hmr & Hv).
      now rewrite Hm, Hmr, Hv.
    + destruct (Sql.select_table_def db' g grp rid ty) as [d'|] eqn:E'; [|reflexivity].
      destruct (@holds_view_some _ _ _ _ _ _ _ _ _ Ha Hh' Hh E') as (d & Hd & _).
      congruence.
Qed.

(** ** The roller and the exporter read rows through their view *)

Lemma view_cons r' t' r t :
  map row_view (r' :: t') = map row_view (r :: t) ->
  te_min_roll r' = te_min_roll r /\ te_max_roll r' = te_max_roll r
  /\ te_weight r' = te_weight r /\ te_result r' = te_result r
  /\ map row_view t' = map row_view t.
Proof.
  simpl. unfold row_view. intros H. injection H. intros. repeat split; assumption.
Qed.

Lemma view_weighted rows : forall rows',
  map row_view rows' = map row_view rows -> weighted_items rows' = weighted_items rows.
Proof.
  unfold weighted_items.
  induction rows as [|r t IH]; intros [|r' t'] H; try discriminate H; [reflexivity|].
  apply view_cons in H as (_ & _ & H3 & H4 & Ht).
  simpl. rewrite H3, H4. f_equal. now apply IH.
Qed.

Lemma view_range roll rows : forall rows',
  map row_view rows' = map row_view rows -> range_loop roll rows' = range_loop roll rows.
Proof.
  induction rows as [|r t IH]; intros [|r' t'] H; try discriminate H; [reflexivity|].
  apply view_cons in H as (H1 & H2 & _ & H4 & Ht).
  simpl. rewrite H1, H2, H4, (IH _ Ht). reflexivity.
Qed.

Lemma view_results rows rows' :
  map row_view rows' = map row_view rows -> map te_result rows' = map te_result rows.
Proof.
  intros H.
  change (map te_result rows') with (map (fun r => snd (fst (row_view r))) rows').
  change (map te_result rows) with (map (fun r => snd (fst (row_view r))) rows).
  rewrite <- !(map_map row_view (fun v => snd (fst v))). now rewrite H.
Qed.

Lemma view_choice raw rows rows' d d' :
  map row_view rows' = map row_view rows -> te_result d' = te_result d ->
  te_result (choice raw rows' d') = te_result (choice raw rows d).
Proof.
  intros H Hd. unfold choice.
  assert (Hl : List.length rows' = List.length rows)
    by (rewrite <- (length_map row_view rows'), H; apply length_map).
  rewrite Hl. rewrite <- !(map_nth te_result). rewrite (@view_results _ _ H), Hd.
  reflexivity.
Qed.

Lemma reads_roll db db' g raw grp rid ty :
  table_view db' g grp rid ty = table_view db g grp rid ty ->
  roll_from_table db' raw g grp rid ty = roll_from_table db raw g grp rid ty.
Proof.
  unfold table_view, roll_from_table.
  destruct (Sql.select_table_def db' g grp rid ty) as [d'|],
           (Sql.select_table_def db g grp rid ty) as [d|]; try discriminate; [|reflexivity].
  intros H. injection H as Hm Hmr Hv. rewrite Hm, Hmr.
  destruct (Sql.select_table_entries db' (td_id d')) as [|f' r'],
           (Sql.select_table_entries db (td_id d)) as [|f r]; try discriminate;
    [reflexivity|].
  rewrite (@view_weighted _ _ Hv).
  assert (Hf : te_result f' = te_result f) by now apply view_cons in Hv.
  rewrite (@view_choice raw _ _ f f' Hv Hf).
  destruct (td_roll_mode d =? "uniform")%string; [reflexivity|].
  destruct (td_roll_mode d =? "weight")%string; [reflexivity|].
  destruct (td_roll_mode d =? "range")%string; [|reflexivity].
  destruct (td_max_roll d) as [m|]; [|reflexivity].
  destruct (m =? 0); [reflexivity|].
  destruct (randint raw 1 m) as [roll|e]; [|reflexivity]. cbn [bindR].
  now rewrite (@view_range roll _ _ Hv).
Qed.

Lemma view_add_sheet wb title kind mode rows rows' :
  map row_view rows' = map row_view rows ->
  _add_sheet_for_table wb title kind mode rows'
  = _add_sheet_for_table wb title kind mode rows.
Proof.
  intros H. unfold _add_sheet_for_table. cbv zeta. f_equal. f_equal.
  set (h := fun v : option Z * option Z * option Z * string * Z =>
              if (mode =? "range")%string
              then [opt_cell (fst (fst (fst (fst v)))); opt_cell (snd (fst (fst (fst v))));
                    CStr (snd (fst v))]
              else if (mode =? "weight")%string
                   then [opt_cell (snd (fst (fst v))); CStr (snd (fst v))]
                   else [CStr (snd (fst v))]).
  change (map (fun r => h (row_view r)) rows' = map (fun r => h (row_view r)) rows).
  rewrite <- !(map_map row_view h). now rewrite H.
Qed.

Lemma view_types rows : forall rows',
  map row_view rows' = map row_view rows ->
  map te_result (filter (fun e => negb (te_result e =? "")%string) rows')
  = map te_result (filter (fun e => negb (te_result e =? "")%string) rows).
Proof.
  induction rows as [|r t IH]; intros [|r' t'] H; try discriminate H; [reflexivity|].
  apply view_cons in H as (_ & _ & _ & H4 & Ht).
  simpl. rewrite H4. destruct (negb (te_result r =? "")%string); simpl;
    [rewrite H4; f_equal|]; now apply IH.
Qed.

Lemma reads_add_sheet db db' g grp rid ty wb title kind :
  table_view db' g grp rid ty = table_view db g grp rid ty ->
  match Sql.select_table_def db' g grp rid ty with
  | Some d =>
      _add_sheet_for_table wb title kind (td_roll_mode d)
        (Sql.select_table_entries db' (td_id d))
  | None => wb
  end
  = match Sql.select_table_def db g grp rid ty with
    | Some d =>
        _add_sheet_for_table wb title kind (td_roll_mode d)
          (Sql.select_table_entries db (td_id d))
    | None => wb
    end.
Proof.
  unfold table_view.
  destruct (Sql.select_table_def db' g grp rid ty) as [d'|],
           (Sql.select_table_def db g grp rid ty) as [d|]; try discriminate; [|reflexivity].
  intros H. injection H as Hm _ Hv. rewrite Hm. now apply view_add_sheet.
Qed.

Lemma reads_export_type db db' g rid wb t :
  (forall grp rid ty, table_view db' g grp rid ty = table_view db g grp rid ty) ->
  export_type db' g rid wb t = export_type db g rid wb t.
Proof.
  intros H. unfold export_type, _fetch_table_def, _fetch_table_entries. cbv zeta.
  rewrite (@reads_add_sheet db db' g "encounter" rid (Some t) wb (_enc_tab rid t)
             "result" (H _ _ _)).
  apply reads_add_sheet, H.
Qed.

Lemma reads_export_tables db db' g rid d d' wb :
  (forall grp rid ty, table_view db' g grp rid ty = table_view db g grp rid ty) ->
  td_roll_mode d' = td_roll_mode d ->
  map row_view (Sql.select_table_entries db' (td_id d'))
  = map row_view (Sql.select_table_entries db (td_id d)) ->
  export_tables db' g rid d' wb = export_tables db g rid d wb.
Proof.
  intros H Hm Hv. unfold export_tables, _fetch_table_entries. cbv zeta.
  rewrite Hm, (@view_add_sheet _ _ _ _ _ _ Hv), (@view_types _ _ Hv).
  apply fold_left_agree. intros x t _. now apply reads_export_type.
Qed.

Lemma reads_export db db' g :
  same_reads db db' g -> build_workbook_bytes db' g = build_workbook_bytes db g.
Proof.
  intros [Hr H]. unfold build_workbook_bytes. rewrite Hr.
  destruct (0 <? List.length (_fetch_regions db g))%nat.
  - f_equal. apply fold_left_agree. intros wb r _. unfold _fetch_table_def.
    pose proof (H "encounter_type" (Some (fst r)) None) as Ht. unfold table_view in Ht.
    destruct (Sql.select_table_def db' g "encounter_type" (Some (fst r)) None) as [d'|],
             (Sql.select_table_def db g "encounter_type" (Some (fst r)) None) as [d|];
      try discriminate Ht; [|reflexivity].
    injection Ht as Hm _ Hv. now apply reads_export_tables.
  - unfold _fetch_table_def.
    pose proof (H "encounter_type" None None) as Ht. unfold table_view in Ht.
    destruct (Sql.select_table_def db' g "encounter_type" None None) as [d'|],
             (Sql.select_table_def db g "encounter_type" None None) as [d|];
      try discriminate Ht; [|reflexivity].
    injection Ht as Hm _ Hv. f_equal. now apply reads_export_tables.
Qed.

(** ** A second import for the same tenant *)

(** Of two imports for the same tenant that both succeed, the second
    overrides the first completely.  Whatever the first import wrote and
    whenever the second ran, the tenant reads afterwards as if the second
    workbook alone had been imported: the same summary, the same regions,
    under every key the same mode, [max_roll] and rows, the same export and
    the same result of every roll. *)
Theorem import_overrides db g wb1 u1 f1 n1 e1 c1 wb2 u2 f2 n2 e2 c2 u3 f3 n3 e3 c3 :
  reachable db ->
  import_workbook_bytes g wb1 u1 (connect db f1) = (Val (Some n1, e1), c1) ->
  import_workbook_bytes g wb2 u2 (connect (committed c1) f2) = (Val (Some n2, e2), c2) ->
  import_workbook_bytes g wb2 u3 (connect db f3) = (Val (Some n3, e3), c3) ->
  n2 = n3
  /\ same_reads (committed c3) (committed c2) g
  /\ build_workbook_bytes (committed c2) g = build_workbook_bytes (committed c3) g
  /\ forall raw grp rid ty,
       roll_from_table (committed c2) raw g grp rid ty
       = roll_from_table (committed c3) raw g grp rid ty.
Proof.
  intros Hr H1 H2 H3.
  assert (Hr1 : reachable (committed c1)) by (eapply reach_import; eassumption).
  pose proof (@reachable_store_ok _ Hr) as [Hok _].
  pose proof (@reachable_store_ok _ Hr1) as [Hok1 _].
  assert (Hn : n2 = n3).
  { pose proof (@import_success_store _ _ _ _ _ _ _ H2)
      as (r2 & rm2 & st2 & s2 & Hp2 & _ & _ & _ & _ & Hn2 & _).
    pose proof (@import_success_store _ _ _ _ _ _ _ H3)
      as (r3 & rm3 & st3 & s3 & Hp3 & _ & _ & _ & _ & Hn3 & _).
    rewrite Hp2 in Hp3. injection Hp3 as <- <- <-. congruence. }
  apply import_store in H2 as (regions & Hp & Hne & Hv & Hc2 & _).
  apply import_store in H3 as (regions' & Hp' & _ & _ & Hc3 & _).
  rewrite Hp in Hp'. injection Hp' as <-.
  assert (Ha : accepted wb2 regions) by (repeat split; assumption).
  assert (Hh2 : tenant_holds (committed c2) g wb2 regions)
    by (rewrite Hc2; now apply imported_holds).
  assert (Hh3 : tenant_holds (committed c3) g wb2 regions)
    by (rewrite Hc3; now apply imported_holds).
  pose proof (holds_same_reads Ha Hh3 Hh2) as Hs.
  split; [assumption|]. split; [assumption|]. split; [now apply reads_export|].
  intros raw grp rid ty. apply reads_roll. apply Hs.
Qed.

Lemma import_overrides_witness :
  build_workbook_bytes
    (committed (snd (import_workbook_bytes 7 sample_regional_wb "t1"
                       (connect sample_db no_fault)))) 7
  = build_workbook_bytes
      (committed (snd (import_workbook_bytes 7 sample_regional_wb "t2"
                         (connect empty_db no_fault)))) 7.
Proof.
  refine (proj1 (proj2 (proj2
            (@import_overrides empty_db 7 sample_wb "t0" no_fault _ _ _
               sample_regional_wb "t1" no_fault
               {| encounter_types := 2; encounter_entries := 2; reward_types := 2;
                  reward_entries := 2; regions := 2 |} []
               _ "t2" no_fault
               {| encounter_types := 2; encounter_entries := 2; reward_types := 2;
                  reward_entries := 2; regions := 2 |} []
               _ reach_empty sample_db_imported _ _)))).
  - apply pair_eta. vm_compute. reflexivity.
  - apply pair_eta. vm_compute. reflexivity.
Defined.

(** ** Rolling an encounter *)

Lemma type_entries_types wb rid e :
  region_valid wb rid -> In e (ts_entries (type_spec wb rid)) ->
  In (e_result e) (types_of wb rid).
Proof.
  intros [(mode & types & mr & Hty) _] He. unfold types_of, type_spec in *.
  pose proof (@parse_type_tab_inv _ _ _ _ _ Hty)
    as (ws & hm & data & _ & _ & _ & _ & Htypes & _ & _ & _ & Hb).
  rewrite Hty. simpl in He. rewrite Hb in He. rewrite Htypes.
  apply (proj2 (dedupe_spec [] (map e_result (mode_entries mode "type" hm data)))).
  split; [now apply in_map|intros []].
Qed.

(** The type a roll on a region's types table returns has its encounter
    and its reward table. *)
Lemma type_roll_closed db raw g region t m :
  reachable db ->
  roll_from_table db raw g "encounter_type" region None = Val (t, m) ->
  (exists d, Sql.select_table_def db g "encounter" region (Some t) = Some d)
  /\ (exists d, Sql.select_table_def db g "reward" region (Some t) = Some d).
Proof.
  intros Hr Hroll. apply roll_val_cases in Hroll as (t0 & r & Hsel & Hin & Hres & _).
  pose proof (@select_key _ _ _ _ _ _ Hsel) as (Hgrp & Hreg & _).
  apply select_def_in_tenant in Hsel.
  destruct (@reachable_tenants _ Hr g) as [[_ He]|(wb & regions & Ha & Hh)].
  { rewrite He in Hsel. contradiction. }
  destruct (@holds_def _ _ _ _ _ Hh Hsel) as (s & Hs & Hg & Hrg & _ & _ & _ & Hrows).
  pose proof Hs as Hs'. apply in_wb_specs in Hs' as (rid & Hrid & Hcase).
  destruct Hcase as [->|(t' & _ & [->| ->])];
    [|simpl in Hg; congruence|simpl in Hg; congruence].
  simpl in Hrg. rewrite Hreg in Hrg. subst rid.
  rewrite Hrows in Hin. apply in_entry_rows in Hin as (i & e & He & ->).
  simpl in Hres. subst t.
  assert (Hv : region_valid wb region).
  { destruct Ha as (_ & _ & Hv). rewrite Forall_forall in Hv. now apply Hv. }
  pose proof (@type_entries_types _ _ _ Hv He) as Ht.
  split.
  - assert (Hin : In (typed_spec "encounter" region (e_result e)
                        (result_blob wb (_enc_tab region (e_result e))))
                     (wb_specs wb regions))
      by (apply in_wb_specs; exists region; split; [assumption|]; right; eauto).
    destruct (@holds_select _ _ _ _ _ Ha Hh Hin) as (d & Hd & _). eauto.
  - assert (Hin : In (typed_spec "reward" region (e_result e)
                        (result_blob wb (_rew_tab region (e_result e))))
                     (wb_specs wb regions))
      by (apply in_wb_specs; exists region; split; [assumption|]; right; eauto).
    destruct (@holds_select _ _ _ _ _ Ha Hh Hin) as (d & Hd & _). eauto.
Qed.

Lemma roll_encounter_exc db raw1 raw2 raw3 guild_id region e :
  reachable db ->
  roll_encounter_embed db raw1 raw2 raw3 guild_id region = Exc e ->
  (Sql.select_table_def db guild_id "encounter_type" region None = None
   /\ e = RuntimeError ("Missing table: encounter_type region="
                          ++ fmt_opt_Z region ++ " type=None"))
  \/ range_failure e.
Proof.
  intros Hr. unfold roll_encounter_embed.
  destruct (roll_from_table db raw1 guild_id "encounter_type" region None)
    as [[t m1]|e1] eqn:E1.
  2: { intros [= <-]. apply (@roll_exc_cases _ _ _ _ _ _ _ Hr) in E1 as [[Hn ->]|(t & _ & _ & Hf)].
       - left. split; [assumption|reflexivity].
       - now right. }
  cbn [bindR]. destruct (@type_roll_closed _ _ _ _ _ _ Hr E1) as [[d1 Hd1] [d2 Hd2]].
  destruct (roll_from_table db raw2 guild_id "encounter" region (Some t))
    as [[enc m2]|e2] eqn:E2.
  2: { intros [= <-]. apply (@roll_exc_cases _ _ _ _ _ _ _ Hr) in E2 as [[Hn _]|(t' & _ & _ & Hf)];
         [congruence|now right]. }
  cbn [bindR].
  destruct (roll_from_table db raw3 guild_id "reward" region (Some t))
    as [[rew m3]|e3] eqn:E3.
  2: { intros [= <-]. apply (@roll_exc_cases _ _ _ _ _ _ _ Hr) in E3 as [[Hn _]|(t' & _ & _ & Hf)];
         [congruence|now right]. }
  discriminate.
Qed.

(** On a store the program produced, [roll_encounter_embed] fails only
    when the region has no types table, or on a range table (no [max_roll],
    or no interval for the draw): once a type is rolled, its encounter and
    reward tables are there to roll on. *)
Theorem roll_encounter_failures db raw1 raw2 raw3 guild_id region e :
  reachable db ->
  roll_encounter_embed db raw1 raw2 raw3 guild_id region = Exc e ->
  (Sql.select_table_def db guild_id "encounter_type" region None = None
   /\ e = RuntimeError ("Missing table: encounter_type region="
                          ++ fmt_opt_Z region ++ " type=None"))
  \/ range_failure e.
Proof. intros Hr H. exact (roll_encounter_exc _ _ _ _ _ Hr H). Qed.

Lemma roll_encounter_failures_witness :
  Sql.select_table_def sample_db 7 "encounter_type" (Some 1) None = None.
Proof.
  destruct (@roll_encounter_failures sample_db 0 0 0 7 (Some 1)
              (RuntimeError "Missing table: encounter_type region=1 type=None")
              sample_db_reachable) as [[H _]|[H|[k H]]].
  - vm_compute. reflexivity.
  - exact H.
  - discriminate H.
  - discriminate H.
Defined.

(** ** The region picker *)




















(** ** The commands on a store the program produced *)

Lemma regional_db_reachable : reachable regional_db.
Proof. eapply reach_import; [exact sample_db_reachable|apply surjective_pairing]. Qed.

Lemma single_region_db_reachable : reachable single_region_db.
Proof. eapply reach_import; [exact sample_db_reachable|apply surjective_pairing]. Qed.

(** ** Regions and their names *)

Lemma find_filter {A} (p q : A -> bool) l :
  find (fun x => p x && q x) l = find q (filter p l).
Proof.
  induction l as [|x t IH]; [reflexivity|]. simpl.
  destruct (p x); simpl; [destruct (q x); [reflexivity|exact IH]|exact IH].
Qed.

Lemma find_region_rows g rid regions :
  option_map rg_region_name
    (find (fun r => rg_region_id r =? rid) (region_rows g regions))
  = option_map snd (find (fun p => fst p =? rid) regions).
Proof.
  unfold region_rows. generalize 0%nat as n.
  induction regions as [|[i nm] t IH]; intros n; [reflexivity|].
  cbn [enumerate map find fst snd rg_region_id].
  destruct (i =? rid); [reflexivity|apply IH].
Qed.

Lemma find_nodup_in (regions : list (Z * string)) rid name :
  NoDup (map fst regions) ->
  In (rid, name) regions
  <-> option_map snd (find (fun p => fst p =? rid) regions) = Some name.
Proof.
  induction regions as [|[i nm] t IH]; intros Hnd.
  - simpl. split; [contradiction|discriminate].
  - simpl in Hnd. inversion Hnd as [|? ? Hni Hnd']; subst.
    cbn [find fst]. destruct (Z.eqb_spec i rid) as [->|Hne].
    + cbn [option_map snd]. split.
      * intros [[= ->]|Hin]; [reflexivity|].
        exfalso. apply Hni. apply in_map_iff. exists (rid, name). auto.
      * intros [= ->]. now left.
    + rewrite <- (IH Hnd'). split.
      * intros [[= -> _]|Hin]; [contradiction|assumption].
      * intros Hin. now right.
Qed.

(** The regions of a tenant in a store the program produced: distinct ids,
    stored in the order the bot lists them. *)
Lemma reachable_regions db g :
  reachable db ->
  exists regions,
    NoDup (map fst regions)
    /\ regions_of db g = region_rows g regions
    /\ get_regions db g = regions.
Proof.
  intros Hr. destruct (@reachable_tenants _ Hr g) as [[He _]|(wb & regions & Ha & Hh)].
  - exists []. split; [constructor|]. split; [assumption|].
    unfold get_regions, Sql.select_regions. fold (regions_of db g). now rewrite He.
  - pose proof (holds_regions Hh) as Hf.
    change (_fetch_regions db g) with (get_regions db g) in Hf.
    destruct Hh as (u & base & Hregs & _).
    destruct (Xl.has_sheet wb "Regions").
    + exists regions. split; [|split; assumption].
      destruct Ha as (Hp & _). now apply parse_regions_facts in Hp as (Hnd & _).
    + exists []. split; [constructor|split; assumption].
Qed.

Lemma get_region_name_find db g rid :
  get_region_name db g rid
  = option_map rg_region_name
      (find (fun r => rg_region_id r =? rid) (regions_of db g)).
Proof.
  unfold get_region_name, regions_of.
  rewrite (find_filter (fun r => rg_guild r =? g) (fun r => rg_region_id r =? rid)).
  now destruct (find _ _).
Qed.

Lemma listed_region_name db g rid name :
  reachable db -> In (rid, name) (get_regions db g) ->
  get_region_name db g rid = Some name.
Proof.
  intros Hr Hin. destruct (reachable_regions g Hr) as (regions & Hnd & Hrows & Hg).
  rewrite get_region_name_find, Hrows, find_region_rows.
  rewrite Hg in Hin. now apply find_nodup_in.
Qed.

(** On a store the program produced, the name [get_region_name] finds for
    a region id is the name [get_regions] lists it under, and it finds
    none for an id that is not listed: region ids are unique within a
    tenant. *)
Theorem region_name_listed db guild_id region_id name :
  reachable db ->
  In (region_id, name) (get_regions db guild_id)
  <-> get_region_name db guild_id region_id = Some name.
Proof.
  intros Hr. split; [now apply listed_region_name|].
  destruct (reachable_regions guild_id Hr) as (regions & Hnd & Hrows & Hg).
  rewrite get_region_name_find, Hrows, find_region_rows, Hg.
  now apply find_nodup_in.
Qed.

Lemma region_name_listed_witness :
  get_regions regional_db 7 = [(1, "North"); (2, "South")]
  /\ get_region_name regional_db 7 2 = Some "South".
Proof.
  split; [vm_compute; reflexivity|].
  apply (proj1 (@region_name_listed regional_db 7 2 "South" regional_db_reachable)).
  vm_compute. right. now left.
Defined.

(** ** [/encounter] *)

Lemma roll_missing db raw g grp rid ty :
  Sql.select_table_def db g grp rid ty = None ->
  roll_from_table db raw g grp rid ty
  = Exc (RuntimeError ("Missing table: " ++ grp ++ " region="
                         ++ fmt_opt_Z rid ++ " type=" ++ fmt_opt_str ty)).
Proof. intros H. unfold roll_from_table. now rewrite H. Qed.

(** A region the bot lists has its types table. *)
Lemma listed_region_types db g rid name :
  reachable db -> In (rid, name) (get_regions db g) ->
  exists d, Sql.select_table_def db g "encounter_type" (Some rid) None = Some d.
Proof.
  intros Hr Hin. destruct (@reachable_tenants _ Hr g) as [[He _]|(wb & regions & Ha & Hh)].
  - exfalso. unfold get_regions, Sql.select_regions in Hin.
    fold (regions_of db g) in Hin. now rewrite He in Hin.
  - pose proof (holds_regions Hh) as Hf.
    change (_fetch_regions db g) with (get_regions db g) in Hf. rewrite Hf in Hin.
    destruct (Xl.has_sheet wb "Regions") eqn:Hs; [|contradiction].
    assert (Hspec : In (type_spec wb (Some rid)) (wb_specs wb regions)).
    { apply in_wb_specs. exists (Some rid). split; [|now left].
      rewrite Hs. unfold region_ids. apply in_map_iff. exists (rid, name). auto. }
    destruct (@holds_select _ _ _ _ _ Ha Hh Hspec) as (d & Hd & _). eauto.
Qed.

(** With exactly one region, [/encounter] rolls at once for that region.
    On a store the program produced the three tables are there: the reply
    is the embed titled with the region's name, with the rolled type and
    the results of the rolls on the encounter and the reward table of that
    type, or the command fails on a range table (no [max_roll], or no
    interval for the draw). *)
Theorem encounter_single_region db raw1 raw2 raw3 guild_id region_id name :
  reachable db -> guild_id <> 0 ->
  get_regions db guild_id = [(region_id, name)] ->
  (exists t m1 enc m2 rew m3,
      roll_from_table db raw1 guild_id "encounter_type" (Some region_id) None = Val (t, m1)
      /\ roll_from_table db raw2 guild_id "encounter" (Some region_id) (Some t)
         = Val (enc, m2)
      /\ roll_from_table db raw3 guild_id "reward" (Some region_id) (Some t)
         = Val (rew, m3)
      /\ encounter_cmd db raw1 raw2 raw3 (Some guild_id)
         = Val (EncounterEmbed
                  {| em_title := ("Random Encounter: " ++ name)%string;
                     em_fields := [ ("Type", t, true); ("Encounter", enc, false);
                                    ("Reward", rew, false) ];
                     em_footer := ("Type: " ++ m1 ++ " | Encounter: " ++ m2
                                   ++ " | Reward: " ++ m3)%string |}))
  \/ (exists e, encounter_cmd db raw1 raw2 raw3 (Some guild_id) = Exc e
                /\ range_failure e).
Proof.
  intros Hr Hg Hregs.
  assert (Hin : In (region_id, name) (get_regions db guild_id))
    by (rewrite Hregs; now left).
  pose proof (listed_region_name _ _ _ Hr Hin) as Hname.
  destruct (listed_region_types _ _ _ Hr Hin) as [d Hd].
  unfold encounter_cmd. rewrite (proj2 (Z.eqb_neq guild_id 0) Hg), Hregs.
  cbn [fst].
  destruct (roll_encounter_embed db raw1 raw2 raw3 guild_id (Some region_id))
    as [embed|e] eqn:E.
  - left. unfold roll_encounter_embed in E.
    destruct (roll_from_table db raw1 guild_id "encounter_type" (Some region_id) None)
      as [[t m1]|e1] eqn:E1; [|discriminate E]. cbn [bindR] in E.
    destruct (roll_from_table db raw2 guild_id "encounter" (Some region_id) (Some t))
      as [[enc m2]|e2] eqn:E2; [|discriminate E]. cbn [bindR] in E.
    destruct (roll_from_table db raw3 guild_id "reward" (Some region_id) (Some t))
      as [[rew m3]|e3] eqn:E3; [|discriminate E]. cbn [bindR] in E.
    rewrite Hname in E. injection E as <-.
    exists t, m1, enc, m2, rew, m3. cbn [bindR].
    split; [reflexivity|]. split; [exact E2|]. split; [exact E3|reflexivity].
  - right. exists e. split; [reflexivity|].
    destruct (@roll_encounter_exc _ _ _ _ _ _ _ Hr E) as [[Hn _]|Hf];
      [congruence|assumption].
Qed.

Lemma encounter_single_region_witness :
  exists embed, encounter_cmd single_region_db 0 0 0 (Some 9) = Val (EncounterEmbed embed)
                /\ em_title embed = "Random Encounter: Coast".
Proof.
  assert (Hg : 9 <> 0) by discriminate.
  assert (Hregs : get_regions single_region_db 9 = [(4, "Coast")])
    by (vm_compute; reflexivity).
  destruct (@encounter_single_region single_region_db 0 0 0 9 4 "Coast"
              single_region_db_reachable Hg Hregs)
    as [(t & m1 & enc & m2 & rew & m3 & _ & _ & _ & H)|(e & H & _)].
  - eexists. split; [exact H|reflexivity].
  - vm_compute in H. discriminate H.
Defined.

(** A workbook without a [Regions] sheet is imported under the default
    region, and [/encounter] never rolls it: the tenant has no region to
    list, so the reply is the region picker with nothing to pick, while
    the default types table sits in the store. *)
Theorem encounter_without_regions db raw1 raw2 raw3 g wb u f n e c' :
  reachable db -> g <> 0 ->
  import_workbook_bytes g wb u (connect db f) = (Val (Some n, e), c') ->
  Xl.has_sheet wb "Regions" = false ->
  encounter_cmd (committed c') raw1 raw2 raw3 (Some g) = Val (EncounterPick [])
  /\ exists d, Sql.select_table_def (committed c') g "encounter_type" None None = Some d.
Proof.
  intros Hr Hg Hi Hs. apply reachable_store_ok in Hr as [Hok _].
  apply import_store in Hi as (regions & Hp & Hne & Hv & Hc & _).
  assert (Ha : accepted wb regions) by (repeat split; assumption).
  assert (Hh : tenant_holds (committed c') g wb regions)
    by (rewrite Hc; now apply imported_holds).
  split.
  - pose proof (holds_regions Hh) as Hf. rewrite Hs in Hf.
    change (_fetch_regions (committed c') g) with (get_regions (committed c') g) in Hf.
    unfold encounter_cmd. rewrite (proj2 (Z.eqb_neq g 0) Hg), Hf. reflexivity.
  - assert (Hspec : In (type_spec wb None) (wb_specs wb regions)).
    { apply in_wb_specs. exists None. split; [|now left]. rewrite Hs. now left. }
    destruct (@holds_select _ _ _ _ _ Ha Hh Hspec) as (d & Hd & _). eauto.
Qed.

Lemma encounter_without_regions_witness :
  encounter_cmd sample_db 0 0 0 (Some 7) = Val (EncounterPick [])
  /\ exists d, Sql.select_table_def sample_db 7 "encounter_type" None None = Some d.
Proof.
  apply (@encounter_without_regions empty_db 0 0 0 7 sample_wb "t0" no_fault
           {| encounter_types := 1; encounter_entries := 2; reward_types := 1;
              reward_entries := 2; regions := 0 |} []
           {| committed := sample_db; txn := None; clock := 13; fault := no_fault |}
           reach_empty).
  - discriminate.
  - exact sample_db_imported.
  - vm_compute. reflexivity.
Defined.
